(** * text-diff-viewer: the diff core, embedded and verified

    A shallow embedding of the TypeScript diff core of the repository
    (src/utils/textProcessor.ts, src/utils/levenshtein.ts and
    src/utils/diffAlgorithm.ts) together with the properties its
    specification states about it.

    Conventions of the embedding.
    - A JavaScript string is the list of its UTF-16 code units.
    - Integer-valued numbers (lengths, indices, positions, edit distances)
      are [nat]; they stay far below 2^53, where doubles are exact.
      Millisecond readings and budgets are [Z].
    - The only fractional quantity, the similarity percentage, is computed
      in IEEE-754 binary64 exactly as JavaScript does, with the
      specification of floating-point arithmetic of the standard library
      ([spec_float], precision 53, emax 1024); its properties are stated
      with the exact rational value ([Q]) of a double.
    - [Date.now()] is the only effect of the core: a computation receives
      the readings of the clock as a function [now], where [now 0] is the
      reading taken at the start and [now i] the one taken at the head of
      the i-th row of the matrix. *)

From Stdlib Require Import ZArith Ascii String.
From Stdlib Require Import Floats.SpecFloat.
From Stdlib Require Import QArith Qpower Qminmax Lqa.
From stdpp Require Import base numbers strings list pretty gmap.

Local Open Scope nat_scope.

(** ** JavaScript strings *)

Abbreviation jsstring := (list N).

(** A literal: the code units of an ASCII string. *)
Fixpoint js (s : string) : jsstring :=
  match s with
  | EmptyString => []
  | String c s' => N_of_ascii c :: js s'
  end.

Definition CHAR_TAB : N := 9.
Definition CHAR_LF : N := 10.
Definition CHAR_CR : N := 13.
Definition CHAR_SPACE : N := 32.
Definition CHAR_BOM : N := 65279.

(** [a === b] on possibly [undefined] array reads. *)
Definition elem_eqb (a b : option jsstring) : bool := bool_decide (a = b).

(** [s || ''] for an optional string: [undefined] and [''] both give ['']. *)
Definition or_empty (s : option jsstring) : jsstring := default [] s.

(** [parts.join('')]. *)
Definition join (parts : list jsstring) : jsstring := concat parts.

(** ** JavaScript numbers that are not integers: binary64 *)

Module Number.

Definition prec : Z := 53.
Definition emax : Z := 1024.

Definition t := spec_float.

(** The double nearest to an integer. *)
Definition of_Z (z : Z) : t := binary_normalize prec emax z 0 false.
Definition of_nat (n : nat) : t := of_Z (Z.of_nat n).

Definition sub : t → t → t := SFsub prec emax.
Definition mul : t → t → t := SFmul prec emax.
Definition div : t → t → t := SFdiv prec emax.
Definition ltb : t → t → bool := SFltb.
Definition leb : t → t → bool := SFleb.

(** [Math.max(x, y)]: NaN if either is NaN, and +0 is larger than -0. *)
Definition max (x y : t) : t :=
  match x, y with
  | S754_nan, _ | _, S754_nan => S754_nan
  | S754_zero sx, S754_zero sy => S754_zero (sx && sy)
  | _, _ => if SFltb x y then y else x
  end.

(** [Math.round(x)]: the integer nearest to [x], ties towards +infinity;
    a result of zero keeps the sign of [x]. *)
Definition round (x : t) : t :=
  match x with
  | S754_finite s m e =>
      if (0 <=? e)%Z then x
      else
        let v := if s then Z.neg m else Z.pos m in
        binary_normalize prec emax
          ((2 * v + 2 ^ (- e)) / 2 ^ (1 - e))%Z 0 s
  | _ => x
  end.

End Number.

(** ** src/utils/textProcessor.ts *)

(** [text.replace(/\r\n/g, '\n')]. *)
Fixpoint replace_crlf (text : jsstring) : jsstring :=
  match text with
  | [] => []
  | c :: rest =>
      match rest with
      | d :: rest' =>
          if (c =? CHAR_CR)%N && (d =? CHAR_LF)%N
          then CHAR_LF :: replace_crlf rest'
          else c :: replace_crlf rest
      | [] => [c]
      end
  end.

(** [text.replace(/c/g, d)] for single code units [c] and [d]. *)
Definition replace_char (c d : N) (text : jsstring) : jsstring :=
  (λ x, if (x =? c)%N then d else x) <$> text.

Definition normalizeLineBreaks (text : jsstring) : jsstring :=
  replace_char CHAR_CR CHAR_LF (replace_crlf text).

Definition removeBOM (text : jsstring) : jsstring :=
  match text with
  | c :: rest => if (c =? CHAR_BOM)%N then rest else text
  | [] => text
  end.

(** [text.replace(new RegExp(` {${k + 1},}`, 'g'), ' '.repeat(k))]: every
    maximal run of more than [k] spaces shrinks to [k] spaces; [run] is the
    length of the run of spaces read so far. *)
Definition flush_spaces (k run : nat) : jsstring :=
  replicate (if k <? run then k else run) CHAR_SPACE.

Fixpoint collapse_spaces (k run : nat) (text : jsstring) : jsstring :=
  match text with
  | [] => flush_spaces k run
  | c :: rest =>
      if (c =? CHAR_SPACE)%N then collapse_spaces k (S run) rest
      else flush_spaces k run ++ c :: collapse_spaces k 0 rest
  end.

Record WhitespaceOptions := {
  preserveTabs : option bool;
  normalizeSpaces : option bool;
  maxConsecutiveSpaces : option nat
}.

Definition no_whitespace_options : WhitespaceOptions :=
  {| preserveTabs := None; normalizeSpaces := None;
     maxConsecutiveSpaces := None |}.

Definition normalizeWhitespace
    (text : jsstring) (options : WhitespaceOptions) : jsstring :=
  let preserveTabs := default false (preserveTabs options) in
  let normalizeSpaces := default true (normalizeSpaces options) in
  let maxConsecutiveSpaces := default 2 (maxConsecutiveSpaces options) in
  let result := text in
  let result :=
    if negb preserveTabs then replace_char CHAR_TAB CHAR_SPACE result
    else result in
  let result :=
    if normalizeSpaces && (0 <? maxConsecutiveSpaces)
    then collapse_spaces maxConsecutiveSpaces 0 result
    else result in
  result.

Record PreprocessOptions := {
  opt_removeBOM : option bool;
  opt_normalizeLineBreaks : option bool;
  opt_normalizeWhitespace : option bool;
  whitespaceOptions : option WhitespaceOptions
}.

Definition no_preprocess_options : PreprocessOptions :=
  {| opt_removeBOM := None; opt_normalizeLineBreaks := None;
     opt_normalizeWhitespace := None; whitespaceOptions := None |}.

Definition preprocessTextWith
    (text : jsstring) (options : PreprocessOptions) : jsstring :=
  let shouldRemoveBOM := default true (opt_removeBOM options) in
  let shouldNormalizeLineBreaks :=
    default true (opt_normalizeLineBreaks options) in
  let shouldNormalizeWhitespace :=
    default true (opt_normalizeWhitespace options) in
  let whitespaceOptions :=
    default no_whitespace_options (whitespaceOptions options) in
  let result := text in
  let result := if shouldRemoveBOM then removeBOM result else result in
  let result :=
    if shouldNormalizeLineBreaks then normalizeLineBreaks result
    else result in
  let result :=
    if shouldNormalizeWhitespace
    then normalizeWhitespace result whitespaceOptions
    else result in
  result.

(** [preprocessText(text)], the call without options that the diff makes. *)
Definition preprocessText (text : jsstring) : jsstring :=
  preprocessTextWith text no_preprocess_options.

(** [[...text]]: the string iterator yields code points, so a high surrogate
    followed by a low surrogate is one element of two code units. *)
Definition is_high_surrogate (c : N) : bool :=
  ((55296 <=? c) && (c <=? 56319))%N.
Definition is_low_surrogate (c : N) : bool :=
  ((56320 <=? c) && (c <=? 57343))%N.

Fixpoint splitIntoChars (text : jsstring) : list jsstring :=
  match text with
  | [] => []
  | c :: rest =>
      match rest with
      | d :: rest' =>
          if is_high_surrogate c && is_low_surrogate d
          then [c; d] :: splitIntoChars rest'
          else [c] :: splitIntoChars rest
      | [] => [[c]]
      end
  end.

(** ** Outcomes of a computation

    A call returns a value, throws, or never returns. The only loop of the
    core without a bound of its own is the backtrace of the alignment; it is
    shown below never to spin. *)

Inductive Error :=
  | LevenshteinTimeout          (* Error('Levenshtein计算超时') *)
  | DiffFailed (cause : Error). (* Error(`差异计算失败: ${cause.message}`) *)

Inductive outcome (A : Type) :=
  | Returns (a : A)
  | Throws (e : Error)
  | Diverges.
Arguments Returns {A} a.
Arguments Throws {A} e.
Arguments Diverges {A}.

(** ** src/utils/levenshtein.ts *)

(** The tags of [LevenshteinOperation['type']]. *)
Module Op.
Inductive type := replace | delete | insert.
End Op.

#[global] Instance Op_type_eq_dec : EqDecision Op.type.
Proof. solve_decision. Defined.

Record LevenshteinOperation := {
  op_type : Op.type;
  op_position : nat;
  oldChar : option jsstring;
  newChar : option jsstring
}.

#[global] Instance LevenshteinOperation_eq_dec :
  EqDecision LevenshteinOperation.
Proof. solve_decision. Defined.

Record LevenshteinResult := {
  editDistance : nat;
  operations : list LevenshteinOperation
}.

Record LevenshteinOptions := { lev_timeout : option Z }.

(** The DP matrix: an array of rows. *)
Abbreviation matrix := (list (list nat)).

(** [dp[i][j]], read inside the bounds everywhere in the code. *)
Definition get (dp : matrix) (i j : nat) : nat :=
  default 0 (dp !! i ≫= (.!! j)).

(** [dp[i][j] = v]. *)
Definition set (dp : matrix) (i j v : nat) : matrix :=
  alter (<[j := v]>) i dp.

(** [Array(m + 1).fill(null).map(() => Array(n + 1).fill(0))]. *)
Definition newMatrix (m n : nat) : matrix :=
  replicate (m + 1) (replicate (n + 1) 0).

(** [for (let i = 0; i <= m; i++) dp[i][0] = i]. *)
Definition initFirstColumn (m : nat) (dp : matrix) : matrix :=
  foldl (λ dp i, set dp i 0 i) dp (seq 0 (m + 1)).

(** [for (let j = 0; j <= n; j++) dp[0][j] = j]. *)
Definition initFirstRow (n : nat) (dp : matrix) : matrix :=
  foldl (λ dp j, set dp 0 j j) dp (seq 0 (n + 1)).

(** The value stored in [dp[i][j]] by the body of the inner loop. *)
Definition cellValue (str1 str2 : list jsstring) (dp : matrix) (i j : nat)
    : nat :=
  if elem_eqb (str1 !! (i - 1)) (str2 !! (j - 1))
  then get dp (i - 1) (j - 1)
  else ((get dp (i - 1) j + 1) `min` (get dp i (j - 1) + 1))
         `min` (get dp (i - 1) (j - 1) + 1).

(** [for (let j = 1; j <= n; j++) dp[i][j] = ...]. *)
Definition fillRow (str1 str2 : list jsstring) (n : nat) (dp : matrix)
    (i : nat) : matrix :=
  foldl (λ dp j, set dp i j (cellValue str1 str2 dp i j)) dp (seq 1 n).

(** The outer loop over [rows], with its check of the clock at the head of
    every row. *)
Fixpoint fillRows (now : nat → Z) (timeout : Z)
    (str1 str2 : list jsstring) (n : nat) (rows : list nat) (dp : matrix)
    : outcome matrix :=
  match rows with
  | [] => Returns dp
  | i :: rows' =>
      if (timeout <? now i - now 0%nat)%Z then Throws LevenshteinTimeout
      else fillRows now timeout str1 str2 n rows' (fillRow str1 str2 n dp i)
  end.

Definition fillMatrix (now : nat → Z) (timeout : Z)
    (str1 str2 : list jsstring) : outcome matrix :=
  let m := length str1 in
  let n := length str2 in
  let dp := newMatrix m n in
  let dp := initFirstColumn m dp in
  let dp := initFirstRow n dp in
  fillRows now timeout str1 str2 n (seq 1 m) dp.

(** One iteration of the backtrace loop at [(i, j)], where [i > 0 || j > 0]:
    the operation pushed, if any, and the next [(i, j)]; [None] when no
    branch of the loop body is taken, which leaves [i] and [j] as they are. *)
Definition backtraceStep (dp : matrix) (str1 str2 : list jsstring)
    (i j : nat) : option (option LevenshteinOperation * nat * nat) :=
  if (0 <? i) && (0 <? j) && elem_eqb (str1 !! (i - 1)) (str2 !! (j - 1))
  then Some (None, i - 1, j - 1)
  else if (0 <? i) && (0 <? j) && (get dp i j =? get dp (i - 1) (j - 1) + 1)
  then Some (Some {| op_type := Op.replace; op_position := i - 1;
                     oldChar := str1 !! (i - 1);
                     newChar := str2 !! (j - 1) |}, i - 1, j - 1)
  else if (0 <? i) && (get dp i j =? get dp (i - 1) j + 1)
  then Some (Some {| op_type := Op.delete; op_position := i - 1;
                     oldChar := str1 !! (i - 1);
                     newChar := None |}, i - 1, j)
  else if (0 <? j) && (get dp i j =? get dp i (j - 1) + 1)
  then Some (Some {| op_type := Op.insert; op_position := i;
                     oldChar := None;
                     newChar := str2 !! (j - 1) |}, i, j - 1)
  else None.

(** [while (i > 0 || j > 0) { ... }]. Every iteration that takes a branch
    lowers [i + j], so [i + j] iterations are enough fuel; an iteration that
    takes none repeats forever. *)
Fixpoint backtrace (dp : matrix) (str1 str2 : list jsstring)
    (fuel i j : nat) (operations : list LevenshteinOperation)
    : option (list LevenshteinOperation) :=
  if (0 <? i) || (0 <? j) then
    match fuel with
    | 0 => None
    | S fuel' =>
        match backtraceStep dp str1 str2 i j with
        | Some (Some op, i', j') =>
            backtrace dp str1 str2 fuel' i' j' (operations ++ [op])
        | Some (None, i', j') =>
            backtrace dp str1 str2 fuel' i' j' operations
        | None => None
        end
    end
  else Some operations.

(** The operation list after [operations.reverse()]. *)
Definition backtraceOperations (dp : matrix) (str1 str2 : list jsstring)
    : option (list LevenshteinOperation) :=
  let m := length str1 in
  let n := length str2 in
  reverse <$> backtrace dp str1 str2 (m + n) m n [].

(** The inner [while] of the optimizer: absorbs the inserts at position [pos]
    that head [rest]; returns the merged content and what is left, which
    starts at [operations[nextIndex]]. *)
Fixpoint mergeInserts (rest : list LevenshteinOperation) (pos : nat)
    (mergedContent : jsstring) : jsstring * list LevenshteinOperation :=
  match rest with
  | next :: rest' =>
      if bool_decide (op_type next = Op.insert)
         && (op_position next =? pos)
      then mergeInserts rest' pos (mergedContent ++ or_empty (newChar next))
      else (mergedContent, rest)
  | [] => (mergedContent, [])
  end.

(** [optimized.length > 0 && optimized[optimized.length - 1].type ===
    'insert' && optimized[optimized.length - 1].position ===
    current.position]. *)
Definition hasPrecedingInsert (optimized : list LevenshteinOperation)
    (current : LevenshteinOperation) : bool :=
  match last optimized with
  | Some prev =>
      bool_decide (op_type prev = Op.insert)
      && (op_position prev =? op_position current)
  | None => false
  end.

(** The [for] loop of the optimizer; [rest] is [operations] from index [i]
    on. Each iteration consumes at least one operation. In the source the
    assignment [i = nextIndex] of the replace branch is overwritten by
    [i = nextIndex - 1], so both branches resume at [operations[nextIndex]]:
    the replace is met again and dropped there by [hasPrecedingInsert]. *)
Fixpoint optimizeLoop (fuel : nat) (rest optimized : list LevenshteinOperation)
    : list LevenshteinOperation :=
  match fuel with
  | 0 => optimized
  | S fuel' =>
      match rest with
      | [] => optimized
      | current :: rest1 =>
          if bool_decide (op_type current = Op.insert) then
            let '(mergedContent, rest2) :=
              mergeInserts rest1 (op_position current)
                (or_empty (newChar current)) in
            let mergedContent :=
              match rest2 with
              | replaceOp :: _ =>
                  if bool_decide (op_type replaceOp = Op.replace)
                     && (op_position replaceOp =? op_position current)
                  then mergedContent ++ or_empty (newChar replaceOp)
                  else mergedContent
              | [] => mergedContent
              end in
            optimizeLoop fuel' rest2
              (optimized ++ [{| op_type := Op.insert;
                                op_position := op_position current;
                                oldChar := None;
                                newChar := Some mergedContent |}])
          else
            optimizeLoop fuel' rest1
              (if hasPrecedingInsert optimized current then optimized
               else optimized ++ [current])
      end
  end.

Definition optimizeOperations (operations : list LevenshteinOperation)
    : list LevenshteinOperation :=
  if length operations =? 0 then operations
  else optimizeLoop (length operations) operations [].

(** [options.timeout || 5000]: [undefined] and [0] are both falsy. *)
Definition effectiveTimeout (options : LevenshteinOptions) : Z :=
  match lev_timeout options with
  | None => 5000
  | Some t => if (t =? 0)%Z then 5000 else t
  end.

Module Levenshtein.

(** [calculateLevenshtein] of src/utils/levenshtein.ts. *)
Definition calculateLevenshtein (now : nat → Z)
    (str1 str2 : list jsstring) (options : LevenshteinOptions)
    : outcome LevenshteinResult :=
  let timeout := effectiveTimeout options in
  let m := length str1 in
  let n := length str2 in
  match fillMatrix now timeout str1 str2 with
  | Returns dp =>
      match backtraceOperations dp str1 str2 with
      | Some operations =>
          let optimizedOperations := optimizeOperations operations in
          Returns {| editDistance := get dp m n;
                     operations := optimizedOperations |}
      | None => Diverges
      end
  | Throws e => Throws e
  | Diverges => Diverges
  end.

End Levenshtein.

Module TextProcessor.

(** The [calculateLevenshtein] that src/utils/textProcessor.ts carries:
    the same alignment without the optimization pass. *)
Definition calculateLevenshtein (now : nat → Z)
    (str1 str2 : list jsstring) (options : LevenshteinOptions)
    : outcome LevenshteinResult :=
  let timeout := effectiveTimeout options in
  let m := length str1 in
  let n := length str2 in
  match fillMatrix now timeout str1 str2 with
  | Returns dp =>
      match backtraceOperations dp str1 str2 with
      | Some operations =>
          Returns {| editDistance := get dp m n;
                     operations := operations |}
      | None => Diverges
      end
  | Throws e => Throws e
  | Diverges => Diverges
  end.

End TextProcessor.

Record Validation := { isValid : bool; errors : list string }.

Definition MSG_TIMEOUT : string := "timeout must be greater than 0".

(** [validateLevenshteinOptions]. The message texts are translated. *)
Definition validateLevenshteinOptions (options : LevenshteinOptions)
    : Validation :=
  let errors := [] in
  let errors :=
    match lev_timeout options with
    | Some t => if (t <=? 0)%Z then errors ++ [MSG_TIMEOUT] else errors
    | None => errors
    end in
  {| isValid := length errors =? 0; errors := errors |}.

(** ** src/types/diff.ts *)

(** The tags of [DiffRecord['type']]. *)
Module Diff.
Inductive type := add | delete | modify.
End Diff.

#[global] Instance Diff_type_eq_dec : EqDecision Diff.type.
Proof. solve_decision. Defined.

Record DiffRecord := {
  position : nat;
  type : Diff.type;
  content : jsstring;
  originalContent : option jsstring
}.

#[global] Instance DiffRecord_eq_dec : EqDecision DiffRecord.
Proof. solve_decision. Defined.

Record DiffResult := {
  res_editDistance : nat;
  diffs : list DiffRecord;
  similarity : Number.t;
  text1 : jsstring;
  text2 : jsstring
}.

(** [convertOperationsToDiffRecords] of src/utils/levenshtein.ts. *)
Definition convertOperation (op : LevenshteinOperation) : DiffRecord :=
  match op_type op with
  | Op.replace =>
      {| position := op_position op; type := Diff.modify;
         content := or_empty (newChar op);
         originalContent := oldChar op |}
  | Op.delete =>
      {| position := op_position op; type := Diff.delete;
         content := or_empty (oldChar op);
         originalContent := None |}
  | Op.insert =>
      {| position := op_position op; type := Diff.add;
         content := or_empty (newChar op);
         originalContent := None |}
  end.

Definition convertOperationsToDiffRecords
    (operations : list LevenshteinOperation) : list DiffRecord :=
  convertOperation <$> operations.

(** ** src/utils/diffAlgorithm.ts *)

(** An absent property is [None]. [precision] is typed as one of three
    literals, but the validation below tests for other values, so any string
    can arrive. *)
Record DiffOptions := {
  timeout : option Z;
  ignoreWhitespace : option bool;
  ignoreCase : option bool;
  precision : option string
}.

Definition DEFAULT_TIMEOUT : Z := 5000.
Definition DEFAULT_PRECISION : string := "character".

Definition no_options : DiffOptions :=
  {| timeout := None; ignoreWhitespace := None; ignoreCase := None;
     precision := None |}.

(** The characters that [\s] matches. *)
Definition is_js_space (c : N) : bool :=
  bool_decide (c ∈ [9; 10; 11; 12; 13; 32; 160; 5760; 8232; 8233; 8239;
                    8287; 12288; 65279]%N)
  || ((8192 <=? c) && (c <=? 8202))%N.

(** [text.split(/(\s+)/)]: the pieces between the runs of white space and
    the runs themselves. [tok] is the piece being read; [run] is the run of
    white space being read, if the scan is inside one. *)
Fixpoint splitWords (tok : jsstring) (run : option jsstring)
    (text : jsstring) : list jsstring :=
  match text, run with
  | [], None => [tok]
  | [], Some r => [r; []]
  | c :: rest, None =>
      if is_js_space c then tok :: splitWords [] (Some [c]) rest
      else splitWords (tok ++ [c]) None rest
  | c :: rest, Some r =>
      if is_js_space c then splitWords [] (Some (r ++ [c])) rest
      else r :: splitWords [c] None rest
  end.

(** [text.split(/(\n)/)]: the lines and the line feeds between them. *)
Fixpoint splitLines (tok : jsstring) (text : jsstring) : list jsstring :=
  match text with
  | [] => [tok]
  | c :: rest =>
      if (c =? CHAR_LF)%N then tok :: [CHAR_LF] :: splitLines [] rest
      else splitLines (tok ++ [c]) rest
  end.

Definition getSplitFunction (precision : string)
    : jsstring → list jsstring :=
  if String.eqb precision "character" then splitIntoChars
  else if String.eqb precision "word" then splitWords [] None
  else if String.eqb precision "line" then splitLines []
  else splitIntoChars.

Definition calculateSimilarity (text1 text2 : jsstring) (editDistance : nat)
    : Number.t :=
  let maxLength := length text1 `max` length text2 in
  if maxLength =? 0 then Number.of_Z 100
  else
    let similarity :=
      Number.max (Number.of_Z 0)
        (Number.mul
           (Number.sub (Number.of_Z 1)
              (Number.div (Number.of_nat editDistance)
                 (Number.of_nat maxLength)))
           (Number.of_Z 100)) in
    Number.div (Number.round (Number.mul similarity (Number.of_Z 100)))
      (Number.of_Z 100).

Section CalculateDiff.

(** [String.prototype.toLowerCase], which depends on the Unicode case
    tables of the host. *)
Variable toLowerCase : jsstring → jsstring.

(** [calculateDiff]; the promise it returns is settled with the outcome. *)
Definition calculateDiff (now : nat → Z) (text1 text2 : jsstring)
    (options : DiffOptions) : outcome DiffResult :=
  let final_timeout := default DEFAULT_TIMEOUT (timeout options) in
  let final_ignoreCase := default false (ignoreCase options) in
  let final_precision := default DEFAULT_PRECISION (precision options) in
  let processedText1 := preprocessText text1 in
  let processedText2 := preprocessText text2 in
  let compareText1 :=
    if final_ignoreCase then toLowerCase processedText1
    else processedText1 in
  let compareText2 :=
    if final_ignoreCase then toLowerCase processedText2
    else processedText2 in
  let splitFunc := getSplitFunction final_precision in
  let chars1 := splitFunc compareText1 in
  let chars2 := splitFunc compareText2 in
  let levenshteinOptions := {| lev_timeout := Some final_timeout |} in
  match
    Levenshtein.calculateLevenshtein now chars1 chars2 levenshteinOptions
  with
  | Returns r =>
      let diffRecords := convertOperationsToDiffRecords (operations r) in
      let similarity :=
        calculateSimilarity processedText1 processedText2
          (editDistance r) in
      Returns {| res_editDistance := editDistance r;
                 diffs := diffRecords;
                 similarity := similarity;
                 text1 := processedText1;
                 text2 := processedText2 |}
  | Throws e => Throws (DiffFailed e)
  | Diverges => Diverges
  end.

End CalculateDiff.


(** ** The vocabulary of the specification *)

(** The clock stays inside the budget at the head of each of the [m] rows. *)
Definition within_budget (now : nat → Z) (timeout : Z) (m : nat) : Prop :=
  ∀ i, 1 ≤ i ≤ m → (now i - now 0%nat ≤ timeout)%Z.

(** The alignment matrix as the specification defines it: row 0 and column 0
    hold the identity costs, every other cell is the diagonal cell when the
    two units are equal and one more than the least of its three neighbours
    otherwise. *)
Fixpoint lev_cell (source target : list jsstring) (i j : nat) {struct i}
    : nat :=
  match i with
  | 0 => j
  | S i' =>
      (fix row (j : nat) : nat :=
         match j with
         | 0 => S i'
         | S j' =>
             if elem_eqb (source !! i') (target !! j')
             then lev_cell source target i' j'
             else S ((lev_cell source target i' (S j') `min` row j')
                       `min` lev_cell source target i' j')
         end) j
  end.

(** [edit_cost s t k]: a left-to-right script of [k] single-unit inserts,
    deletes and replaces, which keeps every other unit, turns [s] into [t]. *)
Inductive edit_cost {A : Type} : list A → list A → nat → Prop :=
  | edit_nil : edit_cost [] [] 0
  | edit_keep x s t k :
      edit_cost s t k → edit_cost (x :: s) (x :: t) k
  | edit_replace x y s t k :
      edit_cost s t k → edit_cost (x :: s) (y :: t) (S k)
  | edit_delete x s t k :
      edit_cost s t k → edit_cost (x :: s) t (S k)
  | edit_insert y s t k :
      edit_cost s t k → edit_cost s (y :: t) (S k).

(** One single-unit edit, anywhere in the sequence. *)
Inductive one_edit {A : Type} : list A → list A → Prop :=
  | one_insert l y r : one_edit (l ++ r) (l ++ y :: r)
  | one_delete l x r : one_edit (l ++ x :: r) (l ++ r)
  | one_replace l x y r : one_edit (l ++ x :: r) (l ++ y :: r).

(** [edits s t k]: [k] single-unit edits, applied one after the other, turn
    [s] into [t]. *)
Inductive edits {A : Type} : list A → list A → nat → Prop :=
  | edits_done s : edits s s 0
  | edits_step s u t k : one_edit s u → edits u t k → edits s t (S k).

(** [d] is the minimum number of single-unit edits that turn [s] into [t]. *)
Definition minimum_edits {A : Type} (s t : list A) (d : nat) : Prop :=
  edits s t d ∧ ∀ k, edits s t k → d ≤ k.

(** Replaying diff records against the source units, in the order of the
    list: the units before the position of a record are copied; an [add]
    puts its content there; a [delete] drops the source unit at its
    position; a [modify] puts its content in the place of that unit. What is
    left of the source is copied at the end. [cur] is the index of the next
    source unit to copy. *)
Fixpoint replay_from (source : list jsstring) (cur : nat)
    (records : list DiffRecord) : jsstring :=
  match records with
  | [] => join (drop cur source)
  | r :: records' =>
      let p := position r in
      join (take (p - cur) (drop cur source)) ++
      match type r with
      | Diff.add =>
          content r ++ replay_from source (cur `max` p) records'
      | Diff.delete =>
          replay_from source (S (cur `max` p)) records'
      | Diff.modify =>
          content r ++ replay_from source (S (cur `max` p)) records'
      end
  end.

Definition replay (source : list jsstring) (records : list DiffRecord)
    : jsstring :=
  replay_from source 0 records.

(** The records are in position order. *)
Fixpoint in_position_order (records : list DiffRecord) : bool :=
  match records with
  | a :: (b :: _) as rest =>
      (position a <=? position b) && in_position_order rest
  | _ => true
  end.

Definition is_insert (op : LevenshteinOperation) : bool :=
  bool_decide (op_type op = Op.insert).

(** No insert is immediately followed by a replace or a delete at its own
    position. *)
Fixpoint inserts_stand_alone (ops : list LevenshteinOperation) : bool :=
  match ops with
  | a :: (b :: _) as rest =>
      negb (is_insert a && negb (is_insert b)
            && (op_position a =? op_position b))
      && inserts_stand_alone rest
  | _ => true
  end.

(** No insert immediately follows a replace or a delete at its own
    position. *)
Fixpoint inserts_come_first (ops : list LevenshteinOperation) : bool :=
  match ops with
  | a :: (b :: _) as rest =>
      negb (negb (is_insert a) && is_insert b
            && (op_position a =? op_position b))
      && inserts_come_first rest
  | _ => true
  end.

(** The matrix when the clock lets all the rows be filled. *)
Definition filledMatrix (str1 str2 : list jsstring) : matrix :=
  let m := length str1 in
  let n := length str2 in
  foldl (fillRow str1 str2 n)
    (initFirstRow n (initFirstColumn m (newMatrix m n))) (seq 1 m).

(** The operations of the backtrace of that matrix, reversed, before any
    optimization. *)
Definition rawOperations (str1 str2 : list jsstring)
    : option (list LevenshteinOperation) :=
  backtraceOperations (filledMatrix str1 str2) str1 str2.

Definition well_sized (dp : matrix) (m n : nat) : Prop :=
  length dp = S m ∧ ∀ i row, dp !! i = Some row → length row = S n.

Definition filled_upto (str1 str2 : list jsstring) (m n : nat)
    (dp : matrix) (r c : nat) : Prop :=
  well_sized dp m n ∧
  ∀ i j, i ≤ m → j ≤ n → i < r ∨ (i = r ∧ j ≤ c) ∨ i = 0 ∨ j = 0 →
         get dp i j = lev_cell str1 str2 i j.


(** [ops_in_order]: the positions never decrease along the list. *)
Definition ops_in_order (ops : list LevenshteinOperation) : bool :=
  in_position_order (convertOperationsToDiffRecords ops).

(** No insert is immediately followed by a replace at its own position. *)
Fixpoint no_insert_then_replace (ops : list LevenshteinOperation) : bool :=
  match ops with
  | a :: (b :: _) as rest =>
      negb (is_insert a && bool_decide (op_type b = Op.replace)
            && (op_position a =? op_position b))
      && no_insert_then_replace rest
  | _ => true
  end.

(** The test of [hasPrecedingInsert] on the last operation pushed. *)
Definition blocks (prev : option LevenshteinOperation)
    (current : LevenshteinOperation) : bool :=
  match prev with
  | Some p => is_insert p && (op_position p =? op_position current)
  | None => false
  end.

(** What the loop of the optimizer pushes from [rest] on, given the last
    operation [prev] it pushed before. *)
Fixpoint optimizeFrom (fuel : nat) (rest : list LevenshteinOperation)
    (prev : option LevenshteinOperation) : list LevenshteinOperation :=
  match fuel with
  | 0 => []
  | S fuel' =>
      match rest with
      | [] => []
      | current :: rest1 =>
          if is_insert current then
            let '(mergedContent, rest2) :=
              mergeInserts rest1 (op_position current)
                (or_empty (newChar current)) in
            let mergedContent :=
              match rest2 with
              | replaceOp :: _ =>
                  if bool_decide (op_type replaceOp = Op.replace)
                     && (op_position replaceOp =? op_position current)
                  then mergedContent ++ or_empty (newChar replaceOp)
                  else mergedContent
              | [] => mergedContent
              end in
            let merged := {| op_type := Op.insert;
                             op_position := op_position current;
                             oldChar := None;
                             newChar := Some mergedContent |} in
            merged :: optimizeFrom fuel' rest2 (Some merged)
          else if blocks prev current then optimizeFrom fuel' rest1 prev
          else current :: optimizeFrom fuel' rest1 (Some current)
      end
  end.

(** An insert as the optimizer builds it: new content only. *)
Definition normalized (op : LevenshteinOperation) : Prop :=
  is_insert op → oldChar op = None ∧ is_Some (newChar op).

(** No operation follows an insert at the position of that insert. *)
Fixpoint settled (ops : list LevenshteinOperation) : Prop :=
  match ops with
  | a :: (b :: _) as rest =>
      ¬ (is_insert a ∧ op_position a = op_position b) ∧ settled rest
  | _ => True
  end.

(** The inserts at position [pos]. *)
Definition insert_at (pos : nat) (op : LevenshteinOperation) : Prop :=
  is_insert op ∧ op_position op = pos.

(** The budget that [calculateDiff] ends up running with, and the units it
    compares for a text. *)
Definition diffBudget (options : DiffOptions) : Z :=
  effectiveTimeout
    {| lev_timeout := Some (default DEFAULT_TIMEOUT (timeout options)) |}.

Definition unitsOf (options : DiffOptions) (text : jsstring)
    : list jsstring :=
  getSplitFunction (default DEFAULT_PRECISION (precision options)) text.

Definition diffUnits (toLowerCase : jsstring → jsstring)
    (options : DiffOptions) (text : jsstring) : list jsstring :=
  unitsOf options
    (if default false (ignoreCase options)
     then toLowerCase (preprocessText text)
     else preprocessText text).

(** A clock that does not move, and the characters of a literal. *)
Definition frozen_clock : nat → Z := λ _, 0%Z.
Definition chars (s : string) : list jsstring := splitIntoChars (js s).

(** Sample operations and records for the examples. *)
Definition sample_insert (pos : nat) (s : string) : LevenshteinOperation :=
  {| op_type := Op.insert; op_position := pos; oldChar := None;
     newChar := Some (js s) |}.

Definition sample_delete (pos : nat) (s : string) : LevenshteinOperation :=
  {| op_type := Op.delete; op_position := pos; oldChar := Some (js s);
     newChar := None |}.

Definition sample_replace (pos : nat) (s t : string)
    : LevenshteinOperation :=
  {| op_type := Op.replace; op_position := pos; oldChar := Some (js s);
     newChar := Some (js t) |}.

Definition delete_record (pos : nat) (s : string) : DiffRecord :=
  {| position := pos; type := Diff.delete; content := js s;
     originalContent := None |}.

Definition add_record (pos : nat) (s : string) : DiffRecord :=
  {| position := pos; type := Diff.add; content := js s;
     originalContent := None |}.

(** A clock that advances one millisecond per reading. *)
Definition ticking_clock : nat → Z := Z.of_nat.



Definition with_timeout (t : Z) (options : DiffOptions) : DiffOptions :=
  {| timeout := Some t;
     ignoreWhitespace := ignoreWhitespace options;
     ignoreCase := ignoreCase options;
     precision := precision options |}.


(** ** Binary64 values

    The vocabulary in which the properties of the floating-point
    computation are stated: the rational value of a double. *)

(** A record whose round and sticky bits are clear: nothing was lost. *)
Definition exact_record (mrs : shr_record) : Prop :=
  shr_r mrs = false ∧ shr_s mrs = false.

(** [represents x m e]: the non-negative double [x] has the value
    [m * 2 ^ e], and its exponent is at most [eB]. *)
Definition represents (eB : Z) (x : spec_float) (m e : Z) : Prop :=
  match x with
  | S754_zero false => m = 0%Z
  | S754_finite false m' e' =>
      (e ≤ e' ≤ eB)%Z ∧ m = (Z.pos m' * 2 ^ (e' - e))%Z
  | _ => False
  end.

(** [2 ^ e] as a rational, for any integer [e]. *)
Definition pow2 (e : Z) : Q := (2 ^ e)%Q.

(** The rational [m * 2 ^ e]. *)
Definition F2Q (m e : Z) : Q := (inject_Z m * pow2 e)%Q.

(** The value of a double; the infinities and NaN get 0. *)
Definition value (x : Number.t) : Q :=
  match x with
  | S754_finite s m e => F2Q (cond_Zopp s (Z.pos m)) e
  | _ => 0%Q
  end.

(** A double that is +0 or positive and finite, with an exponent of at
    most [eB]. *)
Definition nonneg_upto (eB : Z) (x : Number.t) : Prop :=
  match x with
  | S754_zero false => True
  | S754_finite false _ e => (e ≤ eB)%Z
  | _ => False
  end.

(** A double of sign [s]: a zero, a finite number or an infinity. *)
Definition signed (s : bool) (x : Number.t) : Prop :=
  match x with
  | S754_zero s' | S754_finite s' _ _ | S754_infinity s' => s' = s
  | S754_nan => False
  end.

(** A double that is a zero, or negative (finite or not). *)
Definition nonpos (x : Number.t) : Prop :=
  match x with
  | S754_zero _ | S754_finite true _ _ | S754_infinity true => True
  | _ => False
  end.

(** ** The similarity of the specification *)

(** [max(0, 1 - editDistance / maxLength) * 100], over the rationals. *)
Definition similarity_formula (editDistance maxLength : nat) : Q :=
  (Qmax 0 (1 - inject_Z (Z.of_nat editDistance)
               / inject_Z (Z.of_nat maxLength)) * 100)%Q.

(** The double nearest to [k / 100]: a number with two decimal places. *)
Definition hundredth (k : Z) : Number.t :=
  Number.div (Number.of_Z k) (Number.of_Z 100).

(** [r] is [x] rounded to two decimal places: the number [k / 100] with
    two decimal places that is nearest to [x] (either of the two at a
    tie), as a double. *)
Definition rounded_to_two_decimals (x : Q) (r : Number.t) : Prop :=
  ∃ k : Z,
    (inject_Z k - (1 # 2) <= x * 100)%Q
    ∧ (x * 100 <= inject_Z k + (1 # 2))%Q
    ∧ r = hundredth k.

(** [0 <= r <= 100], as JavaScript compares doubles. *)
Definition in_percent_range (r : Number.t) : bool :=
  Number.leb (Number.of_Z 0) r && Number.leb r (Number.of_Z 100).

(** ** More of src/utils/textProcessor.ts *)

Definition CHAR_BACKSLASH : N := 92.
Definition CHAR_LOWER_N : N := 110.

(** [flattenText]: [text.replace(/\n/g, '\\n')], every line feed becomes
    the two units backslash and n. *)
Definition flattenText (text : jsstring) : jsstring :=
  text ≫= (λ c, if (c =? CHAR_LF)%N then [CHAR_BACKSLASH; CHAR_LOWER_N]
                 else [c]).

(** [unflattenText]: [text.replace(/\\n/g, '\n')], every backslash that is
    followed by n becomes, with that n, one line feed; the scan goes from
    left to right and resumes after a match. *)
Fixpoint unflattenText (text : jsstring) : jsstring :=
  match text with
  | [] => []
  | c :: rest =>
      match rest with
      | d :: rest' =>
          if (c =? CHAR_BACKSLASH)%N && (d =? CHAR_LOWER_N)%N
          then CHAR_LF :: unflattenText rest'
          else c :: unflattenText rest
      | [] => [c]
      end
  end.

(** [text.split(sep)] for a separator of one code unit; [tok] is the piece
    being read. *)
Fixpoint splitOn (sep : N) (tok : jsstring) (text : jsstring)
    : list jsstring :=
  match text with
  | [] => [tok]
  | c :: rest =>
      if (c =? sep)%N then tok :: splitOn sep [] rest
      else splitOn sep (tok ++ [c]) rest
  end.

(** [text.trim()]: the white space of [trim] is the one of [\s]. *)
Fixpoint trimStart (text : jsstring) : jsstring :=
  match text with
  | c :: rest => if is_js_space c then trimStart rest else text
  | [] => []
  end.

Definition trim (text : jsstring) : jsstring :=
  reverse (trimStart (reverse (trimStart text))).

(** [text.split(/\s+/)]: the pieces between the runs of white space; [tok]
    is the piece being read, [in_run] tells whether the scan is inside a
    run. *)
Fixpoint splitSpaces (tok : jsstring) (in_run : bool) (text : jsstring)
    : list jsstring :=
  match text with
  | [] => [tok]
  | c :: rest =>
      if is_js_space c then
        if in_run then splitSpaces [] true rest
        else tok :: splitSpaces [] true rest
      else splitSpaces (tok ++ [c]) false rest
  end.

(** The number of bytes of one code unit in UTF-8; a surrogate that stands
    alone is written as U+FFFD, three bytes. *)
Definition utf8_unit_size (c : N) : nat :=
  if (c <? 128)%N then 1 else if (c <? 2048)%N then 2 else 3.

(** [new Blob([text]).size]: the length of the text in UTF-8; a surrogate
    pair is one code point of four bytes. *)
Fixpoint blobSize (text : jsstring) : nat :=
  match text with
  | [] => 0
  | c :: rest =>
      match rest with
      | d :: rest' =>
          if is_high_surrogate c && is_low_surrogate d
          then 4 + blobSize rest'
          else utf8_unit_size c + blobSize rest
      | [] => utf8_unit_size c
      end
  end.

Record TextStats := {
  charCount : nat;
  lineCount : nat;
  wordCount : nat;
  byteLength : nat
}.

(** [calculateTextStats]. *)
Definition calculateTextStats (text : jsstring) : TextStats :=
  let chars := splitIntoChars text in
  let lines := splitOn CHAR_LF [] text in
  let words :=
    filter (λ word, 0 < length word) (splitSpaces [] false (trim text)) in
  {| charCount := length chars;
     lineCount := length lines;
     wordCount := if 0 <? length (trim text) then length words else 0;
     byteLength := blobSize text |}.

Record TextValidation := {
  tv_isValid : bool;
  tv_errors : list string;
  tv_warnings : list string
}.

(** [/[\x00-\x08\x0B\x0C\x0E-\x1F\x7F]/]. *)
Definition is_control_char (c : N) : bool :=
  ((c <=? 8) || (c =? 11) || (c =? 12) || ((14 <=? c) && (c <=? 31))
   || (c =? 127))%N.

(** [re.test(text)] for a pattern of two single-unit classes: some unit
    and the one after it satisfy [p]. *)
Fixpoint has_pair (p : N → N → bool) (text : jsstring) : bool :=
  match text with
  | c :: (d :: _) as rest => p c d || has_pair p rest
  | _ => false
  end.

Definition hasCRLF : jsstring → bool :=
  has_pair (λ c d, (c =? CHAR_CR)%N && (d =? CHAR_LF)%N).
Definition hasLF : jsstring → bool :=
  has_pair (λ c d, negb (c =? CHAR_CR)%N && (d =? CHAR_LF)%N).
Definition hasCR : jsstring → bool :=
  has_pair (λ c d, (c =? CHAR_CR)%N && negb (d =? CHAR_LF)%N).

Definition MSG_EMPTY_TEXT : string := "text content is empty".
Definition MSG_MIXED_LINE_BREAKS : string :=
  "text contains mixed line break formats, they will be normalized".
Definition MSG_CONTROL_CHARS (count : nat) : string :=
  "text contains " +:+ pretty count
    +:+ " control characters, which may affect the comparison".

(** [validateTextContent]. The message texts are translated. *)
Definition validateTextContent (text : jsstring) : TextValidation :=
  let errors := [] in
  let warnings := [] in
  if (length text =? 0) || (length (trim text) =? 0) then
    {| tv_isValid := false; tv_errors := errors ++ [MSG_EMPTY_TEXT];
       tv_warnings := warnings |}
  else
    let controlChars := filter (λ c, is_control_char c) text in
    let warnings :=
      if 0 <? length controlChars
      then warnings ++ [MSG_CONTROL_CHARS (length controlChars)]
      else warnings in
    let warnings :=
      if (hasCRLF text && hasLF text) || (hasCRLF text && hasCR text)
         || (hasLF text && hasCR text)
      then warnings ++ [MSG_MIXED_LINE_BREAKS]
      else warnings in
    {| tv_isValid := length errors =? 0; tv_errors := errors;
       tv_warnings := warnings |}.

(** No run of spaces in [text] is longer than [k], where [run] spaces
    come right before [text]. *)
Fixpoint runs_at_most (k run : nat) (text : jsstring) : bool :=
  match text with
  | [] => true
  | c :: rest =>
      if (c =? CHAR_SPACE)%N
      then (S run <=? k) && runs_at_most k (S run) rest
      else runs_at_most k 0 rest
  end.

(** The units of a text that are not spaces or tabs. *)
Definition visible_units (text : jsstring) : jsstring :=
  filter (λ c, c ≠ CHAR_SPACE ∧ c ≠ CHAR_TAB) text.

(** The text holds a backslash that is followed by n. *)
Definition has_escaped_n : jsstring → bool :=
  has_pair (λ c d, (c =? CHAR_BACKSLASH)%N && (d =? CHAR_LOWER_N)%N).

(** The number of words of a text: the maximal runs of units that are not
    white space; [in_word] tells whether the unit before was in a word. *)
Fixpoint count_words (in_word : bool) (text : jsstring) : nat :=
  match text with
  | [] => 0
  | c :: rest =>
      if is_js_space c then count_words false rest
      else (if in_word then 0 else 1) + count_words true rest
  end.

(** ** More of src/utils/levenshtein.ts *)

(** [calculateEditDistance]: the distance of [calculateLevenshtein]. *)
Definition calculateEditDistance (now : nat → Z)
    (str1 str2 : list jsstring) (options : LevenshteinOptions)
    : outcome nat :=
  match Levenshtein.calculateLevenshtein now str1 str2 options with
  | Returns r => Returns (editDistance r)
  | Throws e => Throws e
  | Diverges => Diverges
  end.

(** [calculateLevenshteinForText]: [Array.from(text)] yields the code
    points, as [[...text]] does. *)
Definition calculateLevenshteinForText (now : nat → Z)
    (text1 text2 : jsstring) (options : LevenshteinOptions)
    : outcome LevenshteinResult :=
  let chars1 := splitIntoChars text1 in
  let chars2 := splitIntoChars text2 in
  Levenshtein.calculateLevenshtein now chars1 chars2 options.

(** The operation that the backtrace pushes for a unit of the target that
    is inserted before position [pos], and for the unit of the source at
    [pos] that is deleted. *)
Definition insert_op (pos : nat) (unit : jsstring) : LevenshteinOperation :=
  {| op_type := Op.insert; op_position := pos; oldChar := None;
     newChar := Some unit |}.

Definition delete_op (pos : nat) (unit : jsstring) : LevenshteinOperation :=
  {| op_type := Op.delete; op_position := pos; oldChar := Some unit;
     newChar := None |}.

(** An operation that quotes the texts it was computed from: a delete and
    a replace name the unit of [str1] at their position, a replace names a
    different unit of [str2] as well, and an insert carries new content
    only and stands at a position of [str1] or right after its end. *)
Definition quotes (str1 str2 : list jsstring) (op : LevenshteinOperation)
    : Prop :=
  match op_type op with
  | Op.delete =>
      is_Some (oldChar op) ∧ oldChar op = str1 !! op_position op
      ∧ newChar op = None
  | Op.replace =>
      is_Some (oldChar op) ∧ oldChar op = str1 !! op_position op
      ∧ (∃ j, is_Some (newChar op) ∧ newChar op = str2 !! j)
      ∧ oldChar op ≠ newChar op
  | Op.insert =>
      op_position op ≤ length str1 ∧ oldChar op = None
      ∧ is_Some (newChar op)
  end.

(** ** More of src/utils/diffAlgorithm.ts *)

Record DiffStats := {
  additions : nat;
  deletions : nat;
  modifications : nat;
  stats_similarity : Number.t
}.

(** [calculateDiffStats]: the [for] loop over the records with its
    [switch], then [Math.max(0, ...)] on each count. *)
Definition calculateDiffStats (diffResult : DiffResult) : DiffStats :=
  let '(additions, deletions, modifications) :=
    foldl (λ '(additions, deletions, modifications) diff,
             match type diff with
             | Diff.add => (additions + 1, deletions, modifications)
             | Diff.delete => (additions, deletions + 1, modifications)
             | Diff.modify => (additions, deletions, modifications + 1)
             end)
      (0, 0, 0) (diffs diffResult) in
  {| additions := 0 `max` additions;
     deletions := 0 `max` deletions;
     modifications := 0 `max` modifications;
     stats_similarity := similarity diffResult |}.

(** A unit of white space, and a unit that is not. *)
Definition space (c : N) : Prop := is_js_space c = true.
Definition no_space (c : N) : Prop := is_js_space c = false.

(** The pieces of [splitWords] when the scan starts inside a word, whose
    units read so far are [tok], and when it starts inside a run of white
    space: words and runs alternate, and only the first and the last word
    can be empty. *)
Definition words_from_piece (tok : jsstring) (l : list jsstring) : Prop :=
  ∀ k piece, l !! k = Some piece →
    if Nat.even k
    then Forall no_space piece
         ∧ (piece = [] → (k = 0 ∧ tok = []) ∨ S k = length l)
    else piece ≠ [] ∧ Forall space piece.

Definition words_from_run (l : list jsstring) : Prop :=
  ∀ k piece, l !! k = Some piece →
    if Nat.even k
    then piece ≠ [] ∧ Forall space piece
    else Forall no_space piece ∧ (piece = [] → S k = length l).

(** ** src/utils/diffAlgorithm.ts, the variant on diff-match-patch *)

(** [[...diffs].sort((a, b) => a.position - b.position)]: the sort of an
    array is stable, which fixes its result; here by insertion, the records
    taken from the last to the first and each put before the first record
    that does not precede it. *)
Fixpoint insertByPosition (r : DiffRecord) (sorted : list DiffRecord)
    : list DiffRecord :=
  match sorted with
  | [] => [r]
  | s :: rest =>
      if position r <=? position s then r :: sorted
      else s :: insertByPosition r rest
  end.

Definition sortByPosition (diffs : list DiffRecord) : list DiffRecord :=
  foldr insertByPosition [] diffs.

Module Dmp.

Section Tags.

(** The tags [DIFF_DELETE], [DIFF_INSERT] and [DIFF_EQUAL] that the
    diff-match-patch package exports; the code only compares with them. *)
Variables DIFF_DELETE DIFF_INSERT DIFF_EQUAL : Z.

(** The loop of [convertDiffsToRecords], from the positions reached in the
    two texts. *)
Fixpoint convertDiffsFrom (position1 position2 : nat)
    (diffs : list (Z * jsstring)) : list DiffRecord :=
  match diffs with
  | [] => []
  | (operation, text) :: rest =>
      if (operation =? DIFF_EQUAL)%Z then
        convertDiffsFrom (position1 + length text) (position2 + length text)
          rest
      else if (operation =? DIFF_DELETE)%Z then
        {| position := position1; type := Diff.delete; content := text;
           originalContent := None |}
        :: convertDiffsFrom (position1 + length text) position2 rest
      else if (operation =? DIFF_INSERT)%Z then
        {| position := position1; type := Diff.add; content := text;
           originalContent := None |}
        :: convertDiffsFrom position1 (position2 + length text) rest
      else convertDiffsFrom position1 position2 rest
  end.

Definition convertDiffsToRecords (diffs : list (Z * jsstring))
    : list DiffRecord :=
  convertDiffsFrom 0 0 diffs.

(** [calculateEditDistance(diffs)]. *)
Definition calculateEditDistance (diffs : list (Z * jsstring)) : nat :=
  foldl (λ distance '(operation, text),
           if negb (operation =? DIFF_EQUAL)%Z then distance + length text
           else distance)
    0 diffs.

(** The first text as a list of diffs describes it: the pieces that are
    equal or deleted, in order. *)
Definition sourceOf (diffs : list (Z * jsstring)) : jsstring :=
  diffs ≫= (λ '(operation, text),
              if ((operation =? DIFF_EQUAL) || (operation =? DIFF_DELETE))%Z
              then text else []).

(** A record of [convertDiffsToRecords] that is rooted in the text
    [source]: a delete carries the slice of [source] at its position, an
    add stands at a position of [source] or right after its end. *)
Definition rooted (source : jsstring) (r : DiffRecord) : Prop :=
  originalContent r = None
  ∧ match type r with
    | Diff.delete =>
        take (length (content r)) (drop (position r) source) = content r
        ∧ position r + length (content r) ≤ length source
    | Diff.add => position r ≤ length source
    | Diff.modify => False
    end.

End Tags.

(** [Math.abs(a - b) <= 5] on positions. *)
Definition near (a b : nat) : bool := (a - b <=? 5) && (b - a <=? 5).

(** The inner loop of [calculateDiffStats]: the first index [j], other
    than [i] and not processed, of a delete within five positions of
    [diff]; [None] when [adjacentDeleteIndex] stays [-1]. [rest] is
    [sortedDiffs] from index [j] on. *)
Fixpoint findAdjacentDelete (processedIndices : gset nat) (i : nat)
    (diff : DiffRecord) (j : nat) (rest : list DiffRecord) : option nat :=
  match rest with
  | [] => None
  | candidate :: rest' =>
      if bool_decide (i ≠ j) && bool_decide (j ∉ processedIndices)
         && bool_decide (type candidate = Diff.delete)
         && near (position candidate) (position diff)
      then Some j
      else findAdjacentDelete processedIndices i diff (S j) rest'
  end.

(** The counters and the set of processed indices. *)
Record Tally := {
  tally_additions : nat;
  tally_deletions : nat;
  tally_modifications : nat;
  processedIndices : gset nat
}.

(** The body of the outer loop at index [i]. *)
Definition tallyStep (sortedDiffs : list DiffRecord) (t : Tally) (i : nat)
    (diff : DiffRecord) : Tally :=
  if bool_decide (i ∈ processedIndices t) then t
  else
    match type diff with
    | Diff.add =>
        match
          findAdjacentDelete (processedIndices t) i diff 0 sortedDiffs
        with
        | Some adjacentDeleteIndex =>
            {| tally_additions := tally_additions t;
               tally_deletions := tally_deletions t;
               tally_modifications := tally_modifications t + 1;
               processedIndices :=
                 {[adjacentDeleteIndex]} ∪ ({[i]} ∪ processedIndices t) |}
        | None =>
            {| tally_additions := tally_additions t + 1;
               tally_deletions := tally_deletions t;
               tally_modifications := tally_modifications t;
               processedIndices := processedIndices t |}
        end
    | Diff.delete =>
        {| tally_additions := tally_additions t;
           tally_deletions := tally_deletions t + 1;
           tally_modifications := tally_modifications t;
           processedIndices := {[i]} ∪ processedIndices t |}
    | Diff.modify => t
    end.

(** The outer loop from index [i] on; [rest] is [sortedDiffs] from there. *)
Fixpoint tallyLoop (sortedDiffs : list DiffRecord) (i : nat)
    (rest : list DiffRecord) (t : Tally) : Tally :=
  match rest with
  | [] => t
  | diff :: rest' =>
      tallyLoop sortedDiffs (S i) rest' (tallyStep sortedDiffs t i diff)
  end.

(** [calculateDiffStats] of the variant: an add and a delete within five
    positions of each other count as one modification. *)
Definition calculateDiffStats (diffResult : DiffResult) : DiffStats :=
  let sortedDiffs := sortByPosition (diffs diffResult) in
  let t :=
    tallyLoop sortedDiffs 0 sortedDiffs
      {| tally_additions := 0; tally_deletions := 0;
         tally_modifications := 0; processedIndices := ∅ |} in
  {| additions := 0 `max` tally_additions t;
     deletions := 0 `max` tally_deletions t;
     modifications := 0 `max` tally_modifications t;
     stats_similarity := similarity diffResult |}.

(** The deletes of [rest], which starts at index [j], that are not
    processed yet. *)
Fixpoint pending (processed : gset nat) (j : nat) (rest : list DiffRecord)
    : nat :=
  match rest with
  | [] => 0
  | r :: rest' =>
      (if bool_decide ((j ∉ processed) ∧ type r = Diff.delete)
       then 1 else 0)
      + pending processed (S j) rest'
  end.

(** What the outer loop keeps, once the records [visited] are behind it. *)
Definition tallied (sortedDiffs visited : list DiffRecord) (t : Tally)
    : Prop :=
  (∀ k r, visited !! k = Some r → type r = Diff.delete →
          k ∈ processedIndices t)
  ∧ (∀ k r, k ∈ processedIndices t → sortedDiffs !! k = Some r →
            type r = Diff.add → k < length visited)
  ∧ tally_additions t + tally_modifications t
    = length (filter (λ r, type r = Diff.add) visited)
  ∧ tally_deletions t + tally_modifications t
    + pending (processedIndices t) 0 sortedDiffs
    = length (filter (λ r, type r = Diff.delete) sortedDiffs).

End Dmp.

(** ** The viewer and the HTML export *)

Definition CHAR_AMP : N := 38.
Definition CHAR_QUOT : N := 34.
Definition CHAR_APOS : N := 39.
Definition CHAR_LT : N := 60.
Definition CHAR_GT : N := 62.

(** [text.replace(/c/g, s)] for a single code unit [c] and a string [s]. *)
Definition replace_unit (c : N) (s : jsstring) (text : jsstring)
    : jsstring :=
  text ≫= (λ x, if (x =? c)%N then s else [x]).

(** [escapeHtml]. *)
Definition escapeHtml (text : jsstring) : jsstring :=
  replace_unit CHAR_APOS (js "&#39;")
    (replace_unit CHAR_QUOT (js "&quot;")
       (replace_unit CHAR_GT (js "&gt;")
          (replace_unit CHAR_LT (js "&lt;")
             (replace_unit CHAR_AMP (js "&amp;") text)))).

(** The entity that stands for a unit, or the unit itself. *)
Definition escape_unit (c : N) : jsstring :=
  if (c =? CHAR_AMP)%N then js "&amp;"
  else if (c =? CHAR_LT)%N then js "&lt;"
  else if (c =? CHAR_GT)%N then js "&gt;"
  else if (c =? CHAR_QUOT)%N then js "&quot;"
  else if (c =? CHAR_APOS)%N then js "&#39;"
  else [c].

Module Segment.
Inductive type := normal | deleted | added | modified.
End Segment.

#[global] Instance Segment_type_eq_dec : EqDecision Segment.type.
Proof. solve_decision. Defined.

Record Segment := { seg_content : jsstring; seg_type : Segment.type }.

Module Mode.
Inductive type := original | modified.
End Mode.

#[global] Instance Mode_type_eq_dec : EqDecision Mode.type.
Proof. solve_decision. Defined.

(** [text.slice(from, to)] for [0 <= from <= to], and [text.slice(from)]. *)
Definition slice (text : jsstring) (from to : nat) : jsstring :=
  take (to - from) (drop from text).

(** [if (normalText) segments.push({ content: normalText, type: 'normal'
    })]: an empty string is falsy. *)
Definition pushNormal (normalText : jsstring) (segments : list Segment)
    : list Segment :=
  if bool_decide (normalText ≠ [])
  then segments ++ [{| seg_content := normalText;
                       seg_type := Segment.normal |}]
  else segments.

(** The body of the loop of [processTextWithDiffs]. *)
Definition processStep (text : jsstring) (mode : Mode.type)
    (st : list Segment * nat) (diff : DiffRecord) : list Segment * nat :=
  let '(segments, currentIndex) := st in
  let segments :=
    if currentIndex <? position diff
    then pushNormal (slice text currentIndex (position diff)) segments
    else segments in
  let segments :=
    if bool_decide (mode = Mode.original)
       && bool_decide (type diff = Diff.delete)
    then segments ++ [{| seg_content := content diff;
                         seg_type := Segment.deleted |}]
    else if bool_decide (mode = Mode.modified)
            && bool_decide (type diff = Diff.add)
    then segments ++ [{| seg_content := content diff;
                         seg_type := Segment.added |}]
    else if bool_decide (type diff = Diff.modify)
    then
      if bool_decide (mode = Mode.original)
      then segments ++ [{| seg_content := or_empty (originalContent diff);
                           seg_type := Segment.modified |}]
      else segments ++ [{| seg_content := content diff;
                           seg_type := Segment.modified |}]
    else segments in
  let currentIndex :=
    position diff
    + (if bool_decide (mode = Mode.original)
       then if bool_decide (type diff = Diff.delete)
            then length (content diff) else 0
       else if bool_decide (type diff = Diff.add)
            then length (content diff) else 0) in
  (segments, currentIndex).

(** [processTextWithDiffs] of the viewer. *)
Definition processTextWithDiffs (text : jsstring) (diffs : list DiffRecord)
    (mode : Mode.type) : list Segment :=
  let sortedDiffs := sortByPosition diffs in
  let '(segments, currentIndex) :=
    foldl (processStep text mode) ([], 0) sortedDiffs in
  if currentIndex <? length text
  then pushNormal (drop currentIndex text) segments
  else segments.

(** The text that a list of segments shows. *)
Definition shown (segments : list Segment) : jsstring :=
  concat (seg_content <$> segments).

(** Records that the viewer can lay over [text] in the original mode, read
    from the index [cur] on: no record starts before the end of the one
    before it, none is a modify, and a delete carries the slice of [text]
    at its position. *)
Fixpoint laid_over (text : jsstring) (cur : nat) (records : list DiffRecord)
    : Prop :=
  match records with
  | [] => True
  | r :: rest =>
      cur ≤ position r
      ∧ match type r with
        | Diff.delete =>
            slice text (position r) (position r + length (content r))
            = content r
            ∧ laid_over text (position r + length (content r)) rest
        | Diff.add => laid_over text (position r) rest
        | Diff.modify => False
        end
  end.

(** The contents of the segments marked as deleted. *)
Definition deletedOf (segments : list Segment) : list jsstring :=
  seg_content <$> filter (λ s, seg_type s = Segment.deleted) segments.

Section Matrix.

Lemma well_sized_lookup dp m n i :
  well_sized dp m n → i ≤ m → ∃ row, dp !! i = Some row ∧ length row = S n.
Proof.
  intros [Hlen Hrows] Hi.
  destruct (lookup_lt_is_Some_2 dp i) as [row Hrow]; [lia|].
  exists row. split; [done|]. by eapply Hrows.
Qed.

Lemma get_set_eq dp m n i j v :
  well_sized dp m n → i ≤ m → j ≤ n → get (set dp i j v) i j = v.
Proof.
  intros Hws Hi Hj.
  destruct (well_sized_lookup dp m n i Hws Hi) as (row & Hrow & Hlen).
  unfold get, set. rewrite list_lookup_alter_eq, Hrow. simpl.
  rewrite list_lookup_insert_eq by lia. done.
Qed.

Lemma get_set_ne dp i j v i' j' :
  ¬ (i = i' ∧ j = j') → get (set dp i j v) i' j' = get dp i' j'.
Proof.
  intros Hne. unfold get, set.
  destruct (decide (i = i')) as [<-|Hi].
  - rewrite list_lookup_alter_eq.
    destruct (dp !! i) as [row|]; simpl; [|done].
    rewrite list_lookup_insert_ne; [done|]. intros ->. by apply Hne.
  - by rewrite list_lookup_alter_ne.
Qed.

Lemma set_well_sized dp m n i j v :
  well_sized dp m n → well_sized (set dp i j v) m n.
Proof.
  intros [Hlen Hrows]. unfold set. split.
  - by rewrite length_alter.
  - intros i' row Hrow.
    destruct (decide (i = i')) as [<-|Hi].
    + rewrite list_lookup_alter_eq in Hrow.
      destruct (dp !! i) as [row0|] eqn:Hrow0; simplify_eq/=.
      rewrite length_insert. by eapply Hrows.
    + rewrite list_lookup_alter_ne in Hrow by done. by eapply Hrows.
Qed.

Lemma newMatrix_well_sized m n : well_sized (newMatrix m n) m n.
Proof.
  unfold newMatrix. split.
  - rewrite length_replicate. lia.
  - intros i row Hrow. apply lookup_replicate in Hrow as [-> _].
    rewrite length_replicate. lia.
Qed.

Lemma lev_cell_0_r s t i : lev_cell s t i 0 = i.
Proof. by destruct i. Qed.

Lemma lev_cell_S_S s t i j :
  lev_cell s t (S i) (S j) =
    if elem_eqb (s !! i) (t !! j) then lev_cell s t i j
    else S ((lev_cell s t i (S j) `min` lev_cell s t (S i) j)
              `min` lev_cell s t i j).
Proof. reflexivity. Qed.

Lemma initFirstColumn_spec m n dp k :
  well_sized dp m n → k ≤ S m →
  well_sized (foldl (λ dp i, set dp i 0 i) dp (seq 0 k)) m n ∧
  ∀ i j, get (foldl (λ dp i, set dp i 0 i) dp (seq 0 k)) i j =
           if decide (i < k ∧ j = 0) then i else get dp i j.
Proof.
  intros Hws. induction k as [|k IH]; intros Hk.
  - split; [done|]. intros i j. rewrite decide_False by lia. done.
  - rewrite seq_S, foldl_app. cbn [foldl].
    destruct IH as [Hws' Hget]; [lia|]. split.
    + by apply set_well_sized.
    + intros i j. destruct (decide (k = i ∧ 0 = j)) as [[<- <-]|Hne].
      * rewrite (get_set_eq _ m n) by (done || lia).
        case_decide; [done|lia].
      * rewrite get_set_ne by done.
        rewrite Hget. repeat case_decide; done || lia.
Qed.

Lemma initFirstRow_spec m n dp k :
  well_sized dp m n → k ≤ S n →
  well_sized (foldl (λ dp j, set dp 0 j j) dp (seq 0 k)) m n ∧
  ∀ i j, get (foldl (λ dp j, set dp 0 j j) dp (seq 0 k)) i j =
           if decide (i = 0 ∧ j < k) then j else get dp i j.
Proof.
  intros Hws. induction k as [|k IH]; intros Hk.
  - split; [done|]. intros i j. rewrite decide_False by lia. done.
  - rewrite seq_S, foldl_app. cbn [foldl].
    destruct IH as [Hws' Hget]; [lia|]. split.
    + by apply set_well_sized.
    + intros i j. destruct (decide (0 = i ∧ k = j)) as [[<- <-]|Hne].
      * rewrite (get_set_eq _ m n) by (done || lia).
        case_decide; [done|lia].
      * rewrite get_set_ne by done.
        rewrite Hget. repeat case_decide; done || lia.
Qed.

Lemma init_filled str1 str2 m n :
  filled_upto str1 str2 m n
    (initFirstRow n (initFirstColumn m (newMatrix m n))) 0 n.
Proof.
  unfold initFirstRow, initFirstColumn.
  destruct (initFirstColumn_spec m n (newMatrix m n) (m + 1))
    as [Hws1 Hget1]; [apply newMatrix_well_sized|lia|].
  destruct (initFirstRow_spec m n _ (n + 1) Hws1) as [Hws2 Hget2]; [lia|].
  split; [done|]. intros i j Hi Hj Hcase.
  rewrite Hget2, Hget1.
  destruct i as [|i].
  - rewrite decide_True by lia. done.
  - rewrite decide_False by lia.
    destruct j as [|j]; [|lia].
    rewrite decide_True by lia. done.
Qed.

Lemma cellValue_lev str1 str2 m n dp i j :
  filled_upto str1 str2 m n dp (S i) j → S i ≤ m → S j ≤ n →
  cellValue str1 str2 dp (S i) (S j) = lev_cell str1 str2 (S i) (S j).
Proof.
  intros [_ Hget] Hi Hj. unfold cellValue. rewrite lev_cell_S_S.
  replace (S i - 1) with i by lia. replace (S j - 1) with j by lia.
  rewrite !Hget by lia. case (elem_eqb _ _); lia.
Qed.

Lemma fillCell_filled str1 str2 m n dp i j :
  filled_upto str1 str2 m n dp (S i) j → S i ≤ m → S j ≤ n →
  filled_upto str1 str2 m n
    (set dp (S i) (S j) (cellValue str1 str2 dp (S i) (S j))) (S i) (S j).
Proof.
  intros Hf Hi Hj. pose proof (cellValue_lev _ _ _ _ _ _ _ Hf Hi Hj) as Hv.
  destruct Hf as [Hws Hget]. split; [by apply set_well_sized|].
  intros i' j' Hi' Hj' Hcase.
  destruct (decide (S i = i' ∧ S j = j')) as [[<- <-]|Hne].
  - by rewrite (get_set_eq _ m n).
  - rewrite get_set_ne by done.
    apply Hget; lia.
Qed.

Lemma fillRow_filled_upto str1 str2 m n dp i c :
  filled_upto str1 str2 m n dp (S i) 0 → S i ≤ m → c ≤ n →
  filled_upto str1 str2 m n
    (foldl (λ dp j, set dp (S i) j (cellValue str1 str2 dp (S i) j))
       dp (seq 1 c)) (S i) c.
Proof.
  intros Hf Hi. induction c as [|c IH]; intros Hc; [done|].
  rewrite seq_S, foldl_app. simpl.
  apply fillCell_filled; [apply IH|..]; lia.
Qed.

Lemma fillRow_filled str1 str2 m n dp i :
  filled_upto str1 str2 m n dp i n → S i ≤ m →
  filled_upto str1 str2 m n (fillRow str1 str2 n dp (S i)) (S i) n.
Proof.
  intros [Hws Hget] Hi. apply fillRow_filled_upto; [|done..].
  split; [done|]. intros i' j' ? ? ?. apply Hget; lia.
Qed.

Lemma fillRows_filled str1 str2 m n k dp :
  filled_upto str1 str2 m n dp 0 n → k ≤ m →
  filled_upto str1 str2 m n
    (foldl (fillRow str1 str2 n) dp (seq 1 k)) k n.
Proof.
  intros Hf. induction k as [|k IH]; intros Hk; [done|].
  rewrite seq_S, foldl_app. simpl.
  apply fillRow_filled; [apply IH|]; lia.
Qed.

Lemma filledMatrix_filled str1 str2 :
  filled_upto str1 str2 (length str1) (length str2)
    (filledMatrix str1 str2) (length str1) (length str2).
Proof. apply fillRows_filled; [apply init_filled|done]. Qed.

Lemma filledMatrix_get str1 str2 i j :
  i ≤ length str1 → j ≤ length str2 →
  get (filledMatrix str1 str2) i j = lev_cell str1 str2 i j.
Proof.
  intros Hi Hj. destruct (filledMatrix_filled str1 str2) as [_ Hget].
  apply Hget; [done..|]. lia.
Qed.

Lemma fillRows_within_budget now timeout str1 str2 n rows dp m :
  within_budget now timeout m → (∀ i, i ∈ rows → 1 ≤ i ≤ m) →
  fillRows now timeout str1 str2 n rows dp =
    Returns (foldl (fillRow str1 str2 n) dp rows).
Proof.
  intros Hb. revert dp. induction rows as [|i rows IH]; intros dp Hrows.
  - done.
  - simpl. rewrite (proj2 (Z.ltb_ge _ _)).
    + apply IH. intros i' Hi'. apply Hrows. by right.
    + apply Hb, Hrows. by left.
Qed.

Lemma fillMatrix_within_budget now timeout str1 str2 :
  within_budget now timeout (length str1) →
  fillMatrix now timeout str1 str2 = Returns (filledMatrix str1 str2).
Proof.
  intros Hb. unfold fillMatrix, filledMatrix.
  apply (fillRows_within_budget _ _ _ _ _ _ _ _ Hb).
  intros i Hi%elem_of_seq. lia.
Qed.

Lemma fillRows_outcome now timeout str1 str2 n rows dp :
  fillRows now timeout str1 str2 n rows dp =
    Returns (foldl (fillRow str1 str2 n) dp rows) ∨
  fillRows now timeout str1 str2 n rows dp = Throws LevenshteinTimeout.
Proof.
  revert dp. induction rows as [|i rows IH]; intros dp; simpl; [by left|].
  case (_ <? _)%Z; [by right|apply IH].
Qed.

Lemma fillMatrix_outcome now timeout str1 str2 :
  fillMatrix now timeout str1 str2 = Returns (filledMatrix str1 str2) ∨
  fillMatrix now timeout str1 str2 = Throws LevenshteinTimeout.
Proof. apply fillRows_outcome. Qed.

End Matrix.

(** ** Edit scripts and the reference matrix *)

Section EditCost.
Context {A : Type}.
Implicit Types (s t u : list A) (x y : A) (k : nat).

Lemma edit_cost_refl s : edit_cost s s 0.
Proof. induction s; by constructor. Qed.

Lemma edit_cost_snoc_keep s t k x :
  edit_cost s t k → edit_cost (s ++ [x]) (t ++ [x]) k.
Proof.
  induction 1; simpl; try by constructor.
  apply edit_keep, edit_nil.
Qed.

Lemma edit_cost_snoc_replace s t k x y :
  edit_cost s t k → edit_cost (s ++ [x]) (t ++ [y]) (S k).
Proof.
  induction 1; simpl; try by constructor.
  apply edit_replace, edit_nil.
Qed.

Lemma edit_cost_snoc_delete s t k x :
  edit_cost s t k → edit_cost (s ++ [x]) t (S k).
Proof.
  induction 1; simpl; try by constructor.
  apply edit_delete, edit_nil.
Qed.

Lemma edit_cost_snoc_insert s t k y :
  edit_cost s t k → edit_cost s (t ++ [y]) (S k).
Proof.
  induction 1; simpl; try by constructor.
  apply edit_insert, edit_nil.
Qed.

Lemma edit_cost_reverse s t k :
  edit_cost s t k → edit_cost (reverse s) (reverse t) k.
Proof.
  induction 1; rewrite ?reverse_cons.
  - constructor.
  - by apply edit_cost_snoc_keep.
  - by apply edit_cost_snoc_replace.
  - by apply edit_cost_snoc_delete.
  - by apply edit_cost_snoc_insert.
Qed.

(** Two scripts in a row are worth one script that costs no more. *)
Lemma edit_cost_trans s u t a b :
  edit_cost s u a → edit_cost u t b →
  ∃ c, c ≤ a + b ∧ edit_cost s t c.
Proof.
  intros D1. revert t b.
  induction D1 as [|x s u a D1 IH|x y s u a D1 IH|x s u a D1 IH
                  |y s u a D1 IH]; intros t b D2.
  - eauto.
  - remember (x :: u) as u0 eqn:Hu0.
    induction D2 as [|x' u1 t b D2 _|x' z u1 t b D2 _|x' u1 t b D2 _
                    |z u1 t b D2 IH2]; simplify_eq.
    + destruct (IH _ _ D2) as (c & ? & ?).
      exists c. split; [lia|by constructor].
    + destruct (IH _ _ D2) as (c & ? & ?).
      exists (S c). split; [lia|by constructor].
    + destruct (IH _ _ D2) as (c & ? & ?).
      exists (S c). split; [lia|by constructor].
    + destruct (IH2 eq_refl) as (c & ? & ?).
      exists (S c). split; [lia|by constructor].
  - remember (y :: u) as u0 eqn:Hu0.
    induction D2 as [|x' u1 t b D2 _|x' z u1 t b D2 _|x' u1 t b D2 _
                    |z u1 t b D2 IH2]; simplify_eq.
    + destruct (IH _ _ D2) as (c & ? & ?).
      exists (S c). split; [lia|by constructor].
    + destruct (IH _ _ D2) as (c & ? & ?).
      exists (S c). split; [lia|by constructor].
    + destruct (IH _ _ D2) as (c & ? & ?).
      exists (S c). split; [lia|by constructor].
    + destruct (IH2 eq_refl) as (c & ? & ?).
      exists (S c). split; [lia|by constructor].
  - destruct (IH _ _ D2) as (c & ? & ?).
    exists (S c). split; [lia|by constructor].
  - remember (y :: u) as u0 eqn:Hu0.
    induction D2 as [|x' u1 t b D2 _|x' z u1 t b D2 _|x' u1 t b D2 _
                    |z u1 t b D2 IH2]; simplify_eq.
    + destruct (IH _ _ D2) as (c & ? & ?).
      exists (S c). split; [lia|by constructor].
    + destruct (IH _ _ D2) as (c & ? & ?).
      exists (S c). split; [lia|by constructor].
    + destruct (IH _ _ D2) as (c & ? & ?).
      exists c. split; [lia|done].
    + destruct (IH2 eq_refl) as (c & ? & ?).
      exists (S c). split; [lia|by constructor].
Qed.

Lemma edit_cost_app_l l s t k :
  edit_cost s t k → edit_cost (l ++ s) (l ++ t) k.
Proof. intros D. induction l; simpl; [done|by constructor]. Qed.

Lemma one_edit_cost s u : one_edit s u → edit_cost s u 1.
Proof.
  destruct 1; apply edit_cost_app_l.
  - apply edit_insert, edit_cost_refl.
  - apply edit_delete, edit_cost_refl.
  - apply edit_replace, edit_cost_refl.
Qed.

Lemma one_edit_cons x s u : one_edit s u → one_edit (x :: s) (x :: u).
Proof.
  destruct 1 as [l y r|l y r|l y z r].
  - apply (one_insert (x :: l)).
  - apply (one_delete (x :: l)).
  - apply (one_replace (x :: l)).
Qed.

Lemma edits_cons x s t k : edits s t k → edits (x :: s) (x :: t) k.
Proof.
  induction 1 as [|s u t k Hone _ IH]; [constructor|].
  eapply edits_step; [by apply one_edit_cons|done].
Qed.

(** A script is a chain of as many single edits. *)
Lemma edit_cost_edits s t k : edit_cost s t k → edits s t k.
Proof.
  induction 1 as [|x s t k _ IH|x y s t k _ IH|x s t k _ IH|y s t k _ IH].
  - constructor.
  - by apply edits_cons.
  - eapply edits_step; [apply (one_replace [] x y)|by apply edits_cons].
  - eapply edits_step; [apply (one_delete [] x)|done].
  - eapply edits_step; [apply (one_insert [] y)|by apply edits_cons].
Qed.

(** A chain of single edits is worth a script that costs no more. *)
Lemma edits_edit_cost s t k :
  edits s t k → ∃ c, c ≤ k ∧ edit_cost s t c.
Proof.
  induction 1 as [s|s u t k Hone _ (c & Hc & D)].
  - exists 0. split; [done|apply edit_cost_refl].
  - destruct (edit_cost_trans _ _ _ _ _ (one_edit_cost _ _ Hone) D)
      as (c' & ? & ?).
    exists c'. split; [lia|done].
Qed.

End EditCost.

Section Reference.
Variables source target : list jsstring.

Local Abbreviation lev := (lev_cell source target).

Lemma elem_eqb_true (a b : option jsstring) : elem_eqb a b = true ↔ a = b.
Proof. unfold elem_eqb. apply bool_decide_eq_true. Qed.

Lemma elem_eqb_false (a b : option jsstring) : elem_eqb a b = false ↔ a ≠ b.
Proof. unfold elem_eqb. apply bool_decide_eq_false. Qed.

(** Neighbouring cells differ by at most one, along a row and along a
    column. *)
Lemma lev_cell_neighbours i j :
  (lev i (S j) ≤ S (lev i j) ∧ lev i j ≤ S (lev i (S j))) ∧
  (lev (S i) j ≤ S (lev i j) ∧ lev i j ≤ S (lev (S i) j)).
Proof.
  revert j. induction i as [|i IHi].
  - assert (∀ j, lev 1 j ≤ S j ∧ j ≤ S (lev 1 j)) as Hcol.
    { induction j as [|j IHj]; [simpl; lia|].
      rewrite lev_cell_S_S. simpl (lev 0 _).
      destruct (elem_eqb _ _); lia. }
    intros j. split; [simpl; lia|apply Hcol].
  - assert (∀ j, lev (S (S i)) j ≤ S (lev (S i) j)
                 ∧ lev (S i) j ≤ S (lev (S (S i)) j)) as Hcol.
    { induction j as [|j IHj]; [simpl; lia|].
      rewrite (lev_cell_S_S _ _ (S i) j).
      destruct (IHi (S j)) as [_ ?]. destruct (IHi j) as [? ?].
      pose proof (lev_cell_S_S source target i j) as Hd.
      destruct (elem_eqb (source !! S i) _);
        destruct (elem_eqb (source !! i) _); lia. }
    intros j. split; [|apply Hcol].
    rewrite (lev_cell_S_S _ _ i j).
    destruct (IHi j) as [? ?]. destruct (IHi (S j)) as [_ ?].
    destruct (elem_eqb _ _); lia.
Qed.

Lemma lev_cell_right i j : lev i (S j) ≤ S (lev i j).
Proof. apply lev_cell_neighbours. Qed.

Lemma lev_cell_down i j : lev (S i) j ≤ S (lev i j).
Proof. apply lev_cell_neighbours. Qed.

Lemma lev_cell_diag i j : lev (S i) (S j) ≤ S (lev i j).
Proof.
  rewrite lev_cell_S_S. destruct (elem_eqb _ _); lia.
Qed.

(** The cell [(i, j)] is the cost of a script between the prefixes. *)
Lemma lev_cell_edit_cost i j :
  i ≤ length source → j ≤ length target →
  edit_cost (take i source) (take j target) (lev i j).
Proof.
  revert j. induction i as [|i IHi].
  - intros j _. induction j as [|j IHj]; intros Hj; [constructor|].
    destruct (lookup_lt_is_Some_2 target j) as [y Hy]; [lia|].
    rewrite (take_S_r _ _ _ Hy). simpl in *.
    apply edit_cost_snoc_insert, IHj. lia.
  - intros j Hi.
    destruct (lookup_lt_is_Some_2 source i) as [x Hx]; [lia|].
    induction j as [|j IHj]; intros Hj.
    + rewrite lev_cell_0_r, (take_S_r _ _ _ Hx).
      specialize (IHi 0). rewrite lev_cell_0_r in IHi.
      apply edit_cost_snoc_delete, IHi; lia.
    + destruct (lookup_lt_is_Some_2 target j) as [y Hy]; [lia|].
      rewrite lev_cell_S_S.
      destruct (elem_eqb _ _) eqn:Heq.
      * apply elem_eqb_true in Heq. rewrite Hx, Hy in Heq. simplify_eq.
        rewrite (take_S_r _ _ _ Hx), (take_S_r _ _ _ Hy).
        apply edit_cost_snoc_keep, IHi; lia.
      * destruct (Nat.min_spec (lev i (S j) `min` lev (S i) j) (lev i j))
          as [[_ ->]|[_ ->]];
          [destruct (Nat.min_spec (lev i (S j)) (lev (S i) j))
             as [[_ ->]|[_ ->]]|].
        -- rewrite (take_S_r _ _ _ Hx).
           apply edit_cost_snoc_delete, IHi; lia.
        -- rewrite (take_S_r _ _ _ Hy).
           apply edit_cost_snoc_insert, IHj; lia.
        -- rewrite (take_S_r _ _ _ Hx), (take_S_r _ _ _ Hy).
           apply edit_cost_snoc_replace, IHi; lia.
Qed.

Lemma reverse_take_cons (l : list jsstring) i x r :
  i ≤ length l → reverse (take i l) = x :: r →
  ∃ i', i = S i' ∧ l !! i' = Some x ∧ r = reverse (take i' l).
Proof.
  intros Hi Hrev. destruct i as [|i]; [done|].
  destruct (lookup_lt_is_Some_2 l i) as [y Hy]; [lia|].
  rewrite (take_S_r _ _ _ Hy), reverse_snoc in Hrev. simplify_eq.
  eauto.
Qed.

Lemma reverse_take_nil (l : list jsstring) i :
  i ≤ length l → reverse (take i l) = [] → i = 0.
Proof.
  intros Hi Hrev. destruct i as [|i]; [done|].
  destruct (lookup_lt_is_Some_2 l i) as [y Hy]; [lia|].
  by rewrite (take_S_r _ _ _ Hy), reverse_snoc in Hrev.
Qed.

(** No script between the prefixes costs less than the cell. *)
Lemma lev_cell_least_reversed s t k :
  edit_cost s t k → ∀ i j,
  i ≤ length source → j ≤ length target →
  s = reverse (take i source) → t = reverse (take j target) →
  lev i j ≤ k.
Proof.
  induction 1 as [|x s t k _ IH|x y s t k _ IH|x s t k _ IH|y s t k _ IH];
    intros i j Hi Hj Hs Ht.
  - symmetry in Hs, Ht.
    apply reverse_take_nil in Hs; [|done].
    apply reverse_take_nil in Ht; [|done]. by subst.
  - symmetry in Hs, Ht.
    apply reverse_take_cons in Hs as (i' & -> & Hx & ->); [|done].
    apply reverse_take_cons in Ht as (j' & -> & Hy & ->); [|done].
    rewrite lev_cell_S_S.
    rewrite (proj2 (elem_eqb_true _ _)) by congruence.
    apply IH; done || lia.
  - symmetry in Hs, Ht.
    apply reverse_take_cons in Hs as (i' & -> & Hx & ->); [|done].
    apply reverse_take_cons in Ht as (j' & -> & Hy & ->); [|done].
    pose proof (lev_cell_diag i' j').
    specialize (IH i' j' ltac:(lia) ltac:(lia) eq_refl eq_refl). lia.
  - symmetry in Hs.
    apply reverse_take_cons in Hs as (i' & -> & Hx & ->); [|done].
    pose proof (lev_cell_down i' j).
    specialize (IH i' j ltac:(lia) ltac:(lia) eq_refl Ht). lia.
  - symmetry in Ht.
    apply reverse_take_cons in Ht as (j' & -> & Hy & ->); [|done].
    pose proof (lev_cell_right i j').
    specialize (IH i j' ltac:(lia) ltac:(lia) Hs eq_refl). lia.
Qed.

Lemma lev_cell_least k :
  edit_cost source target k → lev (length source) (length target) ≤ k.
Proof.
  intros D%edit_cost_reverse.
  eapply lev_cell_least_reversed; [done|done|done|..];
    by rewrite firstn_all.
Qed.

(** The last cell of the reference matrix is the minimum number of single
    edits that turn [source] into [target]. *)
Lemma lev_cell_minimum :
  minimum_edits source target (lev (length source) (length target)).
Proof.
  split.
  - apply edit_cost_edits.
    pose proof (lev_cell_edit_cost (length source) (length target)) as D.
    rewrite !firstn_all in D. by apply D.
  - intros k (c & Hc & D)%edits_edit_cost.
    apply lev_cell_least in D. lia.
Qed.

End Reference.

(** ** The backtrace *)

Section Backtrace.
Variables (dp : matrix) (str1 str2 : list jsstring).

(** The four ways an iteration of the backtrace moves. *)
Lemma backtraceStep_inv i j o i' j' :
  backtraceStep dp str1 str2 i j = Some (o, i', j') →
  (∃ i0 j0, i = S i0 ∧ j = S j0 ∧ i' = i0 ∧ j' = j0 ∧ o = None
            ∧ str1 !! i0 = str2 !! j0) ∨
  (∃ i0 j0, i = S i0 ∧ j = S j0 ∧ i' = i0 ∧ j' = j0
            ∧ str1 !! i0 ≠ str2 !! j0
            ∧ get dp i j = S (get dp i0 j0)
            ∧ o = Some {| op_type := Op.replace; op_position := i0;
                          oldChar := str1 !! i0;
                          newChar := str2 !! j0 |}) ∨
  (∃ i0, i = S i0 ∧ i' = i0 ∧ j' = j
         ∧ get dp i j = S (get dp i0 j)
         ∧ o = Some {| op_type := Op.delete; op_position := i0;
                       oldChar := str1 !! i0; newChar := None |}) ∨
  (∃ j0, j = S j0 ∧ i' = i ∧ j' = j0
         ∧ get dp i j = S (get dp i j0)
         ∧ o = Some {| op_type := Op.insert; op_position := i;
                       oldChar := None; newChar := str2 !! j0 |}).
Proof.
  unfold backtraceStep. intros Hstep.
  destruct i as [|i0], j as [|j0]; simpl in Hstep;
    rewrite ?Nat.sub_0_r in Hstep.
  - done.
  - destruct (_ =? _) eqn:Hins in Hstep; [|done].
    apply Nat.eqb_eq in Hins. injection Hstep as <- <- <-.
    do 3 right. exists j0. repeat split; done || lia.
  - destruct (_ =? _) eqn:Hdel in Hstep; [|done].
    apply Nat.eqb_eq in Hdel. injection Hstep as <- <- <-.
    do 2 right. left. exists i0. repeat split; done || lia.
  - destruct (elem_eqb _ _) eqn:Heq in Hstep.
    { apply elem_eqb_true in Heq. injection Hstep as <- <- <-.
      left. by exists i0, j0. }
    apply elem_eqb_false in Heq.
    destruct (_ =? _) eqn:Hrep in Hstep.
    { apply Nat.eqb_eq in Hrep. injection Hstep as <- <- <-.
      right. left. exists i0, j0. repeat split; done || lia. }
    destruct (_ =? _) eqn:Hdel in Hstep.
    { apply Nat.eqb_eq in Hdel. injection Hstep as <- <- <-.
      do 2 right. left. exists i0. repeat split; done || lia. }
    destruct (_ =? _) eqn:Hins in Hstep; [|done].
    apply Nat.eqb_eq in Hins. injection Hstep as <- <- <-.
    do 3 right. exists j0. repeat split; done || lia.
Qed.

Lemma backtraceStep_decreases i j o i' j' :
  backtraceStep dp str1 str2 i j = Some (o, i', j') →
  i' ≤ i ∧ j' ≤ j ∧ i' + j' < i + j.
Proof.
  intros [H|[H|[H|H]]]%backtraceStep_inv; destruct_and?;
    repeat match goal with H : ∃ _, _ |- _ => destruct H end;
    destruct_and?; lia.
Qed.

(** A property of the position and of the operations emitted so far, read
    in document order, that every iteration preserves holds when the loop
    ends. *)
Lemma backtrace_invariant (Q : nat → nat → list LevenshteinOperation → Prop) :
  (∀ i j F o i' j',
      Q i j F → backtraceStep dp str1 str2 i j = Some (o, i', j') →
      Q i' j' (from_option (λ op, op :: F) F o)) →
  ∀ fuel i j acc ops,
    Q i j (reverse acc) →
    backtrace dp str1 str2 fuel i j acc = Some ops →
    Q 0 0 (reverse ops).
Proof.
  intros Hstep. induction fuel as [|fuel IH]; intros i j acc ops HQ Hrun.
  - simpl in Hrun. destruct ((0 <? i) || (0 <? j)) eqn:Hij; [done|].
    apply orb_false_elim in Hij as [Hi%Nat.ltb_ge Hj%Nat.ltb_ge].
    simplify_eq. by replace i with 0 in HQ by lia; replace j with 0 in HQ by lia.
  - simpl in Hrun. destruct ((0 <? i) || (0 <? j)) eqn:Hij.
    + destruct (backtraceStep dp str1 str2 i j) as [[[o i'] j']|] eqn:Hs;
        [|done].
      specialize (Hstep _ _ _ _ _ _ HQ Hs).
      destruct o as [op|]; simpl in Hstep, Hrun.
      * eapply IH; [|exact Hrun]. by rewrite reverse_snoc.
      * eapply IH; [exact Hstep|exact Hrun].
    + apply orb_false_elim in Hij as [Hi%Nat.ltb_ge Hj%Nat.ltb_ge].
      simplify_eq. by replace i with 0 in HQ by lia; replace j with 0 in HQ by lia.
Qed.

Lemma convertOperation_position op :
  position (convertOperation op) = op_position op.
Proof. unfold convertOperation. by destruct (op_type op). Qed.

Lemma in_position_order_cons a b l :
  in_position_order (a :: b :: l) =
    (position a <=? position b) && in_position_order (b :: l).
Proof. done. Qed.

Lemma inserts_come_first_cons a b l :
  inserts_come_first (a :: b :: l) =
    negb (negb (is_insert a) && is_insert b
          && (op_position a =? op_position b))
    && inserts_come_first (b :: l).
Proof. done. Qed.

(** In document order the positions never decrease, and the inserts at a
    position come before the replace or delete at that position. *)
Lemma backtrace_order fuel i j acc ops :
  (ops_in_order (reverse acc) ∧ inserts_come_first (reverse acc)
   ∧ ∀ op, head (reverse acc) = Some op → i ≤ op_position op) →
  backtrace dp str1 str2 fuel i j acc = Some ops →
  ops_in_order (reverse ops) ∧ inserts_come_first (reverse ops).
Proof.
  intros HQ Hrun.
  pose (Q := λ (i j : nat) F,
          ops_in_order F ∧ inserts_come_first F
          ∧ ∀ op, head F = Some op → i ≤ op_position op).
  enough (Q 0 0 (reverse ops)) as (? & ? & _) by done.
  eapply (backtrace_invariant Q); [|exact HQ|exact Hrun].
  clear. intros i j F o i' j' (Hord & Hfirst & Hhead) Hstep. unfold Q.
  assert (∀ op, op_position op < i ∨ (op_position op = i ∧ is_insert op) →
                ops_in_order (op :: F) ∧ inserts_come_first (op :: F))
    as Hcons.
  { intros op Hop. destruct F as [|b F]; [done|].
    specialize (Hhead b eq_refl).
    rewrite inserts_come_first_cons.
    unfold ops_in_order, convertOperationsToDiffRecords in *.
    rewrite !fmap_cons, in_position_order_cons, !convertOperation_position.
    split.
    - apply andb_True. split; [|done].
      apply Is_true_true, Nat.leb_le. lia.
    - apply andb_True. split; [|done].
      apply negb_True. intros [[Hni Hb]%andb_True Hpos%Is_true_true]%andb_True.
      apply Nat.eqb_eq in Hpos. apply negb_True in Hni.
      destruct Hop as [?|[_ ?]]; [lia|done]. }
  apply backtraceStep_inv in Hstep
    as [(i0 & j0 & -> & -> & -> & -> & -> & _)
       |[(i0 & j0 & -> & -> & -> & -> & _ & _ & ->)
        |[(i0 & -> & -> & -> & _ & ->)
         |(j0 & -> & -> & -> & _ & ->)]]]; simpl.
  - split_and!; [done..|]. intros op Hop. specialize (Hhead op Hop). lia.
  - destruct (Hcons {| op_type := Op.replace; op_position := i0;
                       oldChar := str1 !! i0; newChar := str2 !! j0 |})
      as [? ?]; [simpl; lia|].
    split_and!; [done..|]. intros op [= <-]. done.
  - destruct (Hcons {| op_type := Op.delete; op_position := i0;
                       oldChar := str1 !! i0; newChar := None |})
      as [? ?]; [simpl; lia|].
    split_and!; [done..|]. intros op [= <-]. done.
  - destruct (Hcons {| op_type := Op.insert; op_position := i;
                       oldChar := None; newChar := str2 !! j0 |})
      as [? ?]; [by right|].
    split_and!; [done..|]. intros op [= <-]. done.
Qed.

End Backtrace.

(** ** The backtrace of the filled matrix *)

Section FilledBacktrace.
Variables str1 str2 : list jsstring.

Local Abbreviation m := (length str1).
Local Abbreviation n := (length str2).
Local Abbreviation dp := (filledMatrix str1 str2).
Local Abbreviation lev := (lev_cell str1 str2).

(** Some branch of the loop body is always taken: the loop never spins. *)
Lemma backtraceStep_progress i j :
  i ≤ m → j ≤ n → 0 < i ∨ 0 < j →
  is_Some (backtraceStep dp str1 str2 i j).
Proof.
  intros Hi Hj Hpos. unfold backtraceStep.
  destruct i as [|i0], j as [|j0]; simpl; rewrite ?Nat.sub_0_r;
    [lia|rewrite !filledMatrix_get by lia..].
  - change (lev 0 (S j0)) with (S j0). change (lev 0 j0) with j0.
    destruct (Nat.eqb_spec (S j0) (j0 + 1)); [eexists; reflexivity|lia].
  - rewrite !lev_cell_0_r.
    destruct (Nat.eqb_spec (S i0) (i0 + 1)); [eexists; reflexivity|lia].
  - rewrite lev_cell_S_S.
    destruct (elem_eqb (str1 !! i0) (str2 !! j0)); [eexists; reflexivity|].
    repeat match goal with
           | |- context [Nat.eqb ?a ?b] =>
               destruct (Nat.eqb_spec a b); [eexists; reflexivity|]
           end.
    lia.
Qed.

Lemma backtrace_terminates fuel i j acc :
  i ≤ m → j ≤ n → i + j ≤ fuel →
  is_Some (backtrace dp str1 str2 fuel i j acc).
Proof.
  revert i j acc. induction fuel as [|fuel IH]; intros i j acc Hi Hj Hfuel.
  - simpl. replace i with 0 by lia. replace j with 0 by lia. eauto.
  - simpl. destruct ((0 <? i) || (0 <? j)) eqn:Hij; [|eauto].
    apply orb_true_iff in Hij.
    destruct (backtraceStep_progress i j) as [[[o i'] j'] Hs]; [done..| |].
    { destruct Hij as [?%Nat.ltb_lt|?%Nat.ltb_lt]; lia. }
    rewrite Hs. apply backtraceStep_decreases in Hs.
    destruct o; apply IH; lia.
Qed.

(** Every operation emitted accounts for one unit of the distance. *)
Lemma backtrace_count fuel acc ops :
  backtrace dp str1 str2 fuel m n acc = Some ops →
  length ops = length acc + lev m n.
Proof.
  intros Hrun.
  pose (Q := λ (i j : nat) (F : list LevenshteinOperation),
          i ≤ m ∧ j ≤ n ∧ length F + lev i j = length acc + lev m n).
  enough (Q 0 0 (reverse ops)) as (_ & _ & HQ).
  { rewrite length_reverse in HQ. simpl in HQ. lia. }
  eapply (backtrace_invariant _ _ _ Q); [|shelve|exact Hrun].
  Unshelve. 2:{ unfold Q. rewrite length_reverse. done. }
  clear. intros i j F o i' j' (Hi & Hj & HQ) Hstep. unfold Q.
  apply backtraceStep_inv in Hstep
    as [(i0 & j0 & -> & -> & -> & -> & -> & Heq)
       |[(i0 & j0 & -> & -> & -> & -> & _ & Hdp & ->)
        |[(i0 & -> & -> & -> & Hdp & ->)
         |(j0 & -> & -> & -> & Hdp & ->)]]]; simpl.
  - rewrite lev_cell_S_S in HQ.
    rewrite (proj2 (elem_eqb_true _ _) Heq) in HQ.
    split_and!; lia.
  - rewrite !filledMatrix_get in Hdp by lia. split_and!; lia.
  - rewrite !filledMatrix_get in Hdp by lia. split_and!; lia.
  - rewrite !filledMatrix_get in Hdp by lia. split_and!; lia.
Qed.

Lemma join_cons (x : jsstring) (l : list jsstring) :
  join (x :: l) = x ++ join l.
Proof. done. Qed.

(** Starting the replay one unit earlier copies that unit first. *)
Lemma replay_from_shift cur x records :
  str1 !! cur = Some x →
  (∀ r, head records = Some r → S cur ≤ position r) →
  replay_from str1 cur records = x ++ replay_from str1 (S cur) records.
Proof.
  intros Hx Hhead. destruct records as [|r records]; cbn [replay_from].
  - by rewrite (drop_S _ _ _ Hx), join_cons.
  - specialize (Hhead r eq_refl).
    replace (position r - cur) with (S (position r - S cur)) by lia.
    rewrite (drop_S _ _ _ Hx). cbn [take]. rewrite join_cons.
    rewrite !(Nat.max_r _ (position r)) by lia.
    by rewrite <-(assoc_L (++)).
Qed.

(** The records of the operations emitted so far rebuild the rest of the
    target from the rest of the source. *)
Lemma backtrace_replay fuel ops :
  backtrace dp str1 str2 fuel m n [] = Some ops →
  replay str1 (convertOperationsToDiffRecords (reverse ops)) = join str2.
Proof.
  intros Hrun.
  pose (Q := λ (i j : nat) (F : list LevenshteinOperation),
          i ≤ m ∧ j ≤ n
          ∧ (∀ op, head F = Some op → i ≤ op_position op)
          ∧ replay_from str1 i (convertOperationsToDiffRecords F)
            = join (drop j str2)).
  enough (Q 0 0 (reverse ops)) as (_ & _ & _ & HQ) by done.
  eapply (backtrace_invariant _ _ _ Q); [|shelve|exact Hrun].
  Unshelve.
  2:{ unfold Q. simpl. rewrite !drop_all. done. }
  clear. intros i j F o i' j' (Hi & Hj & Hhead & HQ) Hstep. unfold Q.
  apply backtraceStep_inv in Hstep
    as [(i0 & j0 & -> & -> & -> & -> & -> & Heq)
       |[(i0 & j0 & -> & -> & -> & -> & _ & _ & ->)
        |[(i0 & -> & -> & -> & _ & ->)
         |(j0 & -> & -> & -> & _ & ->)]]]; simpl.
  - destruct (lookup_lt_is_Some_2 str1 i0) as [x Hx]; [lia|].
    destruct (lookup_lt_is_Some_2 str2 j0) as [y Hy]; [lia|].
    assert (x = y) as <- by congruence.
    split_and!; [lia..| |].
    + intros op Hop. specialize (Hhead op Hop). lia.
    + rewrite (replay_from_shift _ x), HQ, (drop_S _ _ _ Hy); [done..|].
      intros r Hr. unfold convertOperationsToDiffRecords in Hr.
      destruct F as [|op F]; simplify_eq/=.
      rewrite convertOperation_position. by apply Hhead.
  - destruct (lookup_lt_is_Some_2 str2 j0) as [y Hy]; [lia|].
    split_and!; [lia..| |].
    + by intros op [= <-].
    + unfold convertOperation. simpl.
      rewrite Nat.sub_diag, Nat.max_id, Hy. simpl.
      change (list_fmap _ _ convertOperation F)
        with (convertOperationsToDiffRecords F).
      by rewrite HQ, (drop_S _ _ _ Hy).
  - split_and!; [lia..| |].
    + by intros op [= <-].
    + unfold convertOperation. simpl.
      rewrite Nat.sub_diag, Nat.max_id. simpl.
      change (list_fmap _ _ convertOperation F)
        with (convertOperationsToDiffRecords F).
      done.
  - destruct (lookup_lt_is_Some_2 str2 j0) as [y Hy]; [lia|].
    split_and!; [lia..| |].
    + by intros op [= <-].
    + unfold convertOperation. simpl.
      rewrite Nat.sub_diag, Nat.max_id, Hy. simpl.
      change (list_fmap _ _ convertOperation F)
        with (convertOperationsToDiffRecords F).
      by rewrite HQ, (drop_S _ _ _ Hy).
Qed.

(** What the raw backtrace of the filled matrix yields. *)
Lemma rawOperations_spec :
  ∃ raw, rawOperations str1 str2 = Some raw
         ∧ length raw = lev m n
         ∧ replay str1 (convertOperationsToDiffRecords raw) = join str2
         ∧ ops_in_order raw
         ∧ inserts_come_first raw.
Proof.
  unfold rawOperations, backtraceOperations.
  destruct (backtrace_terminates (m + n) m n []) as [ops Hrun]; [lia..|].
  rewrite Hrun. exists (reverse ops). split_and!.
  - done.
  - rewrite length_reverse. by apply backtrace_count in Hrun.
  - by eapply backtrace_replay.
  - eapply backtrace_order; [|exact Hrun]. done.
  - eapply backtrace_order; [|exact Hrun]. done.
Qed.

End FilledBacktrace.

(** ** An insert is never followed by a delete at its position *)

Section InsertThenDelete.
Variables str1 str2 : list jsstring.

Local Abbreviation m := (length str1).
Local Abbreviation n := (length str2).
Local Abbreviation dp := (filledMatrix str1 str2).
Local Abbreviation lev := (lev_cell str1 str2).

(** When the iteration at [(S i0, j)] emits a delete, the tests before the
    one of the delete have failed. *)
Lemma backtraceStep_delete i0 j op i' j' :
  backtraceStep dp str1 str2 (S i0) j = Some (Some op, i', j') →
  op_type op = Op.delete →
  j = 0 ∨ ∃ j0, j = S j0 ∧ str1 !! i0 ≠ str2 !! j0
                ∧ get dp (S i0) j ≠ S (get dp i0 j0).
Proof.
  unfold backtraceStep. intros Hstep Hdel.
  destruct j as [|j0]; [by left|right]. exists j0.
  cbn [Nat.ltb Nat.leb andb] in Hstep.
  rewrite !Nat.sub_succ, !Nat.sub_0_r in Hstep.
  destruct (elem_eqb _ _) eqn:Heq; [done|].
  apply elem_eqb_false in Heq.
  destruct (Nat.eqb_spec (get dp (S i0) (S j0)) (get dp i0 j0 + 1))
    as [|Hrep].
  { injection Hstep as <- _ _. done. }
  split_and!; [done..|lia].
Qed.

Lemma no_insert_then_replace_cons a b l :
  no_insert_then_replace (a :: b :: l) =
    negb (is_insert a && bool_decide (op_type b = Op.replace)
          && (op_position a =? op_position b))
    && no_insert_then_replace (b :: l).
Proof. done. Qed.

Lemma no_insert_then_replace_tail a l :
  no_insert_then_replace (a :: l) → no_insert_then_replace l.
Proof.
  destruct l as [|b l]; [done|].
  rewrite no_insert_then_replace_cons. by intros [_ ?]%andb_True.
Qed.

Lemma inserts_stand_alone_unfold a b l :
  inserts_stand_alone (a :: b :: l) =
    negb (is_insert a && negb (is_insert b)
          && (op_position a =? op_position b))
    && inserts_stand_alone (b :: l).
Proof. done. Qed.

(** In the backtrace of the filled matrix, an insert is followed at its
    position by an insert or by a replace only. *)
Lemma backtrace_stand_alone fuel ops :
  backtrace dp str1 str2 fuel m n [] = Some ops →
  no_insert_then_replace (reverse ops) →
  inserts_stand_alone (reverse ops).
Proof.
  intros Hrun.
  pose (Q := λ (i j : nat) (F : list LevenshteinOperation),
          i ≤ m ∧ j ≤ n
          ∧ (∀ op, head F = Some op → i ≤ op_position op)
          ∧ (∀ op, head F = Some op → op_type op = Op.delete →
                   op_position op = i →
                   lev (S i) j = S (lev i j)
                   ∧ (j = 0 ∨ ∃ j0, j = S j0 ∧ str1 !! i ≠ str2 !! j0
                                    ∧ lev (S i) j ≠ S (lev i j0)))
          ∧ (no_insert_then_replace F → inserts_stand_alone F)).
  enough (Q 0 0 (reverse ops)) as (_ & _ & _ & _ & HQ) by done.
  eapply (backtrace_invariant _ _ _ Q); [|shelve|exact Hrun].
  Unshelve. 2:{ unfold Q. by split_and!. }
  clear. intros i j F o i' j' (Hi & Hj & Hhead & Hdel & Halone) Hstep.
  unfold Q.
  pose proof Hstep as Hshape.
  apply backtraceStep_inv in Hshape
    as [(i0 & j0 & -> & -> & -> & -> & -> & Heq)
       |[(i0 & j0 & -> & -> & -> & -> & _ & _ & ->)
        |[(i0 & -> & -> & -> & Hdp & ->)
         |(j0 & -> & -> & -> & Hdp & ->)]]]; cbn [from_option].
  - split_and!; [lia..| | |done].
    + intros op Hop. specialize (Hhead op Hop). lia.
    + intros op Hop _ Hpos. specialize (Hhead op Hop). lia.
  - split_and!; [lia..| | |].
    + by intros op [= <-].
    + by intros op [= <-].
    + destruct F as [|b F]; [done|]. intros Hnr.
      rewrite inserts_stand_alone_unfold. apply andb_True.
      split; [done|]. apply Halone.
      by apply no_insert_then_replace_tail in Hnr.
  - split_and!; [lia..| | |].
    + by intros op [= <-].
    + intros op [= <-] _ _.
      rewrite !filledMatrix_get in Hdp by lia. split; [done|].
      apply backtraceStep_delete in Hstep as [->|(j0 & -> & Hne & Hrep)];
        [by left| |done]. right. exists j0.
      rewrite !filledMatrix_get in Hrep by lia. done.
    + destruct F as [|b F]; [done|]. intros Hnr.
      rewrite inserts_stand_alone_unfold. apply andb_True.
      split; [done|]. apply Halone.
      by apply no_insert_then_replace_tail in Hnr.
  - split_and!; [lia..| | |].
    + by intros op [= <-].
    + by intros op [= <-].
    + destruct F as [|b F]; [done|]. intros Hnr.
      rewrite no_insert_then_replace_cons in Hnr.
      apply andb_True in Hnr as [Hpair Hnr]. apply negb_True in Hpair.
      rewrite inserts_stand_alone_unfold. apply andb_True.
      split; [|by apply Halone].
      apply negb_True. cbn [op_position] in Hpair |- *.
      change (is_insert {| op_type := Op.insert; op_position := i;
                           oldChar := None; newChar := str2 !! j0 |})
        with true in Hpair |- *.
      intros [Hb%negb_True Hpos%Is_true_true]%andb_True.
      apply Nat.eqb_eq in Hpos.
      destruct (op_type b) eqn:Hty.
      * apply Hpair. rewrite <-Hpos, Nat.eqb_refl. done.
      * destruct (Hdel b eq_refl Hty (eq_sym Hpos))
          as [Hdown [?|(j1 & [= <-] & Hne & Hdiag)]]; [done|].
        rewrite !filledMatrix_get in Hdp by lia.
        pose proof (lev_cell_S_S str1 str2 i j0) as Hcell.
        rewrite (proj2 (elem_eqb_false _ _) Hne) in Hcell. lia.
      * apply Hb. unfold is_insert. by rewrite bool_decide_eq_true_2.
Qed.

Lemma rawOperations_stand_alone raw :
  rawOperations str1 str2 = Some raw →
  no_insert_then_replace raw → inserts_stand_alone raw.
Proof.
  unfold rawOperations, backtraceOperations.
  destruct (backtrace _ _ _ _ _ _ _) as [ops|] eqn:Hrun; [|done].
  intros [= <-]. by eapply backtrace_stand_alone.
Qed.

End InsertThenDelete.

(** ** The optimizer *)

Section Optimizer.
Implicit Types (op cur : LevenshteinOperation)
  (ops rest run : list LevenshteinOperation)
  (prev : option LevenshteinOperation).

Lemma hasPrecedingInsert_blocks optimized cur :
  hasPrecedingInsert optimized cur = blocks (last optimized) cur.
Proof. done. Qed.

Lemma optimizeLoop_from fuel rest optimized :
  optimizeLoop fuel rest optimized =
    optimized ++ optimizeFrom fuel rest (last optimized).
Proof.
  revert rest optimized.
  induction fuel as [|fuel IH]; intros rest optimized; simpl.
  { by rewrite app_nil_r. }
  destruct rest as [|cur rest1]; [by rewrite app_nil_r|].
  fold (is_insert cur). destruct (is_insert cur).
  - destruct (mergeInserts _ _ _) as [mc rest2].
    by rewrite IH, last_snoc, <-(assoc_L (++)).
  - rewrite hasPrecedingInsert_blocks. destruct (blocks _ _); [done|].
    by rewrite IH, last_snoc, <-(assoc_L (++)).
Qed.

Lemma optimizeOperations_from ops :
  optimizeOperations ops = optimizeFrom (length ops) ops None.
Proof.
  unfold optimizeOperations. destruct ops as [|op ops]; [done|].
  change (length (op :: ops) =? 0) with false. cbv iota.
  by rewrite optimizeLoop_from.
Qed.

(** The inner loop splits [rest] into the run of inserts at [pos] that it
    absorbs and what it leaves, which does not start with such an
    insert. *)
Lemma mergeInserts_spec rest pos c :
  ∃ run,
    rest = run ++ (mergeInserts rest pos c).2
    ∧ Forall (insert_at pos) run
    ∧ (mergeInserts rest pos c).1
      = c ++ concat ((λ op, or_empty (newChar op)) <$> run)
    ∧ ∀ op, head (mergeInserts rest pos c).2 = Some op → ¬ insert_at pos op.
Proof.
  revert c. induction rest as [|next rest IH]; intros c; simpl.
  { exists []. split_and!; [done|constructor|by rewrite app_nil_r|done]. }
  fold (is_insert next).
  destruct (is_insert next) eqn:Hins; simpl;
    [destruct (Nat.eqb_spec (op_position next) pos) as [Hpos|Hpos]|];
    simpl.
  - destruct (IH (c ++ or_empty (newChar next)))
      as (run & Hrest & Hrun & Hc & Hhead).
    exists (next :: run). split_and!.
    + simpl. by f_equal.
    + constructor; [|done]. split; [by rewrite Hins|done].
    + rewrite Hc. simpl. by rewrite <-(assoc_L (++)).
    + done.
  - exists []. split_and!; [done|constructor|by rewrite app_nil_r|].
    intros op [= <-] [_ ?]. done.
  - exists []. split_and!; [done|constructor|by rewrite app_nil_r|].
    intros op [= <-] [? _]. by rewrite Hins in *.
Qed.

Lemma mergeInserts_length rest pos c :
  length (mergeInserts rest pos c).2 ≤ length rest.
Proof.
  destruct (mergeInserts_spec rest pos c) as (run & Hrest & _).
  rewrite Hrest at 2. rewrite length_app. lia.
Qed.

Lemma mergeInserts_stop rest pos c :
  (∀ op, head rest = Some op → ¬ insert_at pos op) →
  mergeInserts rest pos c = (c, rest).
Proof.
  intros Hhead. destruct rest as [|next rest]; [done|]. simpl.
  fold (is_insert next).
  destruct (is_insert next) eqn:Hins; [|done].
  destruct (Nat.eqb_spec (op_position next) pos) as [Hpos|Hpos]; [|done].
  destruct (Hhead next eq_refl). split; [by rewrite Hins|done].
Qed.

(** A settled list of normalized operations is left as it is. *)
Lemma optimizeFrom_settled fuel ops prev :
  length ops ≤ fuel → Forall normalized ops → settled ops →
  (∀ op, head ops = Some op → blocks prev op = false) →
  optimizeFrom fuel ops prev = ops.
Proof.
  revert ops prev. induction fuel as [|fuel IH];
    intros ops prev Hfuel Hnorm Hsettled Hprev.
  { destruct ops; [done|simpl in Hfuel; lia]. }
  destruct ops as [|cur rest1]; [done|]. simpl in Hfuel.
  apply Forall_cons in Hnorm as [Hcur Hnorm]. cbn [optimizeFrom].
  assert (settled rest1) as Hsettled1.
  { destruct rest1; [done|]. by destruct Hsettled. }
  specialize (Hprev cur eq_refl). unfold normalized in Hcur.
  destruct (is_insert cur) eqn:Hins.
  - assert (∀ b, head rest1 = Some b → op_position b ≠ op_position cur)
      as Hnext.
    { intros b Hb Hpos. destruct rest1; simplify_eq/=.
      destruct Hsettled as [Hpair _]. apply Hpair. by rewrite Hins. }
    rewrite mergeInserts_stop.
    2:{ intros b Hb [_ Hpos]. by eapply Hnext. }
    destruct Hcur as [Hold [c Hnew]]; [done|].
    assert ({| op_type := Op.insert; op_position := op_position cur;
               oldChar := None; newChar := Some (or_empty (newChar cur)) |}
            = cur) as Hsame.
    { destruct cur as [ty pos old new]. simpl in *. subst.
      apply bool_decide_eq_true in Hins. simpl in Hins. by subst. }
    assert (match rest1 with
            | replaceOp :: _ =>
                if bool_decide (op_type replaceOp = Op.replace)
                   && (op_position replaceOp =? op_position cur)
                then or_empty (newChar cur) ++ or_empty (newChar replaceOp)
                else or_empty (newChar cur)
            | [] => or_empty (newChar cur)
            end = or_empty (newChar cur)) as ->.
    { destruct rest1 as [|b rest1]; [done|].
      destruct (Nat.eqb_spec (op_position b) (op_position cur)) as [Hpos|];
        [|by rewrite andb_false_r].
      by destruct (Hnext b eq_refl). }
    rewrite Hsame. f_equal. apply IH; [lia|done..|].
    intros b Hb. simpl. rewrite Hins. simpl.
    apply Nat.eqb_neq. intros Hpos. by eapply Hnext.
  - rewrite Hprev. f_equal. apply IH; [lia|done..|].
    intros b Hb. simpl. by rewrite Hins.
Qed.

Lemma inserts_come_first_tail op ops :
  inserts_come_first (op :: ops) → inserts_come_first ops.
Proof.
  destruct ops as [|b ops]; [done|].
  rewrite inserts_come_first_cons. by intros [_ ?]%andb_True.
Qed.

Lemma inserts_come_first_app run rest :
  inserts_come_first (run ++ rest) → inserts_come_first rest.
Proof.
  induction run as [|a run IH]; [done|]. simpl.
  intros H. by apply IH, (inserts_come_first_tail a).
Qed.

(** When no insert follows another operation at its own position, what the
    optimizer pushes is settled and normalized. *)
Lemma optimizeFrom_settles fuel rest prev :
  inserts_come_first rest →
  (∀ p op, prev = Some p → is_insert p → head rest = Some op →
           is_insert op → op_position p ≠ op_position op) →
  Forall normalized (optimizeFrom fuel rest prev)
  ∧ settled (optimizeFrom fuel rest prev)
  ∧ ∀ op, head (optimizeFrom fuel rest prev) = Some op →
          blocks prev op = false.
Proof.
  revert rest prev. induction fuel as [|fuel IH];
    intros rest prev Hfirst Hlink; [by split_and!|].
  destruct rest as [|cur rest1]; [by split_and!|]. cbn [optimizeFrom].
  destruct (is_insert cur) eqn:Hins.
  - destruct (mergeInserts_spec rest1 (op_position cur)
                (or_empty (newChar cur))) as (run & Hrest & _ & _ & Hhead).
    destruct (mergeInserts _ _ _) as [mc rest2]. simpl in *.
    set (merged := {| op_type := Op.insert |}).
    destruct (IH rest2 (Some merged)) as (Hnorm & Hsettled & Hblocks).
    { apply (inserts_come_first_app run). rewrite <-Hrest.
      by apply (inserts_come_first_tail cur). }
    { intros p op [= <-] _ Hop Hopins Hpos.
      apply (Hhead op Hop). split; [done|]. by rewrite <-Hpos. }
    split_and!.
    + constructor; [|done]. intros _. split; [done|]. by eexists.
    + destruct (optimizeFrom fuel rest2 (Some merged)) as [|b out] eqn:Hout;
        [done|].
      split; [|done]. intros [_ Hpos].
      specialize (Hblocks b eq_refl). simpl in Hblocks.
      apply Nat.eqb_neq in Hblocks. done.
    + intros op [= <-]. destruct prev as [p|]; [|done]. simpl.
      destruct (is_insert p) eqn:Hp; [|done]. simpl.
      apply Nat.eqb_neq. eapply Hlink; by rewrite ?Hp, ?Hins.
  - destruct (blocks prev cur) eqn:Hblocks.
    + apply IH; [by apply (inserts_come_first_tail cur)|].
      intros p op -> Hp Hop Hopins.
      simpl in Hblocks. apply andb_prop in Hblocks as [_ Hpos%Nat.eqb_eq].
      rewrite Hpos. destruct rest1 as [|b rest1]; [done|].
      simpl in Hop. injection Hop as ->.
      rewrite inserts_come_first_cons in Hfirst.
      apply andb_True in Hfirst as [Hpair _]. apply negb_True in Hpair.
      intros Heq. apply Hpair. rewrite Hins. simpl.
      apply andb_True. split; [done|].
      apply Is_true_true, Nat.eqb_eq. done.
    + destruct (IH rest1 (Some cur)) as (Hnorm & Hsettled & Hnext).
      { by apply (inserts_come_first_tail cur). }
      { intros p op [= <-] Hp. by rewrite Hins in Hp. }
      split_and!.
      * constructor; [|done]. intros Hp. by rewrite Hins in Hp.
      * destruct (optimizeFrom fuel rest1 (Some cur)) as [|b out]; [done|].
        split; [|done]. intros [Hp _]. by rewrite Hins in Hp.
      * by intros op [= <-].
Qed.

(** The optimizer changes nothing the second time, on every list in which
    no insert follows another operation at its own position. *)
Lemma optimizeOperations_idempotent ops :
  inserts_come_first ops →
  optimizeOperations (optimizeOperations ops) = optimizeOperations ops.
Proof.
  intros Hfirst. rewrite !optimizeOperations_from.
  destruct (optimizeFrom_settles (length ops) ops None Hfirst)
    as (Hnorm & Hsettled & _); [done|].
  apply optimizeFrom_settled; done.
Qed.

End Optimizer.

(** ** The optimizer and the replay *)

Section OptimizerReplay.
Implicit Types (op a b : LevenshteinOperation)
  (ops rest run : list LevenshteinOperation)
  (prev : option LevenshteinOperation).

Lemma is_insert_type op : is_insert op → op_type op = Op.insert.
Proof. apply bool_decide_unpack. Qed.

Lemma convert_cons op ops :
  convertOperationsToDiffRecords (op :: ops) =
    convertOperation op :: convertOperationsToDiffRecords ops.
Proof. done. Qed.

Lemma convert_app ops1 ops2 :
  convertOperationsToDiffRecords (ops1 ++ ops2) =
    convertOperationsToDiffRecords ops1
    ++ convertOperationsToDiffRecords ops2.
Proof. apply fmap_app. Qed.

Lemma replay_from_add source cur op records :
  is_insert op →
  replay_from source cur (convertOperation op :: records) =
    join (take (op_position op - cur) (drop cur source))
    ++ or_empty (newChar op)
    ++ replay_from source (cur `max` op_position op) records.
Proof.
  intros Hins%is_insert_type. cbn [replay_from].
  unfold convertOperation. by rewrite Hins.
Qed.

(** A run of inserts at one position replays as the concatenation of
    their contents. *)
Lemma replay_from_run source cur pos run records :
  Forall (insert_at pos) run →
  replay_from source (cur `max` pos)
    (convertOperationsToDiffRecords run ++ records) =
    concat ((λ op, or_empty (newChar op)) <$> run)
    ++ replay_from source (cur `max` pos) records.
Proof.
  induction 1 as [|op run [Hins Hpos] _ IH]; [done|].
  rewrite convert_cons. cbn [app]. rewrite replay_from_add by done.
  rewrite Hpos. replace (pos - cur `max` pos) with 0 by lia.
  rewrite <-Nat.max_assoc, Nat.max_id, IH. simpl.
  by rewrite <-(assoc_L (++)).
Qed.

Lemma replay_from_same_head source cur r records1 records2 :
  (∀ c, replay_from source c records1 = replay_from source c records2) →
  replay_from source cur (r :: records1) =
    replay_from source cur (r :: records2).
Proof. intros Heq. cbn [replay_from]. by rewrite !Heq. Qed.

Lemma inserts_stand_alone_cons a b l :
  inserts_stand_alone (a :: b :: l) =
    negb (is_insert a && negb (is_insert b)
          && (op_position a =? op_position b))
    && inserts_stand_alone (b :: l).
Proof. done. Qed.

Lemma inserts_stand_alone_tail op ops :
  inserts_stand_alone (op :: ops) → inserts_stand_alone ops.
Proof.
  destruct ops as [|b ops]; [done|].
  rewrite inserts_stand_alone_cons. by intros [_ ?]%andb_True.
Qed.

Lemma inserts_stand_alone_run a run rest :
  is_insert a → Forall (insert_at (op_position a)) run →
  inserts_stand_alone (a :: run ++ rest) →
  inserts_stand_alone rest
  ∧ ∀ op, head rest = Some op → is_insert op = false →
          op_position a ≠ op_position op.
Proof.
  intros Ha Hrun. revert a Ha Hrun.
  induction run as [|b run IH]; intros a Ha Hrun Halone;
    cbn [app] in Halone.
  - split; [by apply (inserts_stand_alone_tail a)|].
    intros op Hop Hins Hpos. destruct rest as [|b rest]; [done|].
    simpl in Hop. injection Hop as ->.
    rewrite inserts_stand_alone_cons in Halone.
    apply andb_True in Halone as [Hpair _]. apply negb_True in Hpair.
    apply Hpair. rewrite Hins, Hpos, Nat.eqb_refl.
    by destruct (is_insert a).
  - apply Forall_cons in Hrun as [[Hb Hpos] Hrun].
    rewrite <-Hpos in Hrun |- *.
    by apply IH, (inserts_stand_alone_tail a).
Qed.

Lemma ops_in_order_cons a b l :
  ops_in_order (a :: b :: l) =
    (op_position a <=? op_position b) && ops_in_order (b :: l).
Proof.
  unfold ops_in_order. rewrite !convert_cons, in_position_order_cons.
  by rewrite !convertOperation_position.
Qed.

Lemma ops_in_order_tail op ops :
  ops_in_order (op :: ops) → ops_in_order ops.
Proof.
  destruct ops as [|b ops]; [done|].
  rewrite ops_in_order_cons. by intros [_ ?]%andb_True.
Qed.

Lemma ops_in_order_run a run rest :
  Forall (insert_at (op_position a)) run →
  ops_in_order (a :: run ++ rest) →
  ops_in_order rest
  ∧ ∀ op, head rest = Some op → op_position a ≤ op_position op.
Proof.
  intros Hrun. revert a Hrun.
  induction run as [|b run IH]; intros a Hrun Horder;
    cbn [app] in Horder.
  - split; [by apply (ops_in_order_tail a)|].
    intros op Hop. destruct rest as [|b rest]; [done|].
    simpl in Hop. injection Hop as ->.
    rewrite ops_in_order_cons in Horder.
    apply andb_True in Horder as [Hle%Is_true_true _].
    by apply Nat.leb_le.
  - apply Forall_cons in Hrun as [[Hb Hpos] Hrun].
    rewrite <-Hpos in Hrun |- *.
    by apply IH, (ops_in_order_tail a).
Qed.

(** When every insert stands alone at its position, the optimizer only
    merges runs of inserts: the replay is the same and the positions stay
    in order. *)
Lemma optimizeFrom_merges fuel rest prev :
  length rest ≤ fuel → inserts_stand_alone rest →
  (∀ op, head rest = Some op → is_insert op = false →
         blocks prev op = false) →
  (∀ source cur,
      replay_from source cur
        (convertOperationsToDiffRecords (optimizeFrom fuel rest prev)) =
      replay_from source cur (convertOperationsToDiffRecords rest))
  ∧ (ops_in_order rest →
     ops_in_order (optimizeFrom fuel rest prev)
     ∧ ∀ op, head (optimizeFrom fuel rest prev) = Some op →
             ∃ op', head rest = Some op'
                    ∧ op_position op = op_position op').
Proof.
  revert rest prev. induction fuel as [|fuel IH];
    intros rest prev Hfuel Halone Hprev.
  { destruct rest; [done|simpl in Hfuel; lia]. }
  destruct rest as [|cur rest1]; [done|]. simpl in Hfuel.
  cbn [optimizeFrom]. destruct (is_insert cur) eqn:Hins.
  - pose proof (mergeInserts_length rest1 (op_position cur)
                  (or_empty (newChar cur))) as Hlen.
    destruct (mergeInserts_spec rest1 (op_position cur)
                (or_empty (newChar cur)))
      as (run & Hrest & Hrun & Hmc & Hhead).
    destruct (mergeInserts _ _ _) as [mc rest2].
    cbn [fst snd] in Hlen, Hrest, Hmc, Hhead.
    destruct (inserts_stand_alone_run cur run rest2) as [Halone2 Hnext];
      [by rewrite Hins|done|by rewrite <-Hrest|].
    assert (match rest2 with
            | replaceOp :: _ =>
                if bool_decide (op_type replaceOp = Op.replace)
                   && (op_position replaceOp =? op_position cur)
                then mc ++ or_empty (newChar replaceOp)
                else mc
            | [] => mc
            end = mc) as ->.
    { destruct rest2 as [|b rest2]; [done|].
      destruct (bool_decide (op_type b = Op.replace)) eqn:Hb; [|done].
      destruct (Nat.eqb_spec (op_position b) (op_position cur)) as [Hpos|];
        [|done].
      destruct (Hnext b eq_refl); [|done].
      apply bool_decide_eq_true in Hb. apply bool_decide_eq_false.
      congruence. }
    set (merged := {| op_type := Op.insert |}).
    destruct (IH rest2 (Some merged)) as [Hreplay Horder]; [lia|done| |].
    { intros op Hop Hopins. simpl.
      apply Nat.eqb_neq. by apply Hnext. }
    split.
    + intros source c. rewrite !convert_cons.
      rewrite !replay_from_add by (done || by rewrite Hins).
      rewrite Hreplay, Hrest, convert_app, replay_from_run by done.
      simpl. rewrite Hmc. by rewrite <-!(assoc_L (++)).
    + intros Hord.
      destruct (ops_in_order_run cur run rest2) as [Hord2 Hle];
        [done|by rewrite <-Hrest|].
      destruct (Horder Hord2) as [Hout Hfirst].
      split; [|intros op [= <-]; by exists cur].
      destruct (optimizeFrom fuel rest2 (Some merged)) as [|b out] eqn:Hb;
        [done|].
      rewrite ops_in_order_cons. apply andb_True. split; [|done].
      destruct (Hfirst b eq_refl) as (b' & Hb' & ->).
      apply Is_true_true, Nat.leb_le. simpl. by apply Hle.
  - rewrite (Hprev cur eq_refl Hins).
    destruct (IH rest1 (Some cur)) as [Hreplay Horder];
      [lia|by apply (inserts_stand_alone_tail cur)| |].
    { intros op _ _. simpl. by rewrite Hins. }
    split.
    + intros source c. rewrite !convert_cons.
      by apply replay_from_same_head.
    + intros Hord.
      destruct (Horder (ops_in_order_tail _ _ Hord)) as [Hout Hfirst].
      split; [|intros op [= <-]; by exists cur].
      destruct (optimizeFrom fuel rest1 (Some cur)) as [|b out] eqn:Hb;
        [done|].
      rewrite ops_in_order_cons. apply andb_True. split; [|done].
      destruct (Hfirst b eq_refl) as (b' & Hb' & ->).
      destruct rest1 as [|b'' rest1]; [done|].
      simpl in Hb'. injection Hb' as ->.
      rewrite ops_in_order_cons in Hord.
      by apply andb_True in Hord as [? _].
Qed.

Lemma optimizeOperations_replay ops source :
  inserts_stand_alone ops →
  replay source (convertOperationsToDiffRecords (optimizeOperations ops))
  = replay source (convertOperationsToDiffRecords ops).
Proof.
  intros Halone. rewrite optimizeOperations_from.
  by apply optimizeFrom_merges.
Qed.

Lemma optimizeOperations_order ops :
  inserts_stand_alone ops → ops_in_order ops →
  ops_in_order (optimizeOperations ops).
Proof.
  intros Halone Hord. rewrite optimizeOperations_from.
  by apply optimizeFrom_merges.
Qed.

End OptimizerReplay.

(** ** Binary64: the double of a positive integer *)

Section Binary64.
Local Open Scope Z_scope.

Lemma digits2_pos_size p : digits2_pos p = Pos.size p.
Proof. induction p; simpl; congruence. Qed.

Lemma digits2_pos_lower p : 2 ^ (Z.pos (digits2_pos p) - 1) ≤ Z.pos p.
Proof.
  rewrite digits2_pos_size.
  pose proof (Pos.size_le p) as Hle.
  apply Pos2Z.pos_le_pos in Hle.
  rewrite Pos2Z.inj_pow in Hle.
  replace (Z.pos (Pos.size p)) with (Z.succ (Z.pos (Pos.size p) - 1))
    in Hle by lia.
  rewrite Z.pow_succ_r in Hle by lia. lia.
Qed.

Lemma shr_1_m mrs : 0 ≤ shr_m mrs → shr_m (shr_1 mrs) = shr_m mrs / 2.
Proof.
  destruct mrs as [[|[p|p|]|p] r s]; cbn [shr_1 shr_m]; intros Hm;
    try lia; try done.
  - rewrite Pos2Z.inj_xI. Z.div_mod_to_equations. lia.
  - rewrite Pos2Z.inj_xO. Z.div_mod_to_equations. lia.
Qed.

Lemma iter_shr_1_m p mrs :
  0 ≤ shr_m mrs →
  shr_m (SpecFloat.iter_pos shr_1 p mrs) = shr_m mrs / 2 ^ Z.pos p.
Proof.
  revert mrs. induction p as [p IH|p IH|]; intros mrs Hm;
    cbn [SpecFloat.iter_pos].
  - assert (0 ≤ shr_m (shr_1 mrs)) as H1.
    { rewrite shr_1_m by done. apply Z.div_pos; lia. }
    assert (0 ≤ shr_m (SpecFloat.iter_pos shr_1 p (shr_1 mrs))) as H2.
    { rewrite IH by done. apply Z.div_pos; lia. }
    rewrite IH, IH, shr_1_m by done.
    rewrite !Z.div_div by lia. f_equal.
    rewrite (Pos2Z.inj_xI p).
    replace (2 * Z.pos p + 1) with (1 + Z.pos p + Z.pos p) by lia.
    rewrite !Z.pow_add_r by lia. lia.
  - assert (0 ≤ shr_m (SpecFloat.iter_pos shr_1 p mrs)) as H2.
    { rewrite IH by done. apply Z.div_pos; lia. }
    rewrite IH, IH by done.
    rewrite !Z.div_div by lia. f_equal.
    rewrite (Pos2Z.inj_xO p).
    replace (2 * Z.pos p) with (Z.pos p + Z.pos p) by lia.
    rewrite !Z.pow_add_r by lia. lia.
  - by apply shr_1_m.
Qed.

(** Shifting a positive mantissa to its canonical exponent leaves it
    positive and does not lower the exponent. *)
Lemma shr_fexp_positive m e l :
  0 < m → Number.prec + 3 - Number.emax - Number.prec < Zdigits2 m + e →
  0 < shr_m (shr_fexp Number.prec Number.emax m e l).1
  ∧ e ≤ (shr_fexp Number.prec Number.emax m e l).2.
Proof.
  intros Hm He. destruct m as [|p|p]; [lia| |lia].
  unfold shr_fexp, shr, fexp, emin, Number.prec, Number.emax in *.
  simpl Zdigits2 in *.
  assert (shr_m (shr_record_of_loc (Z.pos p) l) = Z.pos p) as Hrec.
  { by destruct l as [|[]]. }
  destruct (Z.max _ _ - e) as [|q|q] eqn:Hn; simpl; rewrite ?Hrec;
    [lia| |lia].
  split; [|lia].
  rewrite iter_shr_1_m by lia. rewrite Hrec.
  apply Z.div_str_pos. split; [lia|].
  pose proof (digits2_pos_lower p).
  etrans; [|done]. apply Z.pow_le_mono_r; lia.
Qed.

Lemma round_nearest_even_lower m l : m ≤ round_nearest_even m l.
Proof. destruct l as [|[]]; simpl; try lia. destruct (Z.even m); lia. Qed.

Lemma binary_round_aux_positive m e l :
  0 < m → -52 ≤ e →
  match binary_round_aux Number.prec Number.emax false m e l with
  | S754_finite false _ _ | S754_infinity false => True
  | _ => False
  end.
Proof.
  intros Hm He. unfold binary_round_aux.
  assert (0 < Zdigits2 m) as Hd by (by destruct m).
  destruct (shr_fexp_positive m e l) as [Hm1 He1]; [done|..].
  { unfold Number.prec, Number.emax. lia. }
  destruct (shr_fexp _ _ m e l) as [mrs1 e1]. simpl in Hm1, He1.
  pose proof (round_nearest_even_lower (shr_m mrs1)
                (loc_of_shr_record mrs1)) as Hr.
  set (m1 := round_nearest_even _ _) in *.
  assert (0 < Zdigits2 m1) as Hd1 by (destruct m1; simpl; lia).
  destruct (shr_fexp_positive m1 e1 loc_Exact) as [Hm2 He2]; [lia|..].
  { unfold Number.prec, Number.emax. lia. }
  destruct (shr_fexp _ _ m1 e1 loc_Exact) as [mrs2 e2]. simpl in Hm2, He2.
  destruct (shr_m mrs2); [lia| |lia].
  by destruct (_ <=? _).
Qed.

(** The double of a positive integer is a positive number or +infinity,
    never a zero or a NaN. *)
Lemma of_Z_positive z :
  0 < z →
  match Number.of_Z z with
  | S754_finite false _ _ | S754_infinity false => True
  | _ => False
  end.
Proof.
  intros Hz. destruct z as [|p|p]; [lia| |lia].
  unfold Number.of_Z, binary_normalize, binary_round, shl_align.
  destruct (fexp _ _ _ - 0) as [|q|q] eqn:Hq;
    apply binary_round_aux_positive; try lia.
  unfold fexp, emin, Number.prec, Number.emax in *. lia.
Qed.

Lemma div_zero_positive z :
  0 < z → Number.div (Number.of_Z 0) (Number.of_Z z) = S754_zero false.
Proof.
  intros Hz%of_Z_positive.
  by destruct (Number.of_Z z) as [| [] | | [] ].
Qed.

(** Equal texts, whatever their length, are 100 percent similar. *)
Lemma calculateSimilarity_zero (text1 text2 : jsstring) :
  calculateSimilarity text1 text2 0 = Number.of_Z 100.
Proof.
  unfold calculateSimilarity.
  destruct (Nat.eqb_spec (length text1 `max` length text2) 0) as [|Hmax];
    [done|].
  unfold Number.of_nat at 1. simpl Z.of_nat.
  unfold Number.of_nat. rewrite div_zero_positive by lia.
  vm_compute. done.
Qed.

End Binary64.

(** ** Binary64: digits, shifts and rounding *)

Section Rounding.
Local Open Scope Z_scope.

Local Abbreviation prec := Number.prec.
Local Abbreviation emax := Number.emax.
Local Abbreviation fexp := (SpecFloat.fexp Number.prec Number.emax).

Lemma fexp_spec k : fexp k = Z.max (k - 53) (-1074).
Proof. reflexivity. Qed.

Lemma fexp_mono a b : a ≤ b → fexp a ≤ fexp b.
Proof. rewrite !fexp_spec. lia. Qed.

Lemma Zdigits2_pos p : Zdigits2 (Z.pos p) = Z.pos (digits2_pos p).
Proof. reflexivity. Qed.

Lemma digits2_pos_upper p : Z.pos p < 2 ^ Z.pos (digits2_pos p).
Proof.
  rewrite digits2_pos_size.
  pose proof (Pos.size_gt p) as Hlt.
  apply Pos2Z.pos_lt_pos in Hlt. by rewrite Pos2Z.inj_pow in Hlt.
Qed.

(** [Zdigits2 m] is the number of bits of [m]. *)
Lemma Zdigits2_bounds m :
  0 < m → 0 < Zdigits2 m ∧ 2 ^ (Zdigits2 m - 1) ≤ m < 2 ^ Zdigits2 m.
Proof.
  intros Hm. destruct m as [|p|p]; [lia| |lia].
  rewrite Zdigits2_pos. split; [lia|].
  split; [apply digits2_pos_lower|apply digits2_pos_upper].
Qed.

Lemma Zdigits2_le_pow m k : 0 < m → 0 ≤ k → m < 2 ^ k → Zdigits2 m ≤ k.
Proof.
  intros Hm Hk Hlt. destruct (Zdigits2_bounds m Hm) as (Hd & Hlo & _).
  destruct (Z.le_gt_cases (Zdigits2 m) k) as [|Hgt]; [done|].
  assert (2 ^ k ≤ 2 ^ (Zdigits2 m - 1)) by (apply Z.pow_le_mono_r; lia).
  lia.
Qed.

Lemma Zdigits2_gt_pow m k : 0 ≤ k → 2 ^ k ≤ m → k < Zdigits2 m.
Proof.
  intros Hk Hle.
  assert (0 < m) as Hm by (pose proof (Z.pow_pos_nonneg 2 k); lia).
  destruct (Zdigits2_bounds m Hm) as (Hd & _ & Hhi).
  destruct (Z.lt_ge_cases k (Zdigits2 m)) as [|Hge]; [done|].
  assert (2 ^ Zdigits2 m ≤ 2 ^ k) by (apply Z.pow_le_mono_r; lia).
  lia.
Qed.

Lemma Zdigits2_mul_pow m k :
  0 < m → 0 ≤ k → Zdigits2 (m * 2 ^ k) = Zdigits2 m + k.
Proof.
  intros Hm Hk. destruct (Zdigits2_bounds m Hm) as (Hd & Hlo & Hhi).
  assert (0 < 2 ^ k) as Hpow by (apply Z.pow_pos_nonneg; lia).
  apply Z.le_antisymm.
  - apply Zdigits2_le_pow; [nia|lia|].
    rewrite Z.pow_add_r by lia. nia.
  - enough (Zdigits2 m + k - 1 < Zdigits2 (m * 2 ^ k)) by lia.
    apply Zdigits2_gt_pow; [lia|].
    replace (Zdigits2 m + k - 1) with (Zdigits2 m - 1 + k) by lia.
    rewrite Z.pow_add_r by lia. nia.
Qed.

End Rounding.

Section Shifting.
Local Open Scope Z_scope.

Local Abbreviation fexp := (SpecFloat.fexp Number.prec Number.emax).

Lemma iter_pos_nat {A : Type} (f : A → A) p x :
  SpecFloat.iter_pos f p x = Nat.iter (Pos.to_nat p) f x.
Proof.
  revert x. induction p as [p IH|p IH|]; intros x; cbn [SpecFloat.iter_pos].
  - rewrite !IH, Pos2Nat.inj_xI, <-Nat.iter_add, <-Nat.iter_succ_r.
    f_equal. lia.
  - rewrite !IH, Pos2Nat.inj_xO, <-Nat.iter_add. f_equal. lia.
  - done.
Qed.

Lemma shr_1_exact mrs :
  exact_record mrs → 0 ≤ shr_m mrs → shr_m mrs mod 2 = 0 →
  exact_record (shr_1 mrs).
Proof.
  destruct mrs as [[|[p|p|]|p] r s]; intros [Hr Hs] Hm Heven;
    simpl in *; subst; try done; try lia.
  - rewrite Pos2Z.inj_xI in Heven. Z.div_mod_to_equations. lia.
Qed.

Lemma shr_iter_m k mrs :
  0 ≤ shr_m mrs →
  shr_m (Nat.iter k shr_1 mrs) = shr_m mrs / 2 ^ Z.of_nat k.
Proof.
  intros Hm. induction k as [|k IH].
  - simpl. by rewrite Z.div_1_r.
  - rewrite Nat.iter_succ, shr_1_m, IH.
    + rewrite Nat2Z.inj_succ, Z.pow_succ_r by lia.
      rewrite Z.div_div by lia. f_equal. lia.
    + rewrite IH. apply Z.div_pos; lia.
Qed.

Lemma shr_iter_exact k mrs :
  exact_record mrs → 0 ≤ shr_m mrs → shr_m mrs mod 2 ^ Z.of_nat k = 0 →
  exact_record (Nat.iter k shr_1 mrs).
Proof.
  intros Hexact Hm. induction k as [|k IH]; intros Hmod; [done|].
  rewrite Nat2Z.inj_succ, Z.pow_succ_r in Hmod by lia.
  assert (0 < 2 ^ Z.of_nat k) as Hpow by (apply Z.pow_pos_nonneg; lia).
  apply Z.mod_divide in Hmod as [c Hc]; [|lia].
  rewrite Nat.iter_succ. apply shr_1_exact.
  - apply IH. apply Z.mod_divide; [lia|]. exists (c * 2). lia.
  - rewrite shr_iter_m by done. apply Z.div_pos; lia.
  - rewrite shr_iter_m by done.
    replace (shr_m mrs) with (c * 2 * 2 ^ Z.of_nat k) by lia.
    rewrite Z.div_mul by lia. apply Z.mod_divide; [lia|]. by exists c.
Qed.

Lemma shr_record_of_loc_m m l : shr_m (shr_record_of_loc m l) = m.
Proof. by destruct l as [|[]]. Qed.

Lemma loc_of_exact_record mrs :
  exact_record mrs → loc_of_shr_record mrs = loc_Exact.
Proof. destruct mrs as [m r s]. intros [Hr Hs]. simpl in *. by subst. Qed.

(** Shifting [m] to the canonical exponent, which is [n] above [e]. *)
Lemma shr_fexp_spec m e l :
  0 < m → e ≤ fexp (Zdigits2 m + e) →
  (shr_fexp Number.prec Number.emax m e l).2 = fexp (Zdigits2 m + e)
  ∧ shr_m (shr_fexp Number.prec Number.emax m e l).1
    = m / 2 ^ (fexp (Zdigits2 m + e) - e)
  ∧ (l = loc_Exact → m mod 2 ^ (fexp (Zdigits2 m + e) - e) = 0 →
     loc_of_shr_record (shr_fexp Number.prec Number.emax m e l).1
     = loc_Exact).
Proof.
  intros Hm He. unfold shr_fexp, shr.
  fold fexp.
  destruct (fexp (Zdigits2 m + e) - e) as [|p|p] eqn:Hn; [| |lia].
  - cbn [fst snd]. rewrite shr_record_of_loc_m, Z.div_1_r.
    split_and!; [lia|done|]. by intros ->.
  - cbn [fst snd]. rewrite iter_pos_nat.
    rewrite shr_iter_m by (rewrite shr_record_of_loc_m; lia).
    rewrite shr_record_of_loc_m, positive_nat_Z.
    split_and!; [lia|done|].
    intros -> Hmod. apply loc_of_exact_record, shr_iter_exact.
    + done.
    + simpl. lia.
    + by rewrite positive_nat_Z.
Qed.

Lemma round_nearest_even_bounds m l :
  m ≤ round_nearest_even m l ≤ m + 1.
Proof. destruct l as [|[]]; simpl; try lia. destruct (Z.even m); lia. Qed.

End Shifting.

Section RoundingBound.
Local Open Scope Z_scope.

Local Abbreviation fexp := (SpecFloat.fexp Number.prec Number.emax).

Lemma Zdigits2_mono a b : 0 < a → a ≤ b → Zdigits2 a ≤ Zdigits2 b.
Proof.
  intros Ha Hab.
  destruct (Zdigits2_bounds b) as (Hd & _ & Hhi); [lia|].
  apply Zdigits2_le_pow; lia.
Qed.

Lemma div_pow_lt m n k : 0 ≤ n → 0 ≤ k → m < 2 ^ (n + k) → m / 2 ^ n < 2 ^ k.
Proof.
  intros Hn Hk Hm. rewrite Z.pow_add_r in Hm by lia.
  apply Z.div_lt_upper_bound; [apply Z.pow_pos_nonneg; lia|lia].
Qed.

Lemma div_pow_ge m n k : 0 ≤ n → 0 ≤ k → 2 ^ (k + n) ≤ m → 2 ^ k ≤ m / 2 ^ n.
Proof.
  intros Hn Hk Hm. rewrite Z.pow_add_r in Hm by lia.
  apply Z.div_le_lower_bound; [apply Z.pow_pos_nonneg; lia|lia].
Qed.

(** Rounding a positive [mx * 2 ^ ex] that does not exceed the double
    [mB * 2 ^ eB]: the result is [m2 * 2 ^ e1], where [m2] is the
    mantissa shifted to the exponent [e1], or the next integer; it does
    not exceed [mB * 2 ^ eB] either. *)
Lemma binary_round_aux_spec mx ex lx mB eB :
  0 < mx → ex ≤ fexp (Zdigits2 mx + ex) →
  0 < mB → fexp (Zdigits2 mB + eB) = eB → eB ≤ 971 →
  ex ≤ eB →
  mx ≤ mB * 2 ^ (eB - ex) →
  (mx = mB * 2 ^ (eB - ex) → lx = loc_Exact) →
  ∃ e1 m2,
    e1 = fexp (Zdigits2 mx + ex)
    ∧ ex ≤ e1 ≤ eB
    ∧ mx / 2 ^ (e1 - ex) ≤ m2 ≤ mx / 2 ^ (e1 - ex) + 1
    ∧ m2 ≤ mB * 2 ^ (eB - e1)
    ∧ represents eB
        (binary_round_aux Number.prec Number.emax false mx ex lx) m2 e1.
Proof.
  intros Hmx Hex HmB Hcanon HeB Hle Hbound Hexact.
  destruct (Zdigits2_bounds mx Hmx) as (Hd & Hlo & Hhi).
  destruct (Zdigits2_bounds mB HmB) as (HdB & HloB & HhiB).
  set (d := Zdigits2 mx) in *. set (dB := Zdigits2 mB) in *.
  assert (0 < 2 ^ (eB - ex)) as Hpow by (apply Z.pow_pos_nonneg; lia).
  assert (d + ex ≤ dB + eB) as Hdd.
  { enough (d ≤ dB + (eB - ex)) by lia.
    replace (dB + (eB - ex)) with (Zdigits2 (mB * 2 ^ (eB - ex)))
      by (apply Zdigits2_mul_pow; lia).
    by apply Zdigits2_mono. }
  assert (dB ≤ 53) as HdB53 by (rewrite fexp_spec in Hcanon; lia).
  assert (mB < 2 ^ 53) as HmB53.
  { eapply Z.lt_le_trans; [apply HhiB|]. apply Z.pow_le_mono_r; lia. }
  unfold binary_round_aux.
  destruct (shr_fexp_spec mx ex lx Hmx Hex) as (He1 & Hm1 & Hloc).
  fold d in He1, Hm1, Hloc.
  destruct (shr_fexp Number.prec Number.emax mx ex lx) as [mrs1 e1].
  cbn [fst snd] in He1, Hm1, Hloc. cbv beta iota zeta.
  assert (ex ≤ e1 ≤ eB) as Hrange.
  { split; [lia|]. rewrite He1, <-Hcanon. by apply fexp_mono. }
  assert (-1074 ≤ e1) as Hmin by (rewrite He1, fexp_spec; lia).
  set (n := e1 - ex). assert (0 ≤ n) as Hn by lia.
  replace (fexp (d + ex) - ex) with n in Hm1, Hloc by lia.
  assert (0 < 2 ^ n) as Hpown by (apply Z.pow_pos_nonneg; lia).
  assert (0 < 2 ^ (eB - e1)) as HpowB by (apply Z.pow_pos_nonneg; lia).
  assert (2 ^ (eB - ex) = 2 ^ (eB - e1) * 2 ^ n) as Hsplit.
  { rewrite <-Z.pow_add_r by lia. f_equal. lia. }
  set (m1 := mx / 2 ^ n) in *.
  assert (0 ≤ m1) as Hm1pos by (apply Z.div_pos; lia).
  assert (m1 < 2 ^ 53) as Hm153.
  { apply div_pow_lt; [lia..|].
    eapply Z.lt_le_trans; [apply Hhi|]. apply Z.pow_le_mono_r; [lia|].
    rewrite fexp_spec in He1. lia. }
  assert (2 ^ 52 ≤ m1 ∨ e1 = -1074) as Hnormal.
  { rewrite fexp_spec in He1.
    destruct (Z.max_spec (d + ex - 53) (-1074)) as [[_ Hmax]|[_ Hmax]];
      [right; lia|left].
    apply div_pow_ge; [lia..|].
    etrans; [|apply Hlo]. apply Z.pow_le_mono_r; lia. }
  assert (m1 ≤ mB * 2 ^ (eB - e1)) as Hm1B.
  { apply Z.div_le_upper_bound; [lia|]. rewrite Hsplit in Hbound. lia. }
  pose proof (round_nearest_even_bounds (shr_m mrs1)
                (loc_of_shr_record mrs1)) as Hrne.
  rewrite Hm1 in Hrne.
  assert (m1 = mB * 2 ^ (eB - e1) →
          round_nearest_even (shr_m mrs1) (loc_of_shr_record mrs1) = m1)
    as Htight.
  { intros Heq. pose proof (Z.mul_div_le mx (2 ^ n) Hpown) as Hfloor.
    fold m1 in Hfloor.
    assert (mx = mB * 2 ^ (eB - ex)) as Hmxeq by (rewrite Hsplit; nia).
    rewrite Hloc, Hm1; [done|by apply Hexact|].
    apply Z.mod_divide; [lia|]. exists (mB * 2 ^ (eB - e1)).
    rewrite Hmxeq, Hsplit. lia. }
  rewrite Hm1 in Htight. rewrite Hm1.
  set (m2 := round_nearest_even _ _) in *. clearbody m2.
  assert (m2 ≤ mB * 2 ^ (eB - e1)) as Hm2B.
  { destruct (Z.eq_dec m1 (mB * 2 ^ (eB - e1))) as [Heq|Hne];
      [rewrite Htight by done; lia|lia]. }
  exists e1, m2. split; [done|]. split; [done|]. split; [done|].
  split; [done|].
  destruct (Z.eq_dec m2 0) as [->|Hm2].
  - unfold shr_fexp, shr. simpl Zdigits2. rewrite fexp_spec.
    destruct (Z.max (0 + e1 - 53) (-1074) - e1) eqn:Hz; simpl; [done|lia|done].
  - assert (0 < m2) as Hm2pos by lia.
    destruct (Zdigits2_bounds m2 Hm2pos) as (Hd2 & Hlo2 & Hhi2).
    assert (e1 ≤ fexp (Zdigits2 m2 + e1)) as Hex2.
    { rewrite fexp_spec. destruct Hnormal as [Hnorm| ->]; [|lia].
      enough (52 < Zdigits2 m2) by lia.
      apply Zdigits2_gt_pow; lia. }
    destruct (shr_fexp_spec m2 e1 loc_Exact Hm2pos Hex2) as (He2 & Hm2' & _).
    destruct (shr_fexp Number.prec Number.emax m2 e1 loc_Exact)
      as [mrs2 e2].
    cbn [fst snd] in He2, Hm2'. cbv beta iota zeta.
    destruct (Z.eq_dec m2 (2 ^ 53)) as [Hcarry|Hnocarry].
    + (* the mantissa overflowed: one more shift *)
      assert (e1 < eB) as Hlt.
      { destruct (Z.eq_dec e1 eB) as [->|]; [|lia].
        rewrite Z.sub_diag, Z.mul_1_r in Hm2B. lia. }
      rewrite Hcarry in He2, Hm2'.
      change (Zdigits2 (2 ^ 53)) with 54 in He2, Hm2'.
      rewrite fexp_spec in He2, Hm2'.
      replace (Z.max (54 + e1 - 53) (-1074)) with (e1 + 1) in He2, Hm2'
        by lia.
      replace (e1 + 1 - e1) with 1 in Hm2' by lia.
      change (2 ^ 53 / 2 ^ 1) with (Z.pos (2 ^ 52)) in Hm2'.
      rewrite Hm2', He2.
      destruct (Z.leb_spec (e1 + 1) (Number.emax - Number.prec)) as [_|Hbad];
        [|unfold Number.emax, Number.prec in Hbad; lia].
      simpl. split; [lia|].
      replace (e1 + 1 - e1) with 1 by lia. by rewrite Hcarry.
    + assert (Zdigits2 m2 ≤ 53) as Hd253.
      { apply Zdigits2_le_pow; lia. }
      assert (fexp (Zdigits2 m2 + e1) = e1) as Hsame.
      { rewrite fexp_spec in Hex2 |- *. lia. }
      rewrite Hsame in He2, Hm2'.
      rewrite Z.sub_diag, Z.div_1_r in Hm2'.
      rewrite Hm2', He2.
      destruct m2 as [|p|p]; [lia| |lia].
      destruct (Z.leb_spec e1 (Number.emax - Number.prec)) as [_|Hbad];
        [|unfold Number.emax, Number.prec in Hbad; lia].
      simpl. split; [lia|]. rewrite Z.sub_diag. lia.
Qed.

(** A double in canonical form is rounded to itself. *)
Lemma binary_round_aux_canonical m e :
  fexp (Z.pos (digits2_pos m) + e) = e → e ≤ 971 →
  binary_round_aux Number.prec Number.emax false (Z.pos m) e loc_Exact
  = S754_finite false m e.
Proof.
  intros Hcanon He. unfold binary_round_aux, shr_fexp, shr.
  rewrite Zdigits2_pos, Hcanon, Z.sub_diag. cbn [shr_record_of_loc shr_m
    loc_of_shr_record round_nearest_even].
  rewrite Zdigits2_pos, Hcanon, Z.sub_diag. cbn [shr_record_of_loc shr_m].
  destruct (Z.leb_spec e (Number.emax - Number.prec)) as [_|Hbad];
    [done|unfold Number.emax, Number.prec in Hbad; lia].
Qed.

End RoundingBound.

(** ** Binary64: rational values *)

Section Values.
Local Open Scope Z_scope.

Local Abbreviation fexp := (SpecFloat.fexp Number.prec Number.emax).

Lemma pow2_pos e : (0 < pow2 e)%Q.
Proof. by apply Qpower_0_lt. Qed.

Lemma pow2_add a b : (pow2 (a + b) == pow2 a * pow2 b)%Q.
Proof. by apply Qpower_plus. Qed.

Lemma pow2_Z k : 0 ≤ k → (pow2 k == inject_Z (2 ^ k))%Q.
Proof. intros Hk. unfold pow2. by rewrite Zpower_Qpower. Qed.

Lemma pow2_le a b : a ≤ b → (pow2 a <= pow2 b)%Q.
Proof. intros Hab. by apply Qpower_le_compat_l. Qed.

Lemma pow2_lt_inv a b : (pow2 a < pow2 b)%Q → a < b.
Proof. intros Hab. by apply (Qpower_lt_compat_l_inv 2). Qed.

Lemma F2Q_shift m e k : 0 ≤ k → (F2Q (m * 2 ^ k) e == F2Q m (e + k))%Q.
Proof.
  intros Hk. unfold F2Q.
  rewrite inject_Z_mult, pow2_add, <-pow2_Z by done. ring.
Qed.

Lemma F2Q_le m m' e : m ≤ m' → (F2Q m e <= F2Q m' e)%Q.
Proof.
  intros Hle. unfold F2Q. pose proof (pow2_pos e).
  apply Qmult_le_compat_r; [by rewrite <-Zle_Qle|lra].
Qed.

Lemma F2Q_lt m m' e : m < m' → (F2Q m e < F2Q m' e)%Q.
Proof.
  intros Hlt. unfold F2Q. pose proof (pow2_pos e).
  apply Qmult_lt_compat_r; [done|by rewrite <-Zlt_Qlt].
Qed.

Lemma F2Q_le_inv m m' e : (F2Q m e <= F2Q m' e)%Q → m ≤ m'.
Proof.
  intros Hle. destruct (Z.le_gt_cases m m') as [|Hgt]; [done|].
  apply (F2Q_lt _ _ e) in Hgt. lra.
Qed.

Lemma F2Q_succ m e : (F2Q (m + 1) e == F2Q m e + pow2 e)%Q.
Proof. unfold F2Q. rewrite inject_Z_plus. ring. Qed.

Lemma F2Q_0 e : (F2Q 0 e == 0)%Q.
Proof. unfold F2Q. ring. Qed.

(** A positive [m * 2 ^ e] lies between the powers of two its number of
    bits gives. *)
Lemma F2Q_digits m e :
  0 < m →
  (pow2 (Zdigits2 m - 1 + e) <= F2Q m e)%Q
  ∧ (F2Q m e < pow2 (Zdigits2 m + e))%Q.
Proof.
  intros Hm. destruct (Zdigits2_bounds m Hm) as (Hd & Hlo & Hhi).
  split.
  - rewrite pow2_add, pow2_Z by lia. by apply F2Q_le.
  - rewrite pow2_add, pow2_Z by lia. by apply F2Q_lt.
Qed.

(** Dropping the [n] low bits of a mantissa: the floor. *)
Lemma F2Q_floor m e n :
  0 ≤ n →
  (F2Q (m / 2 ^ n) (e + n) <= F2Q m e)%Q
  ∧ (F2Q (m + 1) e <= F2Q (m / 2 ^ n + 1) (e + n))%Q.
Proof.
  intros Hn. assert (0 < 2 ^ n) as Hpow by (apply Z.pow_pos_nonneg; lia).
  rewrite <-!F2Q_shift by done. split; apply F2Q_le.
  - rewrite Z.mul_comm. by apply Z.mul_div_le.
  - pose proof (Z.mul_succ_div_gt m (2 ^ n) Hpow). lia.
Qed.

Lemma represents_value eB x m e :
  represents eB x m e → (value x == F2Q m e)%Q ∧ nonneg_upto eB x.
Proof.
  destruct x as [[]| | |[] m' e']; simpl; try done.
  - intros ->. by rewrite F2Q_0.
  - intros [He ->]. rewrite F2Q_shift by lia. split; [|lia].
    by replace (e + (e' - e)) with e' by lia.
Qed.

(** Rounding a positive value that does not exceed the double
    [mB * 2 ^ eB]: the result is a non-negative double that does not
    exceed it either, and it is less than [2 ^ eB] away from every number
    between [mx * 2 ^ ex] and [(mx + 1) * 2 ^ ex]. *)
Lemma binary_round_aux_value mx ex lx mB eB :
  0 < mx → ex ≤ fexp (Zdigits2 mx + ex) →
  0 < mB → fexp (Zdigits2 mB + eB) = eB → eB ≤ 971 →
  (F2Q mx ex <= F2Q mB eB)%Q →
  ((F2Q mx ex == F2Q mB eB)%Q → lx = loc_Exact) →
  let r := binary_round_aux Number.prec Number.emax false mx ex lx in
  nonneg_upto eB r
  ∧ (value r <= F2Q mB eB)%Q
  ∧ (value r - pow2 eB <= F2Q mx ex)%Q
  ∧ (F2Q (mx + 1) ex <= value r + pow2 eB)%Q.
Proof.
  intros Hmx Hex HmB Hcanon HeB Hle Hexact r.
  assert (ex ≤ eB) as HexB.
  { rewrite <-Hcanon. etrans; [apply Hex|]. apply fexp_mono.
    destruct (F2Q_digits mx ex Hmx) as [Hlo _].
    destruct (F2Q_digits mB eB HmB) as [_ Hhi].
    enough (Zdigits2 mx - 1 + ex < Zdigits2 mB + eB) by lia.
    apply pow2_lt_inv. lra. }
  assert (F2Q mB eB == F2Q (mB * 2 ^ (eB - ex)) ex)%Q as HB.
  { rewrite F2Q_shift by lia. by replace (ex + (eB - ex)) with eB by lia. }
  destruct (binary_round_aux_spec mx ex lx mB eB)
    as (e1 & m2 & _ & He1 & Hm2 & Hm2B & Hrep); try done.
  { apply (F2Q_le_inv _ _ ex). lra. }
  { intros Heq. apply Hexact. rewrite HB, Heq. reflexivity. }
  apply represents_value in Hrep as [Hval Hshape]. fold r in Hval, Hshape.
  destruct (F2Q_floor mx ex (e1 - ex)) as [Hfl1 Hfl2]; [lia|].
  replace (ex + (e1 - ex)) with e1 in Hfl1, Hfl2 by lia.
  pose proof (F2Q_succ (mx / 2 ^ (e1 - ex)) e1) as Hsucc.
  pose proof (pow2_le e1 eB ltac:(lia)) as Hpow.
  pose proof (F2Q_le _ _ e1 (proj1 Hm2)) as Hlo.
  pose proof (F2Q_le _ _ e1 (proj2 Hm2)) as Hhi.
  pose proof (F2Q_le _ _ e1 Hm2B) as Hup.
  rewrite F2Q_shift in Hup by lia.
  replace (e1 + (eB - e1)) with eB in Hup by lia.
  split; [done|]. split; [lra|]. split; lra.
Qed.

(** Rounding is monotone at the powers of two: a value of at least
    [2 ^ j] is rounded to a double of at least [2 ^ j]. *)
Lemma binary_round_aux_lower mx ex lx mB eB j :
  0 < mx → ex ≤ fexp (Zdigits2 mx + ex) →
  0 < mB → fexp (Zdigits2 mB + eB) = eB → eB ≤ 971 →
  (F2Q mx ex <= F2Q mB eB)%Q →
  ((F2Q mx ex == F2Q mB eB)%Q → lx = loc_Exact) →
  -1074 ≤ j → (pow2 j <= F2Q mx ex)%Q →
  (pow2 j <= value (binary_round_aux Number.prec Number.emax false mx ex lx))%Q.
Proof.
  intros Hmx Hex HmB Hcanon HeB Hle Hexact Hj Hlow.
  assert (ex ≤ eB) as HexB.
  { rewrite <-Hcanon. etrans; [apply Hex|]. apply fexp_mono.
    destruct (F2Q_digits mx ex Hmx) as [Hlo _].
    destruct (F2Q_digits mB eB HmB) as [_ Hhi].
    enough (Zdigits2 mx - 1 + ex < Zdigits2 mB + eB) by lia.
    apply pow2_lt_inv. lra. }
  assert (F2Q mB eB == F2Q (mB * 2 ^ (eB - ex)) ex)%Q as HB.
  { rewrite F2Q_shift by lia. by replace (ex + (eB - ex)) with eB by lia. }
  destruct (binary_round_aux_spec mx ex lx mB eB)
    as (e1 & m2 & Hfexp & He1 & Hm2 & Hm2B & Hrep); try done.
  { apply (F2Q_le_inv _ _ ex). lra. }
  { intros Heq. apply Hexact. rewrite HB, Heq. reflexivity. }
  apply represents_value in Hrep as [-> _].
  pose proof (F2Q_le _ _ e1 (proj1 Hm2)) as Hm1.
  eapply Qle_trans; [|apply Hm1].
  destruct (Zdigits2_bounds mx Hmx) as (Hd & Hlo & Hhi).
  assert (∀ a b, 0 ≤ a → (pow2 (a + b) == F2Q (2 ^ a) b)%Q) as Hpow.
  { intros a b Ha. unfold F2Q. by rewrite <-pow2_Z, pow2_add. }
  destruct (Z.le_gt_cases e1 j) as [Hge|Hlt].
  - replace j with (j - e1 + e1) at 1 by lia. rewrite Hpow by lia.
    apply F2Q_le, div_pow_ge; [lia..|].
    apply (F2Q_le_inv _ _ ex). rewrite <-Hpow by lia.
    by replace (j - e1 + (e1 - ex) + ex) with j by lia.
  - eapply Qle_trans; [apply (pow2_le j e1); lia|].
    replace e1 with (0 + e1) at 1 by lia. rewrite Hpow by lia.
    apply F2Q_le. transitivity (2 ^ 52); [done|].
    apply div_pow_ge; [lia..|].
    etrans; [|apply Hlo]. apply Z.pow_le_mono_r; [lia|].
    rewrite fexp_spec in Hfexp. lia.
Qed.

End Values.

(** ** Binary64: the operations of the similarity formula *)

Section Operations.
Local Open Scope Z_scope.

Local Abbreviation fexp := (SpecFloat.fexp Number.prec Number.emax).

Lemma shl_align_le mx ex ex' :
  ex' ≤ ex →
  shl_align mx ex ex' = (Z.to_pos (Z.pos mx * 2 ^ (ex - ex')), ex').
Proof.
  intros Hle. unfold shl_align.
  destruct (ex' - ex) as [|k|k] eqn:Hk; [|lia|].
  - replace (ex - ex') with 0 by lia. rewrite Z.mul_1_r. simpl.
    f_equal. lia.
  - replace (ex - ex') with (Z.pos k) by lia. f_equal.
    apply Pos2Z.inj. rewrite Z2Pos.id.
    + rewrite Z.mul_comm. exact (shift_pos_correct k mx).
    + pose proof (Z.pow_pos_nonneg 2 (Z.pos k)). lia.
Qed.

Lemma shl_align_gt mx ex ex' : ex ≤ ex' → shl_align mx ex ex' = (mx, ex).
Proof.
  intros Hle. unfold shl_align. by destruct (ex' - ex) as [|k|k] eqn:Hk; [| |lia].
Qed.

Lemma Z2Pos_mul_pow mx k :
  0 ≤ k → Z.pos (Z.to_pos (Z.pos mx * 2 ^ k)) = Z.pos mx * 2 ^ k.
Proof.
  intros Hk. rewrite Z2Pos.id; [done|].
  pose proof (Z.pow_pos_nonneg 2 k). lia.
Qed.

(** Rounding the positive [mx * 2 ^ ex], whatever its exponent. *)
Lemma binary_round_value mx ex mB eB :
  0 < mB → fexp (Zdigits2 mB + eB) = eB → eB ≤ 971 →
  (F2Q (Z.pos mx) ex <= F2Q mB eB)%Q →
  let r := binary_round Number.prec Number.emax false mx ex in
  nonneg_upto eB r
  ∧ (value r <= F2Q mB eB)%Q
  ∧ (value r - pow2 eB <= F2Q (Z.pos mx) ex)%Q
  ∧ (F2Q (Z.pos mx) ex <= value r + pow2 eB)%Q.
Proof.
  intros HmB Hcanon HeB Hle. unfold binary_round.
  rewrite <-Zdigits2_pos.
  destruct (Z.le_gt_cases (fexp (Zdigits2 (Z.pos mx) + ex)) ex)
    as [Hshift|Hkeep].
  - rewrite shl_align_le by done.
    set (e' := fexp (Zdigits2 (Z.pos mx) + ex)) in *.
    assert (F2Q (Z.pos (Z.to_pos (Z.pos mx * 2 ^ (ex - e')))) e'
            == F2Q (Z.pos mx) ex)%Q as Hval.
    { rewrite Z2Pos_mul_pow, F2Q_shift by lia.
      by replace (e' + (ex - e')) with ex by lia. }
    destruct (binary_round_aux_value
                (Z.pos (Z.to_pos (Z.pos mx * 2 ^ (ex - e')))) e'
                loc_Exact mB eB) as (H1 & H2 & H3 & H4); try done.
    { rewrite Z2Pos_mul_pow, Zdigits2_mul_pow by lia.
      replace (Zdigits2 (Z.pos mx) + (ex - e') + e')
        with (Zdigits2 (Z.pos mx) + ex) by lia.
      done. }
    { by rewrite Hval. }
    rewrite F2Q_succ, Hval in H4. rewrite Hval in H3.
    pose proof (pow2_pos e'). split_and!; [done|done|done|lra].
  - rewrite shl_align_gt by lia.
    destruct (binary_round_aux_value (Z.pos mx) ex loc_Exact mB eB)
      as (H1 & H2 & H3 & H4); try done; [lia|].
    rewrite F2Q_succ in H4.
    pose proof (pow2_pos ex). split_and!; [done|done|done|lra].
Qed.

(** An integer below [2 ^ 53] is a double: a mantissa of 53 bits and a
    non-positive exponent. *)
Lemma of_Z_exact z :
  0 < z < 2 ^ 53 →
  ∃ m e,
    Number.of_Z z = S754_finite false m e
    ∧ Zdigits2 (Z.pos m) = 53 ∧ -52 ≤ e ≤ 0
    ∧ (F2Q (Z.pos m) e == inject_Z z)%Q.
Proof.
  intros [Hpos Hlt]. destruct z as [|p|p]; [lia| |lia].
  destruct (Zdigits2_bounds (Z.pos p)) as (Hd & Hlo & Hhi); [done|].
  assert (Zdigits2 (Z.pos p) ≤ 53) as Hd53.
  { apply Zdigits2_le_pow; lia. }
  unfold Number.of_Z, binary_normalize, binary_round.
  rewrite <-Zdigits2_pos.
  set (d := Zdigits2 (Z.pos p)) in *.
  assert (fexp (d + 0) = d - 53) as -> by (rewrite fexp_spec; lia).
  rewrite shl_align_le by lia.
  exists (Z.to_pos (Z.pos p * 2 ^ (0 - (d - 53)))), (d - 53).
  assert (Zdigits2 (Z.pos (Z.to_pos (Z.pos p * 2 ^ (0 - (d - 53))))) = 53)
    as Hdig.
  { rewrite Z2Pos_mul_pow, Zdigits2_mul_pow by lia. fold d. lia. }
  split_and!; [|done|lia|lia|].
  - apply binary_round_aux_canonical; [|lia].
    rewrite <-Zdigits2_pos, Hdig, fexp_spec. lia.
  - rewrite Z2Pos_mul_pow, F2Q_shift by lia.
    replace (d - 53 + (0 - (d - 53))) with 0 by lia.
    unfold F2Q. change (pow2 0) with 1%Q. ring.
Qed.

End Operations.

Section Division.
Local Open Scope Z_scope.

Local Abbreviation fexp := (SpecFloat.fexp Number.prec Number.emax).

Lemma new_location_zero n : new_location n 0 = loc_Exact.
Proof. unfold new_location. by destruct (IntDef.Z.even n). Qed.

(** The integer division at the heart of [x / y], for two doubles with
    53-bit mantissas. *)
Lemma SFdiv_core_binary_normal m1 e1 m2 e2 :
  Zdigits2 m1 = 53 → Zdigits2 m2 = 53 → -1021 ≤ e1 - e2 →
  SFdiv_core_binary Number.prec Number.emax m1 e1 m2 e2
  = (m1 * 2 ^ 53 / m2, e1 - e2 - 53,
     new_location m2 ((m1 * 2 ^ 53) `mod` m2)).
Proof.
  intros Hd1 Hd2 He. unfold SFdiv_core_binary. rewrite Hd1, Hd2.
  cbv zeta. rewrite fexp_spec.
  change IntDef.Z.min with Z.min. change IntDef.Z.shiftl with Z.shiftl.
  change IntDef.Z.div_eucl with Z.div_eucl.
  replace (Z.min (Z.max (53 + e1 - (53 + e2) - 53) (-1074)) (e1 - e2))
    with (e1 - e2 - 53) by lia.
  replace (e1 - e2 - (e1 - e2 - 53)) with 53 by lia.
  cbv iota. rewrite Z.shiftl_mul_pow2 by lia.
  unfold Z.div, Z.modulo. by destruct (Z.div_eucl _ _).
Qed.

(** [x / y] for positive doubles with 53-bit mantissas whose quotient
    does not exceed the double [mB * 2 ^ eB]: the result does not exceed
    it either, is less than [2 ^ eB] away from the quotient, and is at
    least 1 if the quotient is. *)
Lemma div_value mx ex my ey mB eB (x : Q) :
  Zdigits2 (Z.pos mx) = 53 → Zdigits2 (Z.pos my) = 53 →
  -52 ≤ ex ≤ 0 → -52 ≤ ey ≤ 0 →
  0 < mB → fexp (Zdigits2 mB + eB) = eB → eB ≤ 971 →
  (x * F2Q (Z.pos my) ey == F2Q (Z.pos mx) ex)%Q → (x <= F2Q mB eB)%Q →
  let q := Number.div (S754_finite false mx ex) (S754_finite false my ey) in
  nonneg_upto eB q
  ∧ (value q <= F2Q mB eB)%Q
  ∧ (value q - pow2 eB <= x)%Q ∧ (x <= value q + pow2 eB)%Q
  ∧ ((1 <= x)%Q → (1 <= value q)%Q).
Proof.
  intros Hdx Hdy Hex Hey HmB Hcanon HeB Hx HxB.
  unfold Number.div, SFdiv.
  rewrite SFdiv_core_binary_normal by (done || lia).
  set (ez := ex - ey - 53).
  set (q0 := Z.pos mx * 2 ^ 53 / Z.pos my).
  set (r0 := (Z.pos mx * 2 ^ 53) `mod` Z.pos my).
  pose proof (Z.div_mod (Z.pos mx * 2 ^ 53) (Z.pos my) ltac:(lia)) as Hdiv.
  pose proof (Z.mod_pos_bound (Z.pos mx * 2 ^ 53) (Z.pos my) ltac:(lia))
    as Hrem.
  fold q0 r0 in Hdiv, Hrem.
  destruct (Zdigits2_bounds (Z.pos mx)) as (_ & Hlox & Hhix); [done|].
  destruct (Zdigits2_bounds (Z.pos my)) as (_ & Hloy & Hhiy); [done|].
  rewrite Hdx in Hlox, Hhix. rewrite Hdy in Hloy, Hhiy.
  assert (2 ^ 52 ≤ q0) as Hq0.
  { apply Z.div_le_lower_bound; [lia|].
    change (2 ^ 53) with 9007199254740992 in *.
    change (2 ^ (53 - 1)) with 4503599627370496 in *.
    change (2 ^ 52) with 4503599627370496. nia. }
  assert (52 < Zdigits2 q0) as Hdq by (apply Zdigits2_gt_pow; lia).
  (* the scale shared by the dividend and the products with the divisor *)
  set (c := (pow2 ez * pow2 ey)%Q).
  assert (0 < c)%Q as Hc.
  { pose proof (pow2_pos ez). pose proof (pow2_pos ey).
    apply Qmult_lt_0_compat; done. }
  assert (F2Q (Z.pos mx) ex == inject_Z (Z.pos mx * 2 ^ 53) * c)%Q as Hnum.
  { unfold F2Q, c. rewrite inject_Z_mult, <-pow2_Z by lia.
    replace ex with (53 + (ez + ey)) at 1 by (unfold ez; lia).
    rewrite !pow2_add. ring. }
  assert (∀ k, F2Q k ez * F2Q (Z.pos my) ey
               == inject_Z (k * Z.pos my) * c)%Q as Hprod.
  { intros k. unfold F2Q, c. rewrite inject_Z_mult. ring. }
  assert (0 < F2Q (Z.pos my) ey)%Q as Hy.
  { rewrite <-(F2Q_0 ey). by apply F2Q_lt. }
  assert (F2Q q0 ez * F2Q (Z.pos my) ey <= F2Q (Z.pos mx) ex)%Q as Hlow.
  { rewrite Hprod, Hnum. apply Qmult_le_compat_r; [|lra].
    rewrite <-Zle_Qle. lia. }
  assert (F2Q (Z.pos mx) ex <= F2Q (q0 + 1) ez * F2Q (Z.pos my) ey)%Q
    as Hhigh.
  { rewrite Hprod, Hnum. apply Qmult_le_compat_r; [|lra].
    rewrite <-Zle_Qle. lia. }
  assert (F2Q q0 ez <= x)%Q as Hqx.
  { apply (Qmult_le_r _ _ (F2Q (Z.pos my) ey)); [done|]. by rewrite Hx. }
  assert (x <= F2Q (q0 + 1) ez)%Q as Hxq.
  { apply (Qmult_le_r _ _ (F2Q (Z.pos my) ey)); [done|]. by rewrite Hx. }
  assert (F2Q q0 ez == F2Q mB eB → new_location (Z.pos my) r0 = loc_Exact)%Q
    as Hexact.
  { intros Heq.
    assert (x == F2Q q0 ez)%Q as Hxeq by lra.
    assert (inject_Z (q0 * Z.pos my) * c
            == inject_Z (Z.pos mx * 2 ^ 53) * c)%Q as Hsame.
    { rewrite <-Hprod, <-Hnum, <-Hx, Hxeq. reflexivity. }
    apply Qmult_inj_r in Hsame; [|lra].
    apply (proj1 (inject_Z_injective _ _)) in Hsame.
    rewrite (Z.mul_comm q0) in Hsame.
    replace r0 with 0 by (rewrite <-Hsame in Hdiv; lia).
    apply new_location_zero. }
  assert (ez ≤ fexp (Zdigits2 q0 + ez)) as Hez by (rewrite fexp_spec; lia).
  destruct (binary_round_aux_value q0 ez
              (new_location (Z.pos my) r0) mB eB)
    as (H1 & H2 & H3 & H4); [lia|done|done|done|done|lra|done|].
  cbn [xorb]. split_and!; [done|done|lra|lra|].
  intros Hx1.
  change 1%Q with (pow2 0).
  apply (binary_round_aux_lower q0 ez _ mB eB);
    [lia|done|done|done|done|lra|done|lia|].
  assert (F2Q (2 ^ (- ez)) ez == pow2 0)%Q as Hunit.
  { unfold F2Q. rewrite <-pow2_Z, <-pow2_add by (unfold ez; lia).
    by replace (- ez + ez) with 0 by lia. }
  rewrite <-Hunit. apply F2Q_le, Z.div_le_lower_bound; [lia|].
  rewrite Zle_Qle.
  apply (Qmult_le_r _ _ c); [done|].
  rewrite (Z.mul_comm (Z.pos my)), <-Hprod, <-Hnum, Hunit, <-Hx.
  change (pow2 0) with 1%Q.
  apply Qmult_le_compat_r; lra.
Qed.

End Division.

Section Formula.
Local Open Scope Z_scope.

Local Abbreviation fexp := (SpecFloat.fexp Number.prec Number.emax).

Lemma of_Z_0 : Number.of_Z 0 = S754_zero false.
Proof. reflexivity. Qed.

Lemma of_Z_1 : Number.of_Z 1 = S754_finite false 4503599627370496 (-52).
Proof. reflexivity. Qed.

Lemma of_Z_100 : Number.of_Z 100 = S754_finite false 7036874417766400 (-46).
Proof. reflexivity. Qed.

Lemma F2Q_sub a b e : (F2Q (a - b) e == F2Q a e - F2Q b e)%Q.
Proof. unfold F2Q, Z.sub. rewrite inject_Z_plus, inject_Z_opp. ring. Qed.

Lemma F2Q_mul a b e e' : (F2Q (a * b) (e + e') == F2Q a e * F2Q b e')%Q.
Proof. unfold F2Q. rewrite inject_Z_mult, pow2_add. ring. Qed.

(** [1 - q] for a double [0 <= q <= 1]. *)
Lemma one_minus_value q :
  nonneg_upto (-52) q → (value q <= 1)%Q →
  let s := Number.sub (Number.of_Z 1) q in
  nonneg_upto (-52) s
  ∧ (value s <= 1)%Q
  ∧ (value s - pow2 (-52) <= 1 - value q)%Q
  ∧ (1 - value q <= value s + pow2 (-52))%Q.
Proof.
  intros Hq Hq1. cbv zeta. rewrite of_Z_1.
  assert (F2Q (2 ^ 52) (-52) == 1)%Q as Hone by reflexivity.
  pose proof (pow2_pos (-52)) as Hpow.
  destruct q as [[]| | |[] m e]; try done.
  simpl in Hq, Hq1. unfold Number.sub, SFsub.
    change IntDef.Z.min with Z.min.
    replace (Z.min (-52) e) with e by lia.
    rewrite shl_align_le, (shl_align_le m e e) by lia.
    cbn [fst cond_Zopp]. rewrite !Z2Pos_mul_pow by lia.
    rewrite Z.sub_diag, Z.mul_1_r.
    set (M := Z.pos 4503599627370496 * 2 ^ (-52 - e) - Z.pos m).
    assert (F2Q M e == 1 - F2Q (Z.pos m) e)%Q as HM.
    { unfold M. rewrite F2Q_sub, F2Q_shift by lia.
      replace (e + (-52 - e)) with (-52) by lia.
      change (Z.pos 4503599627370496) with (2 ^ 52). by rewrite Hone. }
    assert (0 < F2Q (Z.pos m) e)%Q as Hpos.
    { rewrite <-(F2Q_0 e). by apply F2Q_lt. }
  destruct M as [|p|p] eqn:HMeq; unfold binary_normalize.
    + rewrite F2Q_0 in HM. simpl value. split_and!; [done|lra..].
    + destruct (binary_round_value p e (2 ^ 52) (-52))
        as (H1 & H2 & H3 & H4); try done.
      { rewrite Hone, HM. lra. }
      rewrite Hone in H2. rewrite HM in H3, H4. done.
    + assert (F2Q (Z.neg p) e < F2Q 0 e)%Q as Hneg by (by apply F2Q_lt).
      rewrite F2Q_0 in Hneg. lra.
Qed.

(** [x * 100] for a double [x >= 0] whose product does not exceed the
    double [mB * 2 ^ eB]. *)
Lemma mul_100_value x eX mB eB :
  nonneg_upto eX x →
  0 < mB → fexp (Zdigits2 mB + eB) = eB → eB ≤ 971 →
  (value x * 100 <= F2Q mB eB)%Q →
  let r := Number.mul x (Number.of_Z 100) in
  nonneg_upto eB r
  ∧ (value r <= F2Q mB eB)%Q
  ∧ (value r - pow2 eB <= value x * 100)%Q
  ∧ (value x * 100 <= value r + pow2 eB)%Q.
Proof.
  intros Hx HmB Hcanon HeB Hle. cbv zeta. rewrite of_Z_100.
  pose proof (pow2_pos eB) as Hpow.
  assert (F2Q 7036874417766400 (-46) == 100)%Q as Hc by reflexivity.
  assert (0 <= F2Q mB eB)%Q as HB.
  { rewrite <-(F2Q_0 eB). apply F2Q_le. lia. }
  destruct x as [[]| | |[] m e]; try done.
  - simpl. split_and!; [done|lra..].
  - simpl in Hle. unfold Number.mul, SFmul. cbn [xorb value cond_Zopp].
    rewrite Pos2Z.inj_mul.
    assert (F2Q (Z.pos m * 7036874417766400) (e + -46)
            == F2Q (Z.pos m) e * 100)%Q as Hval.
    { by rewrite F2Q_mul, Hc. }
    assert (52 < Zdigits2 (Z.pos m * 7036874417766400)) as Hd.
    { apply Zdigits2_gt_pow; [lia|].
      change (2 ^ 52) with 4503599627370496. lia. }
    destruct (binary_round_aux_value (Z.pos m * 7036874417766400)
                (e + -46) loc_Exact mB eB) as (H1 & H2 & H3 & H4);
      [lia|rewrite fexp_spec; lia|done|done|done|by rewrite Hval|done|].
    rewrite F2Q_succ, Hval in H4. rewrite Hval in H3.
    pose proof (pow2_pos (e + -46)). split_and!; [done|done|done|lra].
Qed.

(** [Math.max(0, x)] of a double [x >= 0]. *)
Lemma max_0_nonneg eX x :
  nonneg_upto eX x → Number.max (Number.of_Z 0) x = x.
Proof. by destruct x as [[]| | |[] m e]. Qed.

(** [Math.round] of a double [x >= 0] below [2 ^ 52]: the integer [k]
    with [k - 1/2 <= x < k + 1/2]. *)
Lemma round_value x :
  nonneg_upto (-1) x →
  ∃ k, Number.round x = Number.of_Z k
       ∧ 0 ≤ k
       ∧ (inject_Z k - (1 # 2) <= value x)%Q
       ∧ (value x < inject_Z k + (1 # 2))%Q.
Proof.
  destruct x as [[]| | |[] m e]; try done; intros He.
  - exists 0. cbn [value Number.round]. change (inject_Z 0) with 0%Q.
    split_and!; [done|done|lra|lra].
  - simpl in He. unfold Number.round.
    destruct (Z.leb_spec 0 e) as [|_]; [lia|].
    set (P := 2 ^ (- e)).
    assert (0 < P) as HP by (apply Z.pow_pos_nonneg; lia).
    assert (2 ^ (1 - e) = 2 * P) as ->.
    { unfold P. rewrite <-Z.pow_succ_r by lia. f_equal. lia. }
    set (k := (2 * Z.pos m + P) / (2 * P)).
    exists k.
    pose proof (Z.mul_div_le (2 * Z.pos m + P) (2 * P) ltac:(lia)) as Hlo.
    pose proof (Z.mul_succ_div_gt (2 * Z.pos m + P) (2 * P) ltac:(lia))
      as Hhi.
    fold k in Hlo, Hhi.
    assert (0 ≤ k) as Hk by (apply Z.div_pos; lia).
    split; [done|]. split; [done|].
    assert (F2Q (Z.pos m) e * inject_Z P == inject_Z (Z.pos m))%Q as Hv.
    { unfold F2Q, P. rewrite <-pow2_Z by lia.
      rewrite <-Qmult_assoc, <-pow2_add.
      replace (e + - e) with 0 by lia. change (pow2 0) with 1%Q. ring. }
    assert (0 < inject_Z P)%Q as HPq.
    { change 0%Q with (inject_Z 0). by rewrite <-Zlt_Qlt. }
    cbn [value cond_Zopp]. set (v := F2Q (Z.pos m) e) in *.
    assert (inject_Z (2 * P * k) <= inject_Z (2 * Z.pos m + P))%Q as Hlo'
      by (by rewrite <-Zle_Qle).
    assert (inject_Z (2 * Z.pos m + P) < inject_Z (2 * P * Z.succ k))%Q
      as Hhi' by (by rewrite <-Zlt_Qlt).
    unfold Z.succ in Hhi'.
    rewrite !inject_Z_mult, !inject_Z_plus, !inject_Z_mult in Hlo', Hhi'.
    rewrite inject_Z_plus in Hhi'.
    rewrite <-Hv in Hlo', Hhi'.
    change (inject_Z 2) with 2%Q in *. change (inject_Z 1) with 1%Q in *.
    clear Hv. clearbody v. 
    set (kq := inject_Z k) in *. set (pq := inject_Z P) in *.
    clearbody kq pq.
    split.
    + apply (Qmult_le_r _ _ pq); [done|]. lra.
    + apply (Qmult_lt_r _ _ pq); [done|]. lra.
Qed.

End Formula.

Section Similarity.
Local Open Scope Z_scope.

Local Abbreviation fexp := (SpecFloat.fexp Number.prec Number.emax).

Lemma nonneg_upto_le e e' x : e ≤ e' → nonneg_upto e x → nonneg_upto e' x.
Proof. intros Hle. destruct x as [[]| | |[] m ex]; simpl; try done. lia. Qed.

(** The computation of [calculateSimilarity] for a distance [0 < d <= L]
    and a length [L < 2 ^ 32]: the result is the double of [k / 100] for
    an integer [k] nearest to [10000 * (1 - d / L)]. *)
Lemma similarity_nearest d L :
  0 < d ≤ L → L < 2 ^ 32 →
  ∃ k,
    Number.div
      (Number.round
         (Number.mul
            (Number.max (Number.of_Z 0)
               (Number.mul
                  (Number.sub (Number.of_Z 1)
                     (Number.div (Number.of_Z d) (Number.of_Z L)))
                  (Number.of_Z 100)))
            (Number.of_Z 100)))
      (Number.of_Z 100)
    = Number.div (Number.of_Z k) (Number.of_Z 100)
    ∧ 0 ≤ k ≤ 10000
    ∧ (2 * k - 1) * L ≤ 20000 * (L - d) ≤ (2 * k + 1) * L.
Proof.
  intros Hd HL.
  assert (2 ^ 32 < 2 ^ 53) as Hpow by done.
  destruct (of_Z_exact d) as (md & ed & -> & Hdd & Hed & Hvd); [lia|].
  destruct (of_Z_exact L) as (mL & eL & -> & HdL & HeL & HvL); [lia|].
  set (dq := inject_Z d) in *. set (Lq := inject_Z L) in *.
  assert (0 < dq)%Q as Hdq.
  { change 0%Q with (inject_Z 0). unfold dq. rewrite <-Zlt_Qlt. lia. }
  assert (dq <= Lq)%Q as HdLq by (unfold dq, Lq; rewrite <-Zle_Qle; lia).
  assert (Lq <= 4294967296)%Q as HLq.
  { change 4294967296%Q with (inject_Z (2 ^ 32)). unfold Lq.
    rewrite <-Zle_Qle. lia. }
  set (x := (dq / Lq)%Q).
  assert (x * Lq == dq)%Q as Hx.
  { unfold x. rewrite Qmult_comm. apply Qmult_div_r. lra. }
  assert (x <= 1)%Q as Hx1.
  { apply (Qmult_le_r _ _ Lq); [lra|]. rewrite Hx. lra. }
  (* q = d / L *)
  assert (F2Q (2 ^ 52) (-52) == 1)%Q as H1 by reflexivity.
  destruct (div_value md ed mL eL (2 ^ 52) (-52) x)
    as (Hq & Hq1 & Hq2 & Hq3 & _);
    [done|done|done|done|done|done|done|by rewrite Hvd, HvL|by rewrite H1|].
  rewrite H1 in Hq1.
  set (q := Number.div _ _) in *.
  (* s = 1 - q *)
  destruct (one_minus_value q Hq Hq1) as (Hs & Hs1 & Hs2 & Hs3).
  set (s := Number.sub _ _) in *.
  (* t = s * 100 *)
  assert (F2Q 7036874417766400 (-46) == 100)%Q as H100 by reflexivity.
  destruct (mul_100_value s (-52) 7036874417766400 (-46))
    as (Ht & Ht1 & Ht2 & Ht3); [done|done|done|done|rewrite H100; lra|].
  set (t := Number.mul s _) in *.
  rewrite (max_0_nonneg _ t Ht).
  (* u = t * 100 *)
  assert (F2Q 5497558138880000 (-39) == 10000)%Q as H10000 by reflexivity.
  destruct (mul_100_value t (-46) 5497558138880000 (-39))
    as (Hu & Hu1 & Hu2 & Hu3);
    [done|done|done|done|rewrite H10000, H100 in *; lra|].
  set (u := Number.mul t _) in *.
  (* k = Math.round(u) *)
  destruct (round_value u) as (k & -> & Hk0 & Hk1 & Hk2).
  { by apply (nonneg_upto_le (-39)). }
  exists k. split; [done|].
  set (kq := inject_Z k) in *.
  assert (pow2 (-52) == 1 # 4503599627370496)%Q as He52 by reflexivity.
  assert (pow2 (-46) == 1 # 70368744177664)%Q as He46 by reflexivity.
  assert (pow2 (-39) == 1 # 549755813888)%Q as He39 by reflexivity.
  rewrite H100 in Ht1. rewrite H10000 in Hu1.
  rewrite He52 in *. rewrite He46 in *. rewrite He39 in *.
  set (vq := value q) in *. set (vs := value s) in *.
  set (vt := value t) in *. set (vu := value u) in *.
  clearbody vq vs vt vu.
  assert (k ≤ 10000) as Hk3.
  { enough (k < 10001) by lia. rewrite Zlt_Qlt. fold kq.
    change (inject_Z 10001) with 10001%Q. lra. }
  split; [lia|].
  (* the rounded value is within 1 / (2 L) of the exact one *)
  pose (δ := (1 # 100000000000)%Q).
  assert (kq - (1 # 2) - δ <= 10000 - 10000 * x)%Q as Hlo
    by (unfold δ; lra).
  assert (10000 - 10000 * x <= kq + (1 # 2) + δ)%Q as Hhi
    by (unfold δ; lra).
  assert ((kq - (1 # 2) - δ - 10000 + 10000 * x) * Lq <= 0 * Lq)%Q
    as Hlo' by (apply Qmult_le_compat_r; lra).
  assert (0 * Lq <= (kq + (1 # 2) + δ - 10000 + 10000 * x) * Lq)%Q
    as Hhi' by (apply Qmult_le_compat_r; lra).
  assert (δ * Lq < 1 # 2)%Q as Hδ by (unfold δ; lra).
  clearbody δ.
  split.
  - enough ((2 * k - 1) * L - 1 < 20000 * (L - d)) by lia.
    rewrite Zlt_Qlt.
    unfold Z.sub. rewrite !inject_Z_plus, !inject_Z_mult, !inject_Z_plus,
      !inject_Z_opp, !inject_Z_mult.
    fold kq Lq dq. change (inject_Z 2) with 2%Q.
    change (inject_Z 1) with 1%Q. change (inject_Z 20000) with 20000%Q.
    lra.
  - enough (20000 * (L - d) < (2 * k + 1) * L + 1) by lia.
    rewrite Zlt_Qlt.
    unfold Z.sub. rewrite !inject_Z_plus, !inject_Z_mult, !inject_Z_plus,
      !inject_Z_opp, !inject_Z_mult.
    fold kq Lq dq. change (inject_Z 2) with 2%Q.
    change (inject_Z 1) with 1%Q. change (inject_Z 20000) with 20000%Q.
    lra.
Qed.

End Similarity.

Section Beyond.
Local Open Scope Z_scope.

Local Abbreviation fexp := (SpecFloat.fexp Number.prec Number.emax).

Lemma shr_fexp_nonneg m e l :
  0 ≤ m → 0 ≤ shr_m (shr_fexp Number.prec Number.emax m e l).1.
Proof.
  intros Hm. unfold shr_fexp, shr.
  destruct (fexp (Zdigits2 m + e) - e) as [|p|p]; cbn [fst].
  - by rewrite shr_record_of_loc_m.
  - rewrite iter_pos_nat, shr_iter_m by (by rewrite shr_record_of_loc_m).
    rewrite shr_record_of_loc_m. apply Z.div_pos; lia.
  - by rewrite shr_record_of_loc_m.
Qed.

(** Rounding keeps the sign and never produces a NaN. *)
Lemma binary_round_aux_signed sx mx ex lx :
  0 ≤ mx → signed sx (binary_round_aux Number.prec Number.emax sx mx ex lx).
Proof.
  intros Hmx. unfold binary_round_aux.
  pose proof (shr_fexp_nonneg mx ex lx Hmx) as H1.
  destruct (shr_fexp Number.prec Number.emax mx ex lx) as [mrs1 e1].
  cbn [fst] in H1.
  pose proof (round_nearest_even_bounds (shr_m mrs1)
                (loc_of_shr_record mrs1)) as Hrne.
  set (m2 := round_nearest_even _ _) in *.
  pose proof (shr_fexp_nonneg m2 e1 loc_Exact ltac:(lia)) as H2.
  destruct (shr_fexp Number.prec Number.emax m2 e1 loc_Exact) as [mrs2 e2].
  cbn [fst] in H2.
  destruct (shr_m mrs2) as [|p|p]; [done| |lia].
  by destruct (_ <=? _).
Qed.

Lemma binary_round_signed sx mx ex :
  signed sx (binary_round Number.prec Number.emax sx mx ex).
Proof.
  unfold binary_round. destruct (shl_align _ _ _) as [mz ez].
  by apply binary_round_aux_signed.
Qed.

(** [1 - q] for a double [q >= 1], or [q] infinite. *)
Lemma one_minus_nonpos q :
  q = S754_infinity false ∨ (nonneg_upto 971 q ∧ (1 <= value q)%Q) →
  nonpos (Number.sub (Number.of_Z 1) q).
Proof.
  intros [->|[Hq Hq1]]; [done|]. rewrite of_Z_1.
  assert (F2Q (2 ^ 52) (-52) == 1)%Q as Hone by reflexivity.
  destruct q as [[]| | |[] m e]; try done.
  cbn [value cond_Zopp] in Hq1. unfold Number.sub, SFsub.
  change IntDef.Z.min with Z.min.
  set (ez := Z.min (-52) e).
  rewrite (shl_align_le _ (-52) ez), (shl_align_le m e ez) by lia.
  cbn [fst cond_Zopp]. rewrite !Z2Pos_mul_pow by lia.
  set (M := Z.pos 4503599627370496 * 2 ^ (-52 - ez) - Z.pos m * 2 ^ (e - ez)).
  assert (F2Q M ez == 1 - F2Q (Z.pos m) e)%Q as HM.
  { unfold M. rewrite F2Q_sub, !F2Q_shift by lia.
    replace (ez + (-52 - ez)) with (-52) by lia.
    replace (ez + (e - ez)) with e by lia.
    change (Z.pos 4503599627370496) with (2 ^ 52). by rewrite Hone. }
  destruct M as [|p|p] eqn:HMeq; unfold binary_normalize.
  - done.
  - assert (F2Q 0 ez < F2Q (Z.pos p) ez)%Q as Hpos by (by apply F2Q_lt).
    rewrite F2Q_0 in Hpos. lra.
  - pose proof (binary_round_signed true p ez) as Hs.
    by destruct (binary_round _ _ _ _ _) as [| | |[] ? ?]; simpl in Hs;
      subst.
Qed.

Lemma mul_100_nonpos x : nonpos x → nonpos (Number.mul x (Number.of_Z 100)).
Proof.
  rewrite of_Z_100. destruct x as [s|[]| |[] m e]; try done. intros _.
  unfold Number.mul, SFmul. cbn [xorb].
  pose proof (binary_round_aux_signed true
                (Z.pos (m * 7036874417766400)) (e + -46) loc_Exact
                ltac:(lia)) as Hs.
  by destruct (binary_round_aux _ _ _ _ _ _) as [| | |[] ? ?]; simpl in Hs;
    subst.
Qed.

(** [Math.max(0, x)] of a zero or a negative double. *)
Lemma max_0_nonpos x :
  nonpos x → Number.max (Number.of_Z 0) x = S754_zero false.
Proof. by destruct x as [[]|[]| |[] m e]. Qed.

(** The computation of [calculateSimilarity] for a distance [d] beyond
    the length [L]: the result is 0. *)
Lemma similarity_beyond d L :
  0 < L < d → d < 2 ^ 53 →
  Number.div
    (Number.round
       (Number.mul
          (Number.max (Number.of_Z 0)
             (Number.mul
                (Number.sub (Number.of_Z 1)
                   (Number.div (Number.of_Z d) (Number.of_Z L)))
                (Number.of_Z 100)))
          (Number.of_Z 100)))
    (Number.of_Z 100)
  = S754_zero false.
Proof.
  intros HL Hd.
  destruct (of_Z_exact d) as (md & ed & -> & Hdd & Hed & Hvd); [lia|].
  destruct (of_Z_exact L) as (mL & eL & -> & HdL & HeL & HvL); [lia|].
  set (dq := inject_Z d) in *. set (Lq := inject_Z L) in *.
  assert (0 < Lq)%Q as HLq.
  { change 0%Q with (inject_Z 0). unfold Lq. rewrite <-Zlt_Qlt. lia. }
  assert (1 <= Lq)%Q as HLq1.
  { change 1%Q with (inject_Z 1). unfold Lq. rewrite <-Zle_Qle. lia. }
  assert (Lq <= dq)%Q as HdLq by (unfold dq, Lq; rewrite <-Zle_Qle; lia).
  assert (dq <= 9007199254740992)%Q as Hdq.
  { change 9007199254740992%Q with (inject_Z (2 ^ 53)). unfold dq.
    rewrite <-Zle_Qle. lia. }
  set (x := (dq / Lq)%Q).
  assert (x * Lq == dq)%Q as Hx.
  { unfold x. rewrite Qmult_comm. apply Qmult_div_r. lra. }
  assert (1 <= x)%Q as Hx1.
  { apply (Qmult_le_r _ _ Lq); [lra|]. rewrite Hx. lra. }
  assert (x <= 9007199254740992)%Q as Hx2.
  { apply Qle_trans with dq; [|done].
    rewrite <-Hx. rewrite <-(Qmult_1_r x) at 1.
    apply Qmult_le_l; lra. }
  assert (F2Q (2 ^ 52) 1 == 9007199254740992)%Q as HB by reflexivity.
  destruct (div_value md ed mL eL (2 ^ 52) 1 x)
    as (Hq & _ & _ & _ & Hq1);
    [done|done|done|done|done|done|done|by rewrite Hvd, HvL|by rewrite HB|].
  set (q := Number.div _ _) in *.
  rewrite max_0_nonpos; [done|].
  apply mul_100_nonpos, one_minus_nonpos. right.
  split; [by apply (nonneg_upto_le 1)|by apply Hq1].
Qed.

End Beyond.

Section Range.
Local Open Scope Z_scope.

Lemma hundredths_in_range :
  forallb (λ k, in_percent_range (hundredth (Z.of_nat k))) (seq 0 (Z.to_nat 10001))
  = true.
Proof. vm_compute. reflexivity. Qed.

(** Every number of hundredths from 0 to 10000 is a double in [0, 100]. *)
Lemma hundredth_in_range k :
  0 ≤ k ≤ 10000 → in_percent_range (hundredth k) = true.
Proof.
  intros Hk. pose proof hundredths_in_range as Hall.
  rewrite List.forallb_forall in Hall.
  specialize (Hall (Z.to_nat k)). rewrite Z2Nat.id in Hall by lia.
  apply Hall, List.in_seq. lia.
Qed.

End Range.

(** ** Splitting and joining *)

Section Splitting.

Lemma splitIntoChars_cons c d rest :
  splitIntoChars (c :: d :: rest) =
    if is_high_surrogate c && is_low_surrogate d
    then [c; d] :: splitIntoChars rest
    else [c] :: splitIntoChars (d :: rest).
Proof. done. Qed.

Lemma join_splitIntoChars text : join (splitIntoChars text) = text.
Proof.
  enough (∀ k text, length text ≤ k → join (splitIntoChars text) = text)
    as Hk by (by apply (Hk (length text))).
  clear text. induction k as [|k IH]; intros text Hlen.
  { destruct text; [done|simpl in Hlen; lia]. }
  destruct text as [|c [|d rest]]; [done..|].
  rewrite splitIntoChars_cons.
  destruct (is_high_surrogate c && is_low_surrogate d).
  - rewrite join_cons, IH by (simpl in *; lia). done.
  - rewrite join_cons, IH by (simpl in *; lia). done.
Qed.

Lemma join_splitWords text :
  ∀ tok,
    join (splitWords tok None text) = tok ++ text
    ∧ ∀ r, join (splitWords tok (Some r) text) = r ++ text.
Proof.
  induction text as [|c rest IH]; intros tok.
  { split; [|intros r]; simpl; by rewrite ?app_nil_r. }
  split; [|intros r]; cbn [splitWords]; destruct (is_js_space c).
  - rewrite join_cons, (proj2 (IH [])). done.
  - rewrite (proj1 (IH _)). by rewrite <-(assoc_L (++)).
  - rewrite (proj2 (IH [])). by rewrite <-(assoc_L (++)).
  - rewrite join_cons, (proj1 (IH _)). done.
Qed.

Lemma join_splitLines text :
  ∀ tok, join (splitLines tok text) = tok ++ text.
Proof.
  induction text as [|c rest IH]; intros tok; simpl.
  { by rewrite app_nil_r. }
  destruct (N.eqb_spec c CHAR_LF) as [->|].
  - rewrite !join_cons, IH. done.
  - rewrite IH. by rewrite <-(assoc_L (++)).
Qed.

(** Whatever the precision, joining the units gives the text back. *)
Lemma join_getSplitFunction precision text :
  join (getSplitFunction precision text) = text.
Proof.
  unfold getSplitFunction.
  repeat (destruct (String.eqb precision _));
    first [apply join_splitIntoChars
          |apply (join_splitWords text [])
          |apply (join_splitLines text [])].
Qed.

End Splitting.

(** ** The alignment engine as a whole *)

Section Engine.
Variables (now : nat → Z) (str1 str2 : list jsstring).
Variable options : LevenshteinOptions.

Lemma lev_cell_same (s : list jsstring) :
  lev_cell s s (length s) (length s) = 0.
Proof.
  pose proof (lev_cell_least s s 0 (edit_cost_refl s)). lia.
Qed.

(** Inside the budget the engine returns the last cell of the reference
    matrix and the optimized backtrace. *)
Lemma calculateLevenshtein_returns :
  within_budget now (effectiveTimeout options) (length str1) →
  ∃ raw,
    rawOperations str1 str2 = Some raw
    ∧ Levenshtein.calculateLevenshtein now str1 str2 options =
        Returns {| editDistance :=
                     lev_cell str1 str2 (length str1) (length str2);
                   operations := optimizeOperations raw |}
    ∧ TextProcessor.calculateLevenshtein now str1 str2 options =
        Returns {| editDistance :=
                     lev_cell str1 str2 (length str1) (length str2);
                   operations := raw |}.
Proof.
  intros Hbudget.
  destruct (rawOperations_spec str1 str2) as (raw & Hraw & _).
  exists raw. split; [done|].
  unfold Levenshtein.calculateLevenshtein,
    TextProcessor.calculateLevenshtein.
  rewrite (fillMatrix_within_budget _ _ _ _ Hbudget).
  unfold rawOperations in Hraw. rewrite Hraw.
  by rewrite filledMatrix_get.
Qed.

(** The engine returns or reports a timeout; it never runs forever. *)
Lemma calculateLevenshtein_outcome :
  (∃ r, Levenshtein.calculateLevenshtein now str1 str2 options = Returns r)
  ∨ Levenshtein.calculateLevenshtein now str1 str2 options
    = Throws LevenshteinTimeout.
Proof.
  destruct (rawOperations_spec str1 str2) as (raw & Hraw & _).
  unfold Levenshtein.calculateLevenshtein.
  destruct (fillMatrix_outcome now (effectiveTimeout options) str1 str2)
    as [-> | ->]; [|by right].
  unfold rawOperations in Hraw. rewrite Hraw. left. by eexists.
Qed.

End Engine.

(** ** The diff as a whole *)

Section Diff.
Variable toLowerCase : jsstring → jsstring.
Variables (now : nat → Z) (options : DiffOptions).

(** Inside the budget [calculateDiff] returns the records of the optimized
    backtrace of the units of the two normalized texts. *)
Lemma calculateDiff_returns text1 text2 :
  within_budget now (diffBudget options)
    (length (diffUnits toLowerCase options text1)) →
  ∃ raw,
    rawOperations (diffUnits toLowerCase options text1)
      (diffUnits toLowerCase options text2) = Some raw
    ∧ calculateDiff toLowerCase now text1 text2 options =
        Returns
          {| res_editDistance :=
               lev_cell (diffUnits toLowerCase options text1)
                 (diffUnits toLowerCase options text2)
                 (length (diffUnits toLowerCase options text1))
                 (length (diffUnits toLowerCase options text2));
             diffs :=
               convertOperationsToDiffRecords (optimizeOperations raw);
             similarity :=
               calculateSimilarity (preprocessText text1)
                 (preprocessText text2)
                 (lev_cell (diffUnits toLowerCase options text1)
                    (diffUnits toLowerCase options text2)
                    (length (diffUnits toLowerCase options text1))
                    (length (diffUnits toLowerCase options text2)));
             text1 := preprocessText text1;
             text2 := preprocessText text2 |}.
Proof.
  intros Hbudget.
  destruct (calculateLevenshtein_returns now
              (diffUnits toLowerCase options text1)
              (diffUnits toLowerCase options text2)
              {| lev_timeout :=
                   Some (default DEFAULT_TIMEOUT (timeout options)) |}
              Hbudget) as (raw & Hraw & Hlev & _).
  exists raw. split; [done|].
  unfold calculateDiff. unfold diffUnits, unitsOf in Hlev.
  by rewrite Hlev.
Qed.

End Diff.

(** * The claims of the specification *)

(** C1, as the code has it. Under a case-sensitive comparison and inside the
    time budget, [calculateDiff A B] returns the two normalized texts; the
    records of the raw, unmerged backtrace operations, replayed against the
    units of the normalized [A], rebuild the normalized [B]; and so do the
    records that [calculateDiff] returns, which are then in position order,
    whenever that raw list has no insert immediately followed by a replace
    at the same position. *)
Theorem replay_reconstructs_target
    (toLowerCase : jsstring → jsstring) (now : nat → Z)
    (A B : jsstring) (options : DiffOptions) :
  default false (ignoreCase options) = false →
  within_budget now (diffBudget options)
    (length (diffUnits toLowerCase options A)) →
  ∃ r raw,
    calculateDiff toLowerCase now A B options = Returns r
    ∧ text1 r = preprocessText A
    ∧ text2 r = preprocessText B
    ∧ rawOperations (unitsOf options (text1 r)) (unitsOf options (text2 r))
      = Some raw
    ∧ replay (unitsOf options (text1 r))
        (convertOperationsToDiffRecords raw) = text2 r
    ∧ (no_insert_then_replace raw →
       in_position_order (diffs r)
       ∧ replay (unitsOf options (text1 r)) (diffs r) = text2 r).
Proof.
  intros Hcase Hbudget.
  destruct (calculateDiff_returns toLowerCase now options A B Hbudget)
    as (raw & Hraw & Hdiff).
  unfold diffUnits in Hraw. rewrite Hcase in Hraw.
  destruct (rawOperations_spec (unitsOf options (preprocessText A))
              (unitsOf options (preprocessText B)))
    as (raw' & Hraw' & _ & Hreplay & Horder & _).
  assert (raw' = raw) as -> by congruence.
  eexists _, raw. split; [exact Hdiff|]. cbn [text1 text2 diffs].
  unfold unitsOf in *. rewrite join_getSplitFunction in Hreplay.
  split_and!; [done..|].
  intros Halone. apply (rawOperations_stand_alone _ _ _ Hraw) in Halone.
  split.
  - by apply optimizeOperations_order.
  - by rewrite optimizeOperations_replay.
Qed.

Lemma replay_reconstructs_target_witness :
  default false (ignoreCase no_options) = false
  ∧ within_budget frozen_clock (diffBudget no_options)
      (length (diffUnits id no_options (js "kitten")))
  ∧ ∃ r raw,
      calculateDiff id frozen_clock (js "kitten") (js "sitting") no_options
      = Returns r
      ∧ text1 r = preprocessText (js "kitten")
      ∧ text2 r = preprocessText (js "sitting")
      ∧ rawOperations (unitsOf no_options (text1 r))
          (unitsOf no_options (text2 r)) = Some raw
      ∧ replay (unitsOf no_options (text1 r))
          (convertOperationsToDiffRecords raw) = text2 r
      ∧ (no_insert_then_replace raw →
         in_position_order (diffs r)
         ∧ replay (unitsOf no_options (text1 r)) (diffs r) = text2 r).
Proof.
  assert (within_budget frozen_clock (diffBudget no_options)
            (length (diffUnits id no_options (js "kitten")))) as Hbudget.
  { intros i _. vm_compute. discriminate. }
  split; [reflexivity|]. split; [exact Hbudget|].
  apply (replay_reconstructs_target id frozen_clock (js "kitten")
           (js "sitting") no_options); [reflexivity|exact Hbudget].
Defined.

(** C1, as stated, fails: for "b" and "ac" the backtrace yields an insert of
    "a" at 0 followed by a replace of "b" by "c" at 0; the optimizer merges
    them into one add of "ac" at 0, and the replay leaves the "b" in. *)
Lemma replay_fails_on_merged_replace :
  ∃ r,
    calculateDiff id frozen_clock (js "b") (js "ac") no_options = Returns r
    ∧ text1 r = js "b"
    ∧ text2 r = js "ac"
    ∧ diffs r = [add_record 0 "ac"]
    ∧ replay (unitsOf no_options (text1 r)) (diffs r) = js "acb"
    ∧ replay (unitsOf no_options (text1 r)) (diffs r) ≠ text2 r.
Proof. eexists. split; [vm_compute; reflexivity|]. by vm_compute. Qed.

(** C2. Inside the time budget, [calculateLevenshtein] fills the matrix so
    that every cell is the cell of the reference matrix of the
    specification, and the edit distance it returns is the last cell, which
    is the minimum number of single-unit inserts, deletes and replaces that
    turn [str1] into [str2]; for the characters of "kitten" and "sitting" it
    is 3. *)
Theorem editDistance_is_minimum
    (now : nat → Z) (str1 str2 : list jsstring)
    (options : LevenshteinOptions) :
  within_budget now (effectiveTimeout options) (length str1) →
  ∃ dp r,
    fillMatrix now (effectiveTimeout options) str1 str2 = Returns dp
    ∧ (∀ i j, i ≤ length str1 → j ≤ length str2 →
              get dp i j = lev_cell str1 str2 i j)
    ∧ Levenshtein.calculateLevenshtein now str1 str2 options = Returns r
    ∧ editDistance r = get dp (length str1) (length str2)
    ∧ minimum_edits str1 str2 (editDistance r)
    ∧ (str1 = chars "kitten" → str2 = chars "sitting" → editDistance r = 3).
Proof.
  intros Hbudget.
  destruct (calculateLevenshtein_returns now str1 str2 options Hbudget)
    as (raw & _ & Hlev & _).
  eexists _, _.
  split; [by apply fillMatrix_within_budget|].
  split; [intros i j; apply filledMatrix_get|].
  split; [exact Hlev|]. cbn [editDistance].
  split; [by rewrite filledMatrix_get|].
  split; [apply lev_cell_minimum|].
  intros -> ->. by vm_compute.
Qed.

Lemma editDistance_is_minimum_witness :
  within_budget frozen_clock
    (effectiveTimeout {| lev_timeout := None |}) (length (chars "kitten"))
  ∧ ∃ dp r,
      fillMatrix frozen_clock (effectiveTimeout {| lev_timeout := None |})
        (chars "kitten") (chars "sitting") = Returns dp
      ∧ (∀ i j, i ≤ length (chars "kitten") →
                j ≤ length (chars "sitting") →
                get dp i j = lev_cell (chars "kitten") (chars "sitting") i j)
      ∧ Levenshtein.calculateLevenshtein frozen_clock (chars "kitten")
          (chars "sitting") {| lev_timeout := None |} = Returns r
      ∧ editDistance r
        = get dp (length (chars "kitten")) (length (chars "sitting"))
      ∧ minimum_edits (chars "kitten") (chars "sitting") (editDistance r)
      ∧ (chars "kitten" = chars "kitten" →
         chars "sitting" = chars "sitting" → editDistance r = 3).
Proof.
  assert (within_budget frozen_clock
            (effectiveTimeout {| lev_timeout := None |})
            (length (chars "kitten"))) as Hbudget.
  { intros i _. vm_compute. discriminate. }
  split; [exact Hbudget|].
  apply (editDistance_is_minimum frozen_clock (chars "kitten")
           (chars "sitting") {| lev_timeout := None |} Hbudget).
Defined.

(** C4, as the code has it. The optimizer is a function of the operation
    list, and applying it twice gives what applying it once gives on every
    list in which no insert immediately follows a replace or a delete at
    the same position; the lists that the backtrace produces are such
    lists. *)
Theorem optimizeOperations_idempotent_ordered :
  (∀ ops, inserts_come_first ops →
          optimizeOperations (optimizeOperations ops)
          = optimizeOperations ops)
  ∧ (∀ str1 str2 raw,
        rawOperations str1 str2 = Some raw →
        inserts_come_first raw
        ∧ optimizeOperations (optimizeOperations raw)
          = optimizeOperations raw).
Proof.
  split; [apply optimizeOperations_idempotent|].
  intros str1 str2 raw Hraw.
  destruct (rawOperations_spec str1 str2) as (raw' & Hraw' & _ & _ & _ & ?).
  assert (raw' = raw) as -> by congruence.
  split; [done|]. by apply optimizeOperations_idempotent.
Qed.

Lemma optimizeOperations_idempotent_ordered_witness :
  let ops := [sample_insert 0 "a"; sample_insert 0 "b";
              sample_replace 0 "x" "y"; sample_delete 1 "z"] in
  (inserts_come_first ops
   ∧ optimizeOperations (optimizeOperations ops) = optimizeOperations ops)
  ∧ (rawOperations (chars "b") (chars "ac")
     = Some [sample_insert 0 "a"; sample_replace 0 "b" "c"]
     ∧ inserts_come_first [sample_insert 0 "a"; sample_replace 0 "b" "c"]
     ∧ optimizeOperations
         (optimizeOperations
            [sample_insert 0 "a"; sample_replace 0 "b" "c"])
       = optimizeOperations
           [sample_insert 0 "a"; sample_replace 0 "b" "c"]).
Proof.
  intros ops. split.
  - split; [reflexivity|].
    apply (proj1 optimizeOperations_idempotent_ordered ops). reflexivity.
  - split; [reflexivity|].
    apply (proj2 optimizeOperations_idempotent_ordered
             (chars "b") (chars "ac")). reflexivity.
Defined.

(** C4, as stated, fails: a delete that the optimizer drops because it
    follows an insert at its position can separate two inserts at that
    position; the first pass leaves them side by side and the second pass
    merges them. *)
Lemma optimizeOperations_not_idempotent :
  let ops := [sample_insert 0 "a"; sample_delete 0 "x";
              sample_insert 0 "b"] in
  optimizeOperations ops = [sample_insert 0 "a"; sample_insert 0 "b"]
  ∧ optimizeOperations (optimizeOperations ops) = [sample_insert 0 "ab"]
  ∧ optimizeOperations (optimizeOperations ops) ≠ optimizeOperations ops.
Proof. by vm_compute. Qed.

(** C5, as the code has it. Inside the time budget,
    [calculateDiff "abc" ""] with the default options returns edit distance
    3, three delete records, one per character, at positions 0, 1 and 2,
    and similarity 0: the optimizer merges inserts only. *)
Theorem diff_abc_empty
    (toLowerCase : jsstring → jsstring) (now : nat → Z) :
  within_budget now 5000 3 →
  calculateDiff toLowerCase now (js "abc") (js "") no_options =
    Returns {| res_editDistance := 3;
               diffs := [delete_record 0 "a"; delete_record 1 "b";
                         delete_record 2 "c"];
               similarity := Number.of_Z 0;
               text1 := js "abc";
               text2 := js "" |}.
Proof.
  intros Hbudget.
  destruct (calculateDiff_returns toLowerCase now no_options
              (js "abc") (js "") Hbudget) as (raw & Hraw & ->).
  vm_compute in Hraw. injection Hraw as <-. by vm_compute.
Qed.

Lemma diff_abc_empty_witness :
  within_budget frozen_clock 5000 3
  ∧ calculateDiff id frozen_clock (js "abc") (js "") no_options =
      Returns {| res_editDistance := 3;
                 diffs := [delete_record 0 "a"; delete_record 1 "b";
                           delete_record 2 "c"];
                 similarity := Number.of_Z 0;
                 text1 := js "abc";
                 text2 := js "" |}.
Proof.
  assert (within_budget frozen_clock 5000 3) as Hbudget.
  { intros i _. vm_compute. discriminate. }
  split; [exact Hbudget|].
  apply (diff_abc_empty id frozen_clock Hbudget).
Defined.

(** C5, as stated, fails: the record list is not the single delete record
    with content "abc" at position 0. *)
Lemma diff_abc_empty_not_single_record :
  ∃ r,
    calculateDiff id frozen_clock (js "abc") (js "") no_options = Returns r
    ∧ res_editDistance r = 3
    ∧ similarity r = Number.of_Z 0
    ∧ length (diffs r) = 3
    ∧ diffs r ≠ [delete_record 0 "abc"].
Proof. eexists. split; [vm_compute; reflexivity|]. by vm_compute. Qed.



(** C7. Inside the time budget, the alignment without the optimization pass
    (the [calculateLevenshtein] of textProcessor.ts) returns an edit
    distance equal to the number of operations it returns. *)
Theorem raw_distance_counts_operations
    (now : nat → Z) (str1 str2 : list jsstring)
    (options : LevenshteinOptions) :
  within_budget now (effectiveTimeout options) (length str1) →
  ∃ r,
    TextProcessor.calculateLevenshtein now str1 str2 options = Returns r
    ∧ editDistance r = length (operations r).
Proof.
  intros Hbudget.
  destruct (calculateLevenshtein_returns now str1 str2 options Hbudget)
    as (raw & Hraw & _ & Hlev).
  destruct (rawOperations_spec str1 str2) as (raw' & Hraw' & Hlen & _).
  assert (raw' = raw) as -> by congruence.
  eexists. split; [exact Hlev|]. done.
Qed.

Lemma raw_distance_counts_operations_witness :
  within_budget frozen_clock
    (effectiveTimeout {| lev_timeout := None |}) (length (chars "kitten"))
  ∧ ∃ r,
      TextProcessor.calculateLevenshtein frozen_clock (chars "kitten")
        (chars "sitting") {| lev_timeout := None |} = Returns r
      ∧ editDistance r = length (operations r).
Proof.
  assert (within_budget frozen_clock
            (effectiveTimeout {| lev_timeout := None |})
            (length (chars "kitten"))) as Hbudget.
  { intros i _. vm_compute. discriminate. }
  split; [exact Hbudget|].
  apply (raw_distance_counts_operations frozen_clock (chars "kitten")
           (chars "sitting") {| lev_timeout := None |} Hbudget).
Defined.

(** C8. Inside the time budget, for every text [A] and whatever the
    options, [calculateDiff A A] returns edit distance 0, no diff record and
    similarity 100. *)
Theorem diff_of_equal_texts
    (toLowerCase : jsstring → jsstring) (now : nat → Z)
    (A : jsstring) (options : DiffOptions) :
  within_budget now (diffBudget options)
    (length (diffUnits toLowerCase options A)) →
  calculateDiff toLowerCase now A A options =
    Returns {| res_editDistance := 0;
               diffs := [];
               similarity := Number.of_Z 100;
               text1 := preprocessText A;
               text2 := preprocessText A |}.
Proof.
  intros Hbudget.
  destruct (calculateDiff_returns toLowerCase now options A A Hbudget)
    as (raw & Hraw & ->).
  destruct (rawOperations_spec (diffUnits toLowerCase options A)
              (diffUnits toLowerCase options A))
    as (raw' & Hraw' & Hlen & _).
  assert (raw' = raw) as -> by congruence.
  rewrite lev_cell_same in Hlen |- *.
  apply nil_length_inv in Hlen as ->.
  by rewrite calculateSimilarity_zero.
Qed.

Lemma diff_of_equal_texts_witness :
  within_budget frozen_clock (diffBudget no_options)
    (length (diffUnits id no_options (js "kitten")))
  ∧ calculateDiff id frozen_clock (js "kitten") (js "kitten") no_options =
      Returns {| res_editDistance := 0;
                 diffs := [];
                 similarity := Number.of_Z 100;
                 text1 := preprocessText (js "kitten");
                 text2 := preprocessText (js "kitten") |}.
Proof.
  assert (within_budget frozen_clock (diffBudget no_options)
            (length (diffUnits id no_options (js "kitten")))) as Hbudget.
  { intros i _. vm_compute. discriminate. }
  split; [exact Hbudget|].
  apply (diff_of_equal_texts id frozen_clock (js "kitten") no_options
           Hbudget).
Defined.




(** C10. A timeout of 0 passed to [calculateLevenshtein] is replaced by the
    default budget of 5000 milliseconds: the call is the call without a
    timeout, and it returns whenever the clock stays inside 5000
    milliseconds, although [validateLevenshteinOptions] reports a timeout
    of 0 as invalid. *)
Theorem zero_timeout_falls_back
    (now : nat → Z) (str1 str2 : list jsstring) :
  effectiveTimeout {| lev_timeout := Some 0%Z |} = 5000%Z
  ∧ Levenshtein.calculateLevenshtein now str1 str2
      {| lev_timeout := Some 0%Z |}
    = Levenshtein.calculateLevenshtein now str1 str2
        {| lev_timeout := None |}
  ∧ (within_budget now 5000 (length str1) →
     ∃ r, Levenshtein.calculateLevenshtein now str1 str2
            {| lev_timeout := Some 0%Z |} = Returns r)
  ∧ isValid (validateLevenshteinOptions {| lev_timeout := Some 0%Z |})
    = false.
Proof.
  split_and!; [done..| |done].
  intros Hbudget.
  destruct (calculateLevenshtein_returns now str1 str2
              {| lev_timeout := Some 0%Z |} Hbudget) as (raw & _ & -> & _).
  by eexists.
Qed.

Lemma zero_timeout_falls_back_witness :
  within_budget ticking_clock 5000 (length (chars "kitten"))
  ∧ fillMatrix ticking_clock 0 (chars "kitten") (chars "sitting")
    = Throws LevenshteinTimeout
  ∧ ∃ r, Levenshtein.calculateLevenshtein ticking_clock (chars "kitten")
           (chars "sitting") {| lev_timeout := Some 0%Z |} = Returns r.
Proof.
  assert (within_budget ticking_clock 5000 (length (chars "kitten")))
    as Hbudget.
  { intros i Hi. unfold ticking_clock. simpl in Hi. lia. }
  split; [exact Hbudget|]. split; [reflexivity|].
  apply (proj1 (proj2 (proj2 (zero_timeout_falls_back ticking_clock
                                (chars "kitten") (chars "sitting"))))
           Hbudget).
Defined.

(** ** The similarity in binary64

    The two values of the similarity that the scenarios of the
    specification name are exact in binary64. At a tie between two
    numbers of hundredths the evaluation in doubles decides: at 63 edits
    over 160 units the exact value is 60.625, and the result is the
    double of 60.62. *)

Lemma calculateSimilarity_empty (editDistance : nat) :
  calculateSimilarity [] [] editDistance = Number.of_Z 100.
Proof. done. Qed.

Example calculateSimilarity_disjoint :
  calculateSimilarity (js "abc") (js "xyz") 3 = Number.of_Z 0.
Proof. by vm_compute. Qed.

Example calculateSimilarity_tie :
  calculateSimilarity (replicate 160 CHAR_SPACE) [] 63
  = Number.div (Number.of_Z 6062) (Number.of_Z 100).
Proof. by vm_compute. Qed.

Section SimilarityFormula.
Local Open Scope Z_scope.

Lemma hundredth_10000 : hundredth 10000 = Number.of_Z 100.
Proof. by vm_compute. Qed.

Lemma hundredth_0 : hundredth 0 = S754_zero false.
Proof. by vm_compute. Qed.

Lemma similarity_formula_nearest (d L : nat) k :
  (0 < L)%nat → (d ≤ L)%nat →
  (2 * k - 1) * Z.of_nat L ≤ 20000 * (Z.of_nat L - Z.of_nat d)
    ≤ (2 * k + 1) * Z.of_nat L →
  (inject_Z k - (1 # 2) <= similarity_formula d L * 100)%Q
  ∧ (similarity_formula d L * 100 <= inject_Z k + (1 # 2))%Q.
Proof.
  intros HL Hd [Hlo Hhi]. unfold similarity_formula.
  rewrite Zle_Qle in Hlo, Hhi. unfold Z.sub in Hlo, Hhi.
  rewrite !inject_Z_mult, !inject_Z_plus, !inject_Z_mult in Hlo, Hhi.
  repeat rewrite inject_Z_opp in Hlo. repeat rewrite inject_Z_opp in Hhi.
  change (inject_Z 2) with 2%Q in *. change (inject_Z 1) with 1%Q in *.
  change (inject_Z 20000) with 20000%Q in *.
  set (dq := inject_Z (Z.of_nat d)) in *.
  set (Lq := inject_Z (Z.of_nat L)) in *.
  set (kq := inject_Z k) in *.
  assert (0 < Lq)%Q as HLq.
  { change 0%Q with (inject_Z 0). unfold Lq. rewrite <-Zlt_Qlt. lia. }
  assert (dq <= Lq)%Q as HdLq by (unfold dq, Lq; rewrite <-Zle_Qle; lia).
  set (x := (dq / Lq)%Q).
  assert (x * Lq == dq)%Q as Hx.
  { unfold x. rewrite Qmult_comm. apply Qmult_div_r. lra. }
  assert (x <= 1)%Q as Hx1.
  { apply (Qmult_le_r _ _ Lq); [lra|]. rewrite Hx. lra. }
  rewrite Q.max_r by lra.
  clearbody x kq dq Lq.
  split; apply (Qmult_le_r _ _ Lq); [done|lra|done|lra].
Qed.

Lemma similarity_formula_beyond (d L : nat) :
  (0 < L < d)%nat → (similarity_formula d L == 0)%Q.
Proof.
  intros HL. unfold similarity_formula.
  set (dq := inject_Z (Z.of_nat d)). set (Lq := inject_Z (Z.of_nat L)).
  assert (0 < Lq)%Q as HLq.
  { change 0%Q with (inject_Z 0). unfold Lq. rewrite <-Zlt_Qlt. lia. }
  assert (Lq <= dq)%Q as HdLq by (unfold dq, Lq; rewrite <-Zle_Qle; lia).
  set (x := (dq / Lq)%Q).
  assert (x * Lq == dq)%Q as Hx.
  { unfold x. rewrite Qmult_comm. apply Qmult_div_r. lra. }
  assert (1 <= x)%Q as Hx1.
  { apply (Qmult_le_r _ _ Lq); [lra|]. rewrite Hx. lra. }
  rewrite Q.max_l by lra. ring.
Qed.

(** The similarity is a number of hundredths [k / 100], where [k] is an
    integer from 0 to 10000 nearest to 100 times the formula. *)
Lemma calculateSimilarity_hundredth (text1 text2 : jsstring) (d : nat) :
  let L := (length text1 `max` length text2)%nat in
  Z.of_nat L < 2 ^ 32 → Z.of_nat d < 2 ^ 53 →
  ∃ k,
    calculateSimilarity text1 text2 d = hundredth k
    ∧ 0 ≤ k ≤ 10000
    ∧ ((0 < L)%nat →
       (inject_Z k - (1 # 2) <= similarity_formula d L * 100)%Q
       ∧ (similarity_formula d L * 100 <= inject_Z k + (1 # 2))%Q).
Proof.
  intros L HL Hd. unfold calculateSimilarity. fold L.
  destruct (Nat.eqb_spec L 0) as [HL0|HL0].
  { exists 10000. rewrite hundredth_10000. split_and!; [done|lia|lia|lia]. }
  unfold Number.of_nat.
  destruct (Nat.lt_trichotomy 0 d) as [Hpos|[<-|Hneg]]; [|clear Hd|lia].
  - destruct (Nat.le_gt_cases d L) as [Hle|Hgt].
    + destruct (similarity_nearest (Z.of_nat d) (Z.of_nat L))
        as (k & -> & Hk & Hnear); [lia|done|].
      exists k. split; [done|]. split; [done|]. intros _.
      by apply similarity_formula_nearest; [lia|..].
    + rewrite similarity_beyond by lia.
      exists 0. rewrite hundredth_0. split; [done|]. split; [lia|].
      intros _. rewrite similarity_formula_beyond by lia.
      change (inject_Z 0) with 0%Q. split; lra.
  - exists 10000. rewrite hundredth_10000. split.
    + change (Z.of_nat 0) with 0. rewrite div_zero_positive by lia.
      by vm_compute.
    + split; [lia|]. intros _.
      apply similarity_formula_nearest; [lia|lia|]. simpl Z.of_nat. lia.
Qed.

End SimilarityFormula.

(** C3. With texts shorter than 2^32 code units and an edit distance
    below 2^53 (where integers are doubles), the similarity that
    [calculateSimilarity] returns is the formula
    max(0, 1 - editDistance / max(len(text1), len(text2))) * 100 rounded
    to two decimal places: the double nearest to k / 100 for an integer k
    nearest to 100 times the formula. It is exactly 100 when both texts
    are empty, and it lies in [0, 100]. *)
Theorem similarity_is_rounded_formula
    (text1 text2 : jsstring) (editDistance : nat) :
  (Z.of_nat (length text1 `max` length text2) < 2 ^ 32)%Z →
  (Z.of_nat editDistance < 2 ^ 53)%Z →
  (text1 ≠ [] ∨ text2 ≠ [] →
   rounded_to_two_decimals
     (similarity_formula editDistance (length text1 `max` length text2))
     (calculateSimilarity text1 text2 editDistance))
  ∧ (text1 = [] → text2 = [] →
     calculateSimilarity text1 text2 editDistance = Number.of_Z 100)
  ∧ in_percent_range (calculateSimilarity text1 text2 editDistance) = true.
Proof.
  intros HL Hd.
  destruct (calculateSimilarity_hundredth text1 text2 editDistance HL Hd)
    as (k & Hsim & Hk & Hnear).
  split_and!.
  - intros Hne. exists k.
    destruct Hnear as [Hlo Hhi]; [|done].
    destruct text1, text2; simpl; try lia. by destruct Hne.
  - by intros -> ->.
  - rewrite Hsim. by apply hundredth_in_range.
Qed.

Lemma similarity_is_rounded_formula_witness :
  (Z.of_nat (length (js "kitten") `max` length (js "sitting")) < 2 ^ 32)%Z
  ∧ (Z.of_nat 3 < 2 ^ 53)%Z
  ∧ rounded_to_two_decimals (similarity_formula 3 7)
      (calculateSimilarity (js "kitten") (js "sitting") 3)
  ∧ in_percent_range (calculateSimilarity (js "kitten") (js "sitting") 3)
    = true.
Proof.
  assert (Z.of_nat (length (js "kitten") `max` length (js "sitting"))
          < 2 ^ 32)%Z as HL by reflexivity.
  assert (Z.of_nat 3 < 2 ^ 53)%Z as Hd by reflexivity.
  split; [exact HL|]. split; [exact Hd|].
  pose proof (similarity_is_rounded_formula (js "kitten") (js "sitting") 3
                HL Hd) as (Hround & _ & Hrange).
  split; [|exact Hrange].
  apply Hround. left. discriminate.
Defined.

(** ** Line breaks *)

Section LineBreaks.

Lemma replace_crlf_cons c d rest :
  replace_crlf (c :: d :: rest)
  = if (c =? CHAR_CR)%N && (d =? CHAR_LF)%N
    then CHAR_LF :: replace_crlf rest
    else c :: replace_crlf (d :: rest).
Proof. done. Qed.

Lemma replace_char_no_source c d text : c ≠ d → c ∉ replace_char c d text.
Proof.
  intros Hcd [x [Heq _]]%list_elem_of_fmap.
  destruct (N.eqb_spec x c); congruence.
Qed.

Lemma replace_char_absent c d text : c ∉ text → replace_char c d text = text.
Proof.
  induction text as [|x text IH]; [done|]. intros Hc.
  apply not_elem_of_cons in Hc as [Hx Hc]. unfold replace_char in *.
  cbn [fmap list_fmap]. rewrite IH by done.
  by destruct (N.eqb_spec x c).
Qed.

Lemma replace_char_app c d a b :
  replace_char c d (a ++ b) = replace_char c d a ++ replace_char c d b.
Proof. apply fmap_app. Qed.

Lemma replace_char_length c d text :
  length (replace_char c d text) = length text.
Proof. apply length_fmap. Qed.

(** The scan for CR LF pairs, by the length of the text. *)
Lemma replace_crlf_ind (P : jsstring → Prop) :
  P [] →
  (∀ c, P [c]) →
  (∀ rest, P rest → P (CHAR_CR :: CHAR_LF :: rest)) →
  (∀ c d rest,
     ¬ (c = CHAR_CR ∧ d = CHAR_LF) → P (d :: rest) → P (c :: d :: rest)) →
  ∀ text, P text.
Proof.
  intros Hnil Hone Hpair Hstep text.
  induction (Nat.lt_wf_0_projected length text) as [text _ IH].
  destruct text as [|c [|d rest]]; [done..|].
  destruct (decide (c = CHAR_CR ∧ d = CHAR_LF)) as [[-> ->]|Hne].
  - apply Hpair, IH. simpl. lia.
  - apply Hstep; [done|]. apply IH. simpl. lia.
Qed.

Lemma replace_crlf_step c d rest :
  ¬ (c = CHAR_CR ∧ d = CHAR_LF) →
  replace_crlf (c :: d :: rest) = c :: replace_crlf (d :: rest).
Proof.
  intros Hne. rewrite replace_crlf_cons.
  destruct (N.eqb_spec c CHAR_CR), (N.eqb_spec d CHAR_LF); naive_solver.
Qed.

Lemma replace_crlf_absent text : CHAR_CR ∉ text → replace_crlf text = text.
Proof.
  induction text as [| |rest IH|c d rest Hne IH] using replace_crlf_ind;
    intros Hcr; [done|done|by apply not_elem_of_cons in Hcr as [? _]|].
  rewrite replace_crlf_step by done. f_equal. apply IH.
  by apply not_elem_of_cons in Hcr as [_ ?].
Qed.

Lemma replace_crlf_length text : length (replace_crlf text) ≤ length text.
Proof.
  induction text as [| |rest IH|c d rest Hne IH] using replace_crlf_ind;
    [done|done|simpl in *; lia|].
  rewrite replace_crlf_step by done. simpl in *. lia.
Qed.

(** Cutting a text anywhere but inside a CR LF pair. *)
Lemma replace_crlf_app a b :
  ¬ (last a = Some CHAR_CR ∧ head b = Some CHAR_LF) →
  replace_crlf (a ++ b) = replace_crlf a ++ replace_crlf b.
Proof.
  induction a as [|c|rest IH|c d rest Hne IH] using replace_crlf_ind;
    intros Hcut.
  - done.
  - destruct b as [|d b]; [done|]. simpl app.
    rewrite replace_crlf_step; [done|].
    intros [-> ->]. by apply Hcut.
  - cbn [app]. rewrite !replace_crlf_cons. cbn [N.eqb andb].
    change ((CHAR_CR =? CHAR_CR)%N && (CHAR_LF =? CHAR_LF)%N) with true.
    cbn [app]. f_equal. apply IH.
    intros [Hlast Hhead]. apply Hcut. split; [|done].
    destruct rest; [done|]. by rewrite !last_cons_cons.
  - cbn [app]. rewrite !replace_crlf_step by done.
    cbn [app]. f_equal. apply IH.
    intros [Hlast Hhead]. apply Hcut. split; [|done].
    by rewrite last_cons_cons.
Qed.

(** X1. [normalizeLineBreaks] leaves no carriage return in the text; it
    changes nothing in a text without carriage returns, so a second pass
    changes nothing; and it never makes the text longer. *)
Theorem normalizeLineBreaks_removes_carriage_returns (text : jsstring) :
  (CHAR_CR ∉ normalizeLineBreaks text)
  ∧ (CHAR_CR ∉ text → normalizeLineBreaks text = text)
  ∧ normalizeLineBreaks (normalizeLineBreaks text) = normalizeLineBreaks text
  ∧ length (normalizeLineBreaks text) ≤ length text.
Proof.
  assert (CHAR_CR ∉ normalizeLineBreaks text) as Hno.
  { by apply replace_char_no_source. }
  assert (∀ t, CHAR_CR ∉ t → normalizeLineBreaks t = t) as Hid.
  { intros t Ht. unfold normalizeLineBreaks.
    by rewrite replace_crlf_absent, replace_char_absent. }
  split_and!; [done|apply Hid|by apply Hid|].
  unfold normalizeLineBreaks. rewrite replace_char_length.
  apply replace_crlf_length.
Qed.

Lemma normalizeLineBreaks_removes_carriage_returns_witness :
  (CHAR_CR ∉ js "a") ∧ normalizeLineBreaks (js "a") = js "a".
Proof.
  assert (CHAR_CR ∉ js "a") as Hno by (by intros [= ]%list_elem_of_singleton).
  split; [exact Hno|].
  exact (proj1 (proj2 (normalizeLineBreaks_removes_carriage_returns
                         (js "a"))) Hno).
Defined.

(** X2. [normalizeLineBreaks] works piece by piece: the result for a text
    cut in two, anywhere but between a carriage return and the line feed
    after it, is the two results put together. *)
Theorem normalizeLineBreaks_app (a b : jsstring) :
  ¬ (last a = Some CHAR_CR ∧ head b = Some CHAR_LF) →
  normalizeLineBreaks (a ++ b)
  = normalizeLineBreaks a ++ normalizeLineBreaks b.
Proof.
  intros Hcut. unfold normalizeLineBreaks.
  by rewrite replace_crlf_app, replace_char_app.
Qed.

Lemma normalizeLineBreaks_app_witness :
  ¬ (last [97; CHAR_CR; CHAR_LF]%N = Some CHAR_CR
     ∧ head [CHAR_CR; 98]%N = Some CHAR_LF)
  ∧ normalizeLineBreaks ([97; CHAR_CR; CHAR_LF] ++ [CHAR_CR; 98])%N
    = [97; CHAR_LF; CHAR_LF; 98]%N.
Proof.
  assert (¬ (last [97; CHAR_CR; CHAR_LF]%N = Some CHAR_CR
             ∧ head [CHAR_CR; 98]%N = Some CHAR_LF)) as Hcut.
  { intros [Hlast _]. discriminate Hlast. }
  split; [exact Hcut|].
  rewrite (normalizeLineBreaks_app _ _ Hcut). reflexivity.
Defined.

End LineBreaks.

(** ** White space *)

Section Whitespace.

Lemma runs_at_most_spaces k run j rest :
  runs_at_most k run (replicate j CHAR_SPACE ++ rest)
  = ((j =? 0) || (run + j <=? k)) && runs_at_most k (run + j) rest.
Proof.
  revert run. induction j as [|j IH]; intros run.
  { cbn [replicate app Nat.eqb orb andb]. by rewrite Nat.add_0_r. }
  cbn [replicate app runs_at_most].
  change (CHAR_SPACE =? CHAR_SPACE)%N with true. cbn [Nat.eqb orb].
  rewrite IH. replace (S run + j) with (run + S j) by lia.
  destruct j as [|j]; cbn [Nat.eqb orb].
  - replace (run + 1) with (S run) by lia. by rewrite andb_true_l.
  - destruct (Nat.leb_spec (S run) k), (Nat.leb_spec (run + S (S j)) k);
      simpl; try done; lia.
Qed.

Lemma runs_at_most_flush k run c rest :
  c ≠ CHAR_SPACE →
  runs_at_most k 0 (flush_spaces k run ++ c :: rest)
  = runs_at_most k 0 rest.
Proof.
  intros Hc. unfold flush_spaces. rewrite runs_at_most_spaces.
  set (j := if k <? run then k else run).
  assert (j ≤ k) as Hj by (unfold j; destruct (Nat.ltb_spec k run); lia).
  assert (∀ r, runs_at_most k r (c :: rest) = runs_at_most k 0 rest) as Hr.
  { intros r. cbn [runs_at_most]. by destruct (N.eqb_spec c CHAR_SPACE). }
  rewrite Hr. destruct j; [done|]. cbn [Nat.eqb orb].
  by destruct (Nat.leb_spec (0 + S j) k); [|lia].
Qed.

(** The collapsed text has no run of more than [k] spaces. *)
Lemma collapse_spaces_runs k run text :
  runs_at_most k 0 (collapse_spaces k run text).
Proof.
  revert run. induction text as [|c rest IH]; intros run;
    cbn [collapse_spaces].
  - unfold flush_spaces. rewrite <-(app_nil_r (replicate _ _)).
    rewrite runs_at_most_spaces. cbn [runs_at_most]. rewrite andb_true_r.
    destruct (Nat.ltb_spec k run) as [Hlt|Hge].
    + destruct k; [done|]. cbn [Nat.eqb orb].
      apply Is_true_true, Nat.leb_le. lia.
    + destruct run; [done|]. cbn [Nat.eqb orb].
      apply Is_true_true, Nat.leb_le. lia.
  - destruct (N.eqb_spec c CHAR_SPACE) as [->|Hc]; [apply IH|].
    rewrite runs_at_most_flush by done. apply IH.
Qed.

(** A text without long runs is left as it is. *)
Lemma collapse_spaces_fixed k run text :
  run ≤ k → runs_at_most k run text →
  collapse_spaces k run text = replicate run CHAR_SPACE ++ text.
Proof.
  revert run. induction text as [|c rest IH]; intros run Hrun Hok;
    cbn [collapse_spaces].
  - unfold flush_spaces. rewrite app_nil_r.
    by destruct (Nat.ltb_spec k run); [lia|].
  - cbn [runs_at_most] in Hok.
    destruct (N.eqb_spec c CHAR_SPACE) as [->|Hc].
    + apply andb_True in Hok as [Hle%Is_true_true%Nat.leb_le Hok].
      rewrite IH by done.
      rewrite (cons_middle CHAR_SPACE), app_assoc, <-replicate_cons_app.
      done.
    + unfold flush_spaces. destruct (Nat.ltb_spec k run); [lia|].
      f_equal. f_equal. by rewrite (IH 0) by (done || lia).
Qed.

Lemma runs_at_most_no_run k run text :
  runs_at_most k run text →
  ∀ l r, text ≠ l ++ replicate (S k) CHAR_SPACE ++ r.
Proof.
  intros Hok l. revert run text Hok.
  induction l as [|x l IH]; intros run text Hok r ->.
  - cbn [app] in Hok. rewrite runs_at_most_spaces in Hok.
    cbn [Nat.eqb orb] in Hok.
    apply andb_True in Hok as [Hle%Is_true_true%Nat.leb_le _]. lia.
  - cbn [app runs_at_most] in Hok.
    destruct (x =? CHAR_SPACE)%N.
    + apply andb_True in Hok as [_ Hok]. by eapply IH.
    + by eapply IH.
Qed.

Lemma collapse_spaces_visible k run text :
  visible_units (collapse_spaces k run text) = visible_units text.
Proof.
  assert (∀ j rest, visible_units (replicate j CHAR_SPACE ++ rest)
                    = visible_units rest) as Hspaces.
  { intros j rest. induction j as [|j IHj]; [done|].
    cbn [replicate app]. unfold visible_units in *.
    rewrite filter_cons_False; [done|]. by intros [? _]. }
  revert run. induction text as [|c rest IH]; intros run;
    cbn [collapse_spaces].
  - unfold flush_spaces. rewrite <-(app_nil_r (replicate _ _)).
    by rewrite Hspaces.
  - destruct (N.eqb_spec c CHAR_SPACE) as [->|Hc].
    + rewrite IH. unfold visible_units.
      rewrite filter_cons_False; [done|]. by intros [? _].
    + unfold flush_spaces. rewrite Hspaces. unfold visible_units in *.
      destruct (decide (c ≠ CHAR_SPACE ∧ c ≠ CHAR_TAB)).
      * rewrite !filter_cons_True by done. by rewrite IH.
      * rewrite !filter_cons_False by done. by rewrite IH.
Qed.

Lemma collapse_spaces_length k run text :
  length (collapse_spaces k run text) ≤ run + length text.
Proof.
  assert (∀ r, length (flush_spaces k r) ≤ r) as Hflush.
  { intros r. unfold flush_spaces. rewrite length_replicate.
    destruct (Nat.ltb_spec k r); lia. }
  revert run. induction text as [|c rest IH]; intros run;
    cbn [collapse_spaces].
  - specialize (Hflush run). simpl. lia.
  - destruct (c =? CHAR_SPACE)%N.
    + specialize (IH (S run)). simpl. lia.
    + rewrite length_app. specialize (Hflush run). specialize (IH 0).
      simpl in *. lia.
Qed.

Lemma replace_tab_visible text :
  visible_units (replace_char CHAR_TAB CHAR_SPACE text) = visible_units text.
Proof.
  induction text as [|c rest IH]; [done|].
  unfold replace_char, visible_units in *. cbn [fmap list_fmap].
  destruct (N.eqb_spec c CHAR_TAB) as [->|Hc].
  - rewrite !filter_cons_False; [done|by intros [_ ?]|by intros [? _]].
  - destruct (decide (c ≠ CHAR_SPACE ∧ c ≠ CHAR_TAB)).
    + rewrite !filter_cons_True by done. by f_equal.
    + by rewrite !filter_cons_False by done.
Qed.

Lemma collapse_spaces_absent x k run text :
  x ≠ CHAR_SPACE → x ∉ text → x ∉ collapse_spaces k run text.
Proof.
  intros Hx.
  assert (∀ j, x ∉ replicate j CHAR_SPACE) as Hspaces.
  { by intros j [? _]%elem_of_replicate. }
  revert run. induction text as [|c rest IH]; intros run Habsent;
    cbn [collapse_spaces].
  - apply Hspaces.
  - apply not_elem_of_cons in Habsent as [Hc Habsent].
    destruct (c =? CHAR_SPACE)%N; [by apply IH|].
    apply not_elem_of_app. split; [apply Hspaces|].
    apply not_elem_of_cons. split; [done|by apply IH].
Qed.

Lemma replace_char_other x c d text :
  x ≠ d → x ∉ text → x ∉ replace_char c d text.
Proof.
  intros Hd Habsent [y [-> Hy]]%list_elem_of_fmap.
  destruct (y =? c)%N; [done|]. by apply Habsent.
Qed.

Lemma normalizeWhitespace_unfold text options :
  normalizeWhitespace text options
  = let tabs :=
      if default false (preserveTabs options) then text
      else replace_char CHAR_TAB CHAR_SPACE text in
    if default true (normalizeSpaces options)
       && (0 <? default 2 (maxConsecutiveSpaces options))
    then collapse_spaces (default 2 (maxConsecutiveSpaces options)) 0 tabs
    else tabs.
Proof. unfold normalizeWhitespace. by destruct (default false _). Qed.

(** A text in normal form is left as it is. *)
Lemma normalizeWhitespace_fixed text options :
  (default false (preserveTabs options) = false → CHAR_TAB ∉ text) →
  (default true (normalizeSpaces options) = true →
   0 < default 2 (maxConsecutiveSpaces options) →
   runs_at_most (default 2 (maxConsecutiveSpaces options)) 0 text) →
  normalizeWhitespace text options = text.
Proof.
  intros Htab Hruns. rewrite normalizeWhitespace_unfold. cbv zeta.
  assert ((if default false (preserveTabs options) then text
           else replace_char CHAR_TAB CHAR_SPACE text) = text) as ->.
  { destruct (default false _); [done|]. by apply replace_char_absent, Htab. }
  destruct (default true _); [|done].
  destruct (Nat.ltb_spec 0 (default 2 (maxConsecutiveSpaces options)));
    [|done].
  cbn [andb]. by rewrite collapse_spaces_fixed by (lia || by apply Hruns).
Qed.

Lemma normalizeWhitespace_runs text options :
  default true (normalizeSpaces options) = true →
  0 < default 2 (maxConsecutiveSpaces options) →
  runs_at_most (default 2 (maxConsecutiveSpaces options)) 0
    (normalizeWhitespace text options).
Proof.
  intros Hns Hk. rewrite normalizeWhitespace_unfold, Hns. cbv zeta.
  destruct (Nat.ltb_spec 0 (default 2 (maxConsecutiveSpaces options)));
    [|lia].
  cbn [andb]. apply collapse_spaces_runs.
Qed.

Lemma normalizeWhitespace_absent x text options :
  x ≠ CHAR_SPACE → x ∉ text → x ∉ normalizeWhitespace text options.
Proof.
  intros Hx Habsent. rewrite normalizeWhitespace_unfold. cbv zeta.
  assert (x ∉ (if default false (preserveTabs options) then text
               else replace_char CHAR_TAB CHAR_SPACE text)) as Htabs.
  { destruct (default false _); [done|]. by apply replace_char_other. }
  destruct (_ && _); [by apply collapse_spaces_absent|done].
Qed.

Lemma normalizeWhitespace_no_tab text options :
  default false (preserveTabs options) = false →
  CHAR_TAB ∉ normalizeWhitespace text options.
Proof.
  intros Hpt. rewrite normalizeWhitespace_unfold, Hpt. cbv zeta.
  assert (CHAR_TAB ∉ replace_char CHAR_TAB CHAR_SPACE text) as Htabs.
  { by apply replace_char_no_source. }
  destruct (_ && _); [by apply collapse_spaces_absent|done].
Qed.

(** X3. [normalizeWhitespace] leaves no tab unless tabs are preserved, and
    no run of more than [maxConsecutiveSpaces] spaces when the spaces are
    normalized with a positive maximum; with the same options a second
    pass changes nothing. *)
Theorem normalizeWhitespace_normal_form
    (text : jsstring) (options : WhitespaceOptions) :
  (default false (preserveTabs options) = false →
   CHAR_TAB ∉ normalizeWhitespace text options)
  ∧ (default true (normalizeSpaces options) = true →
     0 < default 2 (maxConsecutiveSpaces options) →
     ∀ l r, normalizeWhitespace text options
            ≠ l ++ replicate (S (default 2 (maxConsecutiveSpaces options)))
                     CHAR_SPACE ++ r)
  ∧ normalizeWhitespace (normalizeWhitespace text options) options
    = normalizeWhitespace text options.
Proof.
  split_and!.
  - apply normalizeWhitespace_no_tab.
  - intros Hns Hk. eapply runs_at_most_no_run.
    by apply normalizeWhitespace_runs.
  - apply normalizeWhitespace_fixed.
    + apply normalizeWhitespace_no_tab.
    + apply normalizeWhitespace_runs.
Qed.

Lemma normalizeWhitespace_normal_form_witness :
  (CHAR_TAB ∉ normalizeWhitespace (js "a    b") no_whitespace_options)
  ∧ ∀ l r, normalizeWhitespace (js "a    b") no_whitespace_options
           ≠ l ++ replicate 3 CHAR_SPACE ++ r.
Proof.
  pose proof (normalizeWhitespace_normal_form (js "a    b")
                no_whitespace_options) as (Htab & Hruns & _).
  split; [by apply Htab|]. apply Hruns; [reflexivity|simpl; lia].
Defined.

(** X4. [normalizeWhitespace] changes white space only: the units that are
    not spaces or tabs are kept, in their order, and the text never gets
    longer. A maximum of 0 does not remove the spaces: it switches the
    normalization of spaces off. *)
Theorem normalizeWhitespace_keeps_visible
    (text : jsstring) (options : WhitespaceOptions) :
  visible_units (normalizeWhitespace text options) = visible_units text
  ∧ length (normalizeWhitespace text options) ≤ length text
  ∧ (maxConsecutiveSpaces options = Some 0 →
     normalizeWhitespace text options
     = if default false (preserveTabs options) then text
       else replace_char CHAR_TAB CHAR_SPACE text).
Proof.
  rewrite normalizeWhitespace_unfold. cbv zeta.
  set (tabs := if default false (preserveTabs options) then text
               else replace_char CHAR_TAB CHAR_SPACE text).
  assert (visible_units tabs = visible_units text) as Hvis.
  { unfold tabs. destruct (default false _); [done|].
    apply replace_tab_visible. }
  assert (length tabs = length text) as Hlen.
  { unfold tabs. destruct (default false _); [done|].
    apply replace_char_length. }
  split_and!.
  - destruct (_ && _); [by rewrite collapse_spaces_visible|done].
  - destruct (_ && _); [|lia].
    pose proof (collapse_spaces_length
                  (default 2 (maxConsecutiveSpaces options)) 0 tabs). lia.
  - intros ->. cbn [default Nat.ltb Nat.leb]. by rewrite andb_false_r.
Qed.

Lemma normalizeWhitespace_keeps_visible_witness :
  maxConsecutiveSpaces
    {| preserveTabs := Some true; normalizeSpaces := None;
       maxConsecutiveSpaces := Some 0 |} = Some 0
  ∧ normalizeWhitespace (js "a    b")
      {| preserveTabs := Some true; normalizeSpaces := None;
         maxConsecutiveSpaces := Some 0 |} = js "a    b".
Proof.
  split; [reflexivity|].
  exact (proj2 (proj2 (normalizeWhitespace_keeps_visible (js "a    b")
                         {| preserveTabs := Some true;
                            normalizeSpaces := None;
                            maxConsecutiveSpaces := Some 0 |})) eq_refl).
Defined.

End Whitespace.

(** ** Preprocessing *)

Section Preprocessing.

Lemma preprocessText_unfold text :
  preprocessText text
  = normalizeWhitespace (normalizeLineBreaks (removeBOM text))
      no_whitespace_options.
Proof. reflexivity. Qed.

Lemma removeBOM_cases text :
  removeBOM text = text ∧ head text ≠ Some CHAR_BOM
  ∨ text = CHAR_BOM :: removeBOM text.
Proof.
  destruct text as [|c rest]; [by left|]. cbn [removeBOM].
  destruct (N.eqb_spec c CHAR_BOM) as [->|Hc]; [by right|].
  left. split; [done|]. by intros [= ].
Qed.

Lemma removeBOM_length text : length (removeBOM text) ≤ length text.
Proof.
  destruct (removeBOM_cases text) as [[-> _]|Heq]; [done|].
  rewrite Heq at 2. simpl. lia.
Qed.

(** X5. The text that [preprocessText] returns, as [calculateDiff] calls
    it, has no carriage return, no tab and no run of three spaces, and is
    not longer than the text given. *)
Theorem preprocessText_normal_form (text : jsstring) :
  (CHAR_CR ∉ preprocessText text)
  ∧ (CHAR_TAB ∉ preprocessText text)
  ∧ (∀ l r, preprocessText text ≠ l ++ replicate 3 CHAR_SPACE ++ r)
  ∧ length (preprocessText text) ≤ length text.
Proof.
  rewrite preprocessText_unfold. split_and!.
  - apply normalizeWhitespace_absent; [done|].
    by apply replace_char_no_source.
  - by apply normalizeWhitespace_no_tab.
  - eapply runs_at_most_no_run.
    by apply (normalizeWhitespace_runs _ no_whitespace_options);
      [|simpl; lia].
  - pose proof (normalizeWhitespace_keeps_visible
                  (normalizeLineBreaks (removeBOM text))
                  no_whitespace_options) as (_ & Hlen & _).
    pose proof (removeBOM_length text).
    unfold normalizeLineBreaks in *. rewrite replace_char_length in Hlen.
    pose proof (replace_crlf_length (removeBOM text)). lia.
Qed.

(** X6. A second pass of [preprocessText] removes one more byte order
    mark and changes nothing else: the preprocessing is idempotent on
    every text whose result does not begin with a byte order mark. *)
Theorem preprocessText_twice (text : jsstring) :
  preprocessText (preprocessText text) = removeBOM (preprocessText text)
  ∧ (head (preprocessText text) ≠ Some CHAR_BOM →
     preprocessText (preprocessText text) = preprocessText text).
Proof.
  assert (preprocessText (preprocessText text)
          = removeBOM (preprocessText text)) as Htwice.
  { set (p := preprocessText text).
    assert ((CHAR_CR ∉ p) ∧ (CHAR_TAB ∉ p) ∧ runs_at_most 2 0 p)
      as (Hcr & Htab & Hruns).
    { unfold p. rewrite preprocessText_unfold. split_and!.
      - apply normalizeWhitespace_absent; [done|].
        by apply replace_char_no_source.
      - by apply normalizeWhitespace_no_tab.
      - by apply (normalizeWhitespace_runs _ no_whitespace_options);
          [|simpl; lia]. }
    assert ((CHAR_CR ∉ removeBOM p) ∧ (CHAR_TAB ∉ removeBOM p)
            ∧ runs_at_most 2 0 (removeBOM p)) as (Hcr' & Htab' & Hruns').
    { destruct (removeBOM_cases p) as [[-> _]|Heq]; [done|].
      rewrite Heq in Hcr, Htab, Hruns.
      apply not_elem_of_cons in Hcr as [_ Hcr].
      apply not_elem_of_cons in Htab as [_ Htab]. done. }
    rewrite preprocessText_unfold.
    unfold normalizeLineBreaks.
    rewrite replace_crlf_absent, replace_char_absent by done.
    by apply normalizeWhitespace_fixed. }
  split; [done|]. intros Hhead. rewrite Htwice.
  by destruct (removeBOM_cases (preprocessText text)) as [[-> _]|Heq];
    [|rewrite Heq in Hhead].
Qed.

Lemma preprocessText_twice_witness :
  head (preprocessText [97; CHAR_TAB; 98]%N) ≠ Some CHAR_BOM
  ∧ preprocessText (preprocessText [97; CHAR_TAB; 98]%N)
    = preprocessText [97; CHAR_TAB; 98]%N.
Proof.
  assert (head (preprocessText [97; CHAR_TAB; 98]%N) ≠ Some CHAR_BOM) as Hhead
    by discriminate.
  split; [exact Hhead|].
  exact (proj2 (preprocessText_twice [97; CHAR_TAB; 98]%N) Hhead).
Defined.

(** The preprocessing is not idempotent on a text that begins with two
    byte order marks: every pass removes one. *)
Example preprocessText_two_marks :
  preprocessText [CHAR_BOM; CHAR_BOM; 97]%N = [CHAR_BOM; 97]%N
  ∧ preprocessText (preprocessText [CHAR_BOM; CHAR_BOM; 97]%N) = [97]%N.
Proof. done. Qed.

End Preprocessing.

(** ** Flattening *)

Section Flattening.

(** A scan for the pair [a b], by the length of the text. *)
Lemma scan_pair_ind (a b : N) (P : jsstring → Prop) :
  P [] →
  (∀ c, P [c]) →
  (∀ rest, P rest → P (a :: b :: rest)) →
  (∀ c d rest, ¬ (c = a ∧ d = b) → P (d :: rest) → P (c :: d :: rest)) →
  ∀ text, P text.
Proof.
  intros Hnil Hone Hpair Hstep text.
  induction (Nat.lt_wf_0_projected length text) as [text _ IH].
  destruct text as [|c [|d rest]]; [done..|].
  destruct (decide (c = a ∧ d = b)) as [[-> ->]|Hne].
  - apply Hpair, IH. simpl. lia.
  - apply Hstep; [done|]. apply IH. simpl. lia.
Qed.

Lemma flattenText_cons c text :
  flattenText (c :: text)
  = (if (c =? CHAR_LF)%N then [CHAR_BACKSLASH; CHAR_LOWER_N] else [c])
    ++ flattenText text.
Proof. done. Qed.

Lemma unflattenText_pair rest :
  unflattenText (CHAR_BACKSLASH :: CHAR_LOWER_N :: rest)
  = CHAR_LF :: unflattenText rest.
Proof. done. Qed.

Lemma unflattenText_other c text :
  ¬ (c = CHAR_BACKSLASH ∧ head text = Some CHAR_LOWER_N) →
  unflattenText (c :: text) = c :: unflattenText text.
Proof.
  intros Hne. destruct text as [|d rest]; [done|]. cbn [unflattenText].
  destruct (N.eqb_spec c CHAR_BACKSLASH), (N.eqb_spec d CHAR_LOWER_N);
    naive_solver.
Qed.

Lemma head_flattenText text :
  head (flattenText text) = Some CHAR_LOWER_N ↔ head text = Some CHAR_LOWER_N.
Proof.
  destruct text as [|d rest]; [done|]. rewrite flattenText_cons.
  destruct (N.eqb_spec d CHAR_LF) as [->|Hd]; [done|].
  done.
Qed.

Lemma has_escaped_n_cons c d rest :
  has_escaped_n (c :: d :: rest)
  = (c =? CHAR_BACKSLASH)%N && (d =? CHAR_LOWER_N)%N
    || has_escaped_n (d :: rest).
Proof. done. Qed.

Lemma has_escaped_n_step c d rest :
  ¬ (c = CHAR_BACKSLASH ∧ d = CHAR_LOWER_N) →
  has_escaped_n (c :: d :: rest) = has_escaped_n (d :: rest).
Proof.
  intros Hne. rewrite has_escaped_n_cons.
  destruct (N.eqb_spec c CHAR_BACKSLASH), (N.eqb_spec d CHAR_LOWER_N);
    naive_solver.
Qed.

(** One unit of the flattened text and back. *)
Lemma unflatten_flatten_step c text :
  ¬ (c = CHAR_BACKSLASH ∧ head text = Some CHAR_LOWER_N) →
  unflattenText (flattenText (c :: text))
  = c :: unflattenText (flattenText text).
Proof.
  intros Hne. rewrite flattenText_cons.
  destruct (N.eqb_spec c CHAR_LF) as [->|Hc].
  - apply unflattenText_pair.
  - cbn [app]. apply unflattenText_other.
    by rewrite head_flattenText.
Qed.

Lemma unflatten_flatten_length text :
  length (unflattenText (flattenText text)) ≤ length text
  ∧ (has_escaped_n text →
     length (unflattenText (flattenText text)) < length text).
Proof.
  induction text as [|c|rest [IH _]|c d rest Hne [IH1 IH2]]
    using (scan_pair_ind CHAR_BACKSLASH CHAR_LOWER_N).
  - done.
  - split; [|done]. by rewrite unflatten_flatten_step by (by intros [_ ?]).
  - rewrite !flattenText_cons. cbn [N.eqb app].
    change ((CHAR_BACKSLASH =? CHAR_LF)%N) with false.
    change ((CHAR_LOWER_N =? CHAR_LF)%N) with false. cbn [app].
    rewrite unflattenText_pair. simpl. lia.
  - rewrite unflatten_flatten_step by (intros [-> [= ->]]; by apply Hne).
    rewrite has_escaped_n_step by done. simpl in *. split; [lia|].
    intros Hpair. specialize (IH2 Hpair). lia.
Qed.

Lemma flattenText_no_line_feed text : CHAR_LF ∉ flattenText text.
Proof.
  induction text as [|c rest IH]; [by intros ?%elem_of_nil|].
  rewrite flattenText_cons. apply not_elem_of_app. split; [|done].
  destruct (N.eqb_spec c CHAR_LF) as [->|Hc].
  - by intros [[=]|[[=]|?%elem_of_nil]%elem_of_cons]%elem_of_cons.
  - by intros [?|?%elem_of_nil]%elem_of_cons.
Qed.

(** X7. Flattening a text and unflattening the result gives the text back
    exactly when the text holds no backslash followed by n; the flattened
    text holds no line feed. *)
Theorem unflattenText_flattenText (text : jsstring) :
  (unflattenText (flattenText text) = text ↔ has_escaped_n text = false)
  ∧ (CHAR_LF ∉ flattenText text).
Proof.
  split; [|apply flattenText_no_line_feed]. split.
  - intros Heq. destruct (has_escaped_n text) eqn:Hpair; [|done].
    destruct (unflatten_flatten_length text) as [_ Hlt].
    rewrite Heq, Hpair in Hlt. specialize (Hlt I). lia.
  - induction text as [|c rest IH]; [done|]. intros Hpair.
    assert (¬ (c = CHAR_BACKSLASH ∧ head rest = Some CHAR_LOWER_N)
            ∧ has_escaped_n rest = false) as [Hne Hrest].
    { destruct rest as [|d rest]; [by split; [intros [_ ?]|]|].
      rewrite has_escaped_n_cons in Hpair.
      apply orb_false_iff in Hpair as [Hcd Hrest]. split; [|done].
      intros [-> [= ->]]. done. }
    rewrite unflatten_flatten_step by done. f_equal. by apply IH.
Qed.

Lemma unflattenText_flattenText_witness :
  has_escaped_n [97; CHAR_LF; 98]%N = false
  ∧ unflattenText (flattenText [97; CHAR_LF; 98]%N) = [97; CHAR_LF; 98]%N.
Proof.
  split; [reflexivity|].
  exact (proj2 (proj1 (unflattenText_flattenText [97; CHAR_LF; 98]%N))
           eq_refl).
Defined.

(** X8. Unflattening a text and flattening the result gives the text back
    exactly when the text holds no line feed. *)
Theorem flattenText_unflattenText (text : jsstring) :
  flattenText (unflattenText text) = text ↔ CHAR_LF ∉ text.
Proof.
  split.
  - intros <-. apply flattenText_no_line_feed.
  - induction text as [|c|rest IH|c d rest Hne IH]
      using (scan_pair_ind CHAR_BACKSLASH CHAR_LOWER_N); intros Hlf.
    + done.
    + apply not_elem_of_cons in Hlf as [Hc _]. cbn [unflattenText].
      rewrite flattenText_cons. by destruct (N.eqb_spec c CHAR_LF).
    + rewrite unflattenText_pair, flattenText_cons.
      change ((CHAR_LF =? CHAR_LF)%N) with true. cbn [app].
      do 2 f_equal. apply IH.
      by do 2 apply not_elem_of_cons in Hlf as [_ Hlf].
    + rewrite unflattenText_other by (intros [-> [= ->]]; by apply Hne).
      apply not_elem_of_cons in Hlf as [Hc Hlf].
      rewrite flattenText_cons. destruct (N.eqb_spec c CHAR_LF); [done|].
      cbn [app]. f_equal. by apply IH.
Qed.

Lemma flattenText_unflattenText_witness :
  (CHAR_LF ∉ [97; CHAR_BACKSLASH; CHAR_LOWER_N; 98]%N)
  ∧ unflattenText [97; CHAR_BACKSLASH; CHAR_LOWER_N; 98]%N
    = [97; CHAR_LF; 98]%N
  ∧ flattenText (unflattenText [97; CHAR_BACKSLASH; CHAR_LOWER_N; 98]%N)
    = [97; CHAR_BACKSLASH; CHAR_LOWER_N; 98]%N.
Proof.
  assert (CHAR_LF ∉ [97; CHAR_BACKSLASH; CHAR_LOWER_N; 98]%N) as Hlf.
  { intros Hin. by repeat apply elem_of_cons in Hin as [?|Hin];
      [..|apply elem_of_nil in Hin]. }
  split; [exact Hlf|]. split; [reflexivity|].
  exact (proj2 (flattenText_unflattenText _) Hlf).
Defined.

End Flattening.

(** ** Characters and statistics *)

Section Statistics.

(** The scan for surrogate pairs, by the length of the text. *)
Lemma surrogate_ind (P : jsstring → Prop) :
  P [] →
  (∀ c, P [c]) →
  (∀ c d rest,
     is_high_surrogate c && is_low_surrogate d = true →
     P rest → P (c :: d :: rest)) →
  (∀ c d rest,
     is_high_surrogate c && is_low_surrogate d = false →
     P (d :: rest) → P (c :: d :: rest)) →
  ∀ text, P text.
Proof.
  intros Hnil Hone Hpair Hstep text.
  induction (Nat.lt_wf_0_projected length text) as [text _ IH].
  destruct text as [|c [|d rest]]; [done..|].
  destruct (is_high_surrogate c && is_low_surrogate d) eqn:Hcd.
  - apply Hpair; [done|]. apply IH. simpl. lia.
  - apply Hstep; [done|]. apply IH. simpl. lia.
Qed.

Lemma blobSize_cons c d rest :
  blobSize (c :: d :: rest)
  = if is_high_surrogate c && is_low_surrogate d
    then 4 + blobSize rest
    else utf8_unit_size c + blobSize (d :: rest).
Proof. done. Qed.

Lemma utf8_unit_size_bounds c : 1 ≤ utf8_unit_size c ≤ 3.
Proof.
  unfold utf8_unit_size. destruct (c <? 128)%N, (c <? 2048)%N; lia.
Qed.

Lemma splitIntoChars_length text :
  length (splitIntoChars text) ≤ length text ≤ 2 * length (splitIntoChars text).
Proof.
  induction text as [|c|c d rest Hcd IH|c d rest Hcd IH] using surrogate_ind;
    [simpl; lia..| |]; rewrite splitIntoChars_cons, Hcd; simpl in *; lia.
Qed.

Lemma blobSize_bounds text :
  length (splitIntoChars text) ≤ blobSize text ≤ 3 * length text
  ∧ blobSize text ≤ 4 * length (splitIntoChars text).
Proof.
  induction text as [|c|c d rest Hcd IH|c d rest Hcd IH] using surrogate_ind.
  - simpl. lia.
  - pose proof (utf8_unit_size_bounds c). simpl. lia.
  - rewrite splitIntoChars_cons, blobSize_cons, Hcd. simpl in *. lia.
  - pose proof (utf8_unit_size_bounds c).
    rewrite splitIntoChars_cons, blobSize_cons, Hcd. simpl in *. lia.
Qed.

Lemma splitIntoChars_no_surrogate text :
  Forall (λ c, is_high_surrogate c = false) text →
  splitIntoChars text = (λ c, [c]) <$> text.
Proof.
  induction text as [|c|c d rest Hcd IH|c d rest Hcd IH] using surrogate_ind;
    intros Hall; [done..| |].
  - apply Forall_cons in Hall as [Hc _]. by rewrite Hc in Hcd.
  - apply Forall_cons in Hall as [Hc Hall].
    rewrite splitIntoChars_cons, Hcd. cbn [fmap list_fmap]. f_equal.
    by apply IH.
Qed.

Lemma splitIntoChars_units text :
  Forall (λ u, (∃ c, u = [c])
               ∨ (∃ c d, u = [c; d]
                         ∧ is_high_surrogate c ∧ is_low_surrogate d))
    (splitIntoChars text).
Proof.
  induction text as [|c|c d rest Hcd IH|c d rest Hcd IH] using surrogate_ind.
  - constructor.
  - repeat constructor. by eexists.
  - rewrite splitIntoChars_cons, Hcd. constructor; [|done].
    right. exists c, d. apply andb_true_iff in Hcd as [-> ->]. done.
  - rewrite splitIntoChars_cons, Hcd. constructor; [|done].
    left. by eexists.
Qed.

(** X9. [splitIntoChars] cuts a text into its code points: every unit is
    one code unit, or a high surrogate with the low surrogate after it;
    the units put together are the text; there are at most as many units
    as code units and at least half as many; a text without high
    surrogates is cut into its code units. *)
Theorem splitIntoChars_code_points (text : jsstring) :
  join (splitIntoChars text) = text
  ∧ Forall (λ u, (∃ c, u = [c])
                 ∨ (∃ c d, u = [c; d]
                           ∧ is_high_surrogate c ∧ is_low_surrogate d))
      (splitIntoChars text)
  ∧ length (splitIntoChars text) ≤ length text
      ≤ 2 * length (splitIntoChars text)
  ∧ (Forall (λ c, is_high_surrogate c = false) text →
     splitIntoChars text = (λ c, [c]) <$> text).
Proof.
  split_and!.
  - apply join_splitIntoChars.
  - apply splitIntoChars_units.
  - apply splitIntoChars_length.
  - apply splitIntoChars_length.
  - apply splitIntoChars_no_surrogate.
Qed.

Lemma splitIntoChars_code_points_witness :
  Forall (λ c, is_high_surrogate c = false) (js "ab")
  ∧ splitIntoChars (js "ab") = [js "a"; js "b"].
Proof.
  assert (Forall (λ c, is_high_surrogate c = false) (js "ab")) as Hall.
  { repeat constructor. }
  split; [exact Hall|].
  exact (proj2 (proj2 (proj2 (splitIntoChars_code_points (js "ab")))) Hall).
Defined.

Lemma splitOn_length sep tok text :
  length (splitOn sep tok text) = S (length (filter (λ c, c = sep) text)).
Proof.
  revert tok. induction text as [|c rest IH]; intros tok; [done|].
  cbn [splitOn]. destruct (N.eqb_spec c sep) as [->|Hc].
  - rewrite filter_cons_True by done. simpl. by rewrite IH.
  - rewrite filter_cons_False by done. apply IH.
Qed.

Lemma blobSize_ascii text :
  Forall (λ c, (c < 128)%N) text →
  blobSize text = length text ∧ length (splitIntoChars text) = length text.
Proof.
  intros Hall.
  assert (Forall (λ c, is_high_surrogate c = false) text) as Hhigh.
  { eapply Forall_impl; [done|]. intros c Hc. cbv beta in Hc.
    unfold is_high_surrogate.
    apply andb_false_iff. left. apply N.leb_gt. lia. }
  split; [|by rewrite splitIntoChars_no_surrogate, length_fmap].
  clear Hhigh.
  induction text as [|c|c d rest Hcd IH|c d rest Hcd IH] using surrogate_ind.
  - done.
  - apply Forall_cons in Hall as [Hc _]. cbv beta in Hc. simpl.
    unfold utf8_unit_size. by destruct (N.ltb_spec c 128); [|lia].
  - apply Forall_cons in Hall as [Hc _]. cbv beta in Hc.
    apply andb_true_iff in Hcd as [Hhigh _].
    unfold is_high_surrogate in Hhigh.
    apply andb_true_iff in Hhigh as [Hlo%N.leb_le _]. lia.
  - apply Forall_cons in Hall as [Hc Hall]. cbv beta in Hc.
    rewrite blobSize_cons, Hcd, IH by done. unfold utf8_unit_size.
    by destruct (N.ltb_spec c 128); [|lia].
Qed.

(** X10. The sizes that [calculateTextStats] reports: the characters are
    the code points, at most as many as the code units and at least half
    as many; the bytes are those of UTF-8, at least one and at most four
    per character and at most three per code unit; the lines are one more
    than the line feeds; for an ASCII text the three sizes agree. *)
Theorem calculateTextStats_sizes (text : jsstring) :
  charCount (calculateTextStats text) ≤ length text
    ≤ 2 * charCount (calculateTextStats text)
  ∧ charCount (calculateTextStats text) ≤ byteLength (calculateTextStats text)
      ≤ 4 * charCount (calculateTextStats text)
  ∧ byteLength (calculateTextStats text) ≤ 3 * length text
  ∧ lineCount (calculateTextStats text)
    = S (length (filter (λ c, c = CHAR_LF) text))
  ∧ (Forall (λ c, (c < 128)%N) text →
     byteLength (calculateTextStats text) = length text
     ∧ charCount (calculateTextStats text) = length text).
Proof.
  cbn [calculateTextStats charCount byteLength lineCount].
  pose proof (splitIntoChars_length text).
  pose proof (blobSize_bounds text).
  split_and!; try lia.
  - apply splitOn_length.
  - apply blobSize_ascii.
Qed.

Lemma calculateTextStats_sizes_witness :
  Forall (λ c, (c < 128)%N) (js "two lines")
  ∧ byteLength (calculateTextStats (js "two lines")) = 9
  ∧ charCount (calculateTextStats (js "two lines")) = 9.
Proof.
  assert (Forall (λ c, (c < 128)%N) (js "two lines")) as Hall.
  { repeat constructor. }
  split; [exact Hall|].
  exact (proj2 (proj2 (proj2 (proj2 (calculateTextStats_sizes
                                       (js "two lines"))))) Hall).
Defined.

End Statistics.

(** ** Words *)

Section Words.

Lemma count_words_spaces b ws :
  Forall (λ c, is_js_space c) ws → count_words b ws = 0.
Proof.
  revert b. induction ws as [|c ws IH]; intros b Hall; [done|].
  apply Forall_cons in Hall as [Hc Hall]. cbn [count_words].
  destruct (is_js_space c); [by apply IH|done].
Qed.

Lemma count_words_app_spaces b text ws :
  Forall (λ c, is_js_space c) ws →
  count_words b (text ++ ws) = count_words b text.
Proof.
  intros Hall. revert b. induction text as [|c text IH]; intros b.
  - by apply count_words_spaces.
  - cbn [app count_words]. by rewrite !IH.
Qed.

Lemma count_words_spaces_app b ws text :
  Forall (λ c, is_js_space c) ws → ws ≠ [] →
  count_words b (ws ++ text) = count_words false text.
Proof.
  intros Hall. revert b. induction Hall as [|c ws Hc Hall IH]; intros b Hne;
    [done|].
  cbn [app count_words]. destruct (is_js_space c); [|done].
  destruct ws as [|d ws]; [done|]. by apply IH.
Qed.

Lemma trimStart_split text :
  ∃ ws, Forall (λ c, is_js_space c) ws ∧ text = ws ++ trimStart text.
Proof.
  induction text as [|c text (ws & Hall & Heq)]; [by exists []|].
  cbn [trimStart]. destruct (is_js_space c) eqn:Hc.
  - exists (c :: ws). split; [|by rewrite Heq at 1].
    constructor; [by rewrite Hc|done].
  - by exists [].
Qed.

Lemma trim_split text :
  ∃ ws1 ws2,
    Forall (λ c, is_js_space c) ws1 ∧ Forall (λ c, is_js_space c) ws2
    ∧ text = ws1 ++ trim text ++ ws2.
Proof.
  destruct (trimStart_split text) as (ws1 & Hall1 & Heq1).
  destruct (trimStart_split (reverse (trimStart text)))
    as (ws2 & Hall2 & Heq2).
  exists ws1, (reverse ws2). split; [done|]. split.
  - by apply Forall_reverse.
  - unfold trim. rewrite <-reverse_app, <-Heq2, reverse_involutive. done.
Qed.

Lemma trimStart_nil text :
  trimStart text = [] ↔ Forall (λ c, is_js_space c) text.
Proof.
  induction text as [|c text IH]; [done|]. cbn [trimStart].
  destruct (is_js_space c) eqn:Hc.
  - rewrite IH, Forall_cons, Hc. split; [by split|by intros [_ ?]].
  - split; [done|]. intros [Hc' _]%Forall_cons. by rewrite Hc in Hc'.
Qed.

Lemma trim_nil text :
  trim text = [] ↔ Forall (λ c, is_js_space c) text.
Proof.
  split.
  - intros Hnil. destruct (trim_split text) as (ws1 & ws2 & H1 & H2 & Heq).
    rewrite Heq, Hnil. by apply Forall_app.
  - intros Hall. unfold trim.
    by rewrite (proj2 (trimStart_nil text) Hall).
Qed.

Lemma count_words_trim text :
  count_words false (trim text) = count_words false text.
Proof.
  destruct (trim_split text) as (ws1 & ws2 & H1 & H2 & Heq).
  rewrite Heq at 2. destruct ws1 as [|c ws1].
  - cbn [app]. by rewrite count_words_app_spaces.
  - rewrite count_words_spaces_app by done.
    by rewrite count_words_app_spaces.
Qed.

(** The pieces of [split(/\s+/)] that are not empty are the words. *)
Lemma splitSpaces_words tok in_run text :
  (in_run = true → tok = []) →
  length (filter (λ word, 0 < length word) (splitSpaces tok in_run text))
  = (if bool_decide (tok = []) then 0 else 1)
    + count_words (negb (bool_decide (tok = []))) text.
Proof.
  revert tok in_run. induction text as [|c text IH]; intros tok in_run Hrun.
  - cbn [splitSpaces count_words]. destruct tok; [done|].
    by rewrite filter_cons_True by (simpl; lia).
  - cbn [splitSpaces count_words]. destruct (is_js_space c).
    + destruct in_run.
      * rewrite Hrun by done. by rewrite IH.
      * destruct tok as [|x tok].
        -- rewrite filter_cons_False by (simpl; lia). by rewrite IH.
        -- rewrite filter_cons_True by (simpl; lia). cbn [length].
           by rewrite IH.
    + rewrite IH by done.
      assert (bool_decide (tok ++ [c] = []) = false) as ->.
      { apply bool_decide_eq_false. by destruct tok. }
      by destruct tok.
Qed.

Lemma wordCount_count_words text :
  wordCount (calculateTextStats text) = count_words false text.
Proof.
  cbn [calculateTextStats wordCount]. rewrite <-count_words_trim.
  destruct (trim text) as [|c rest] eqn:Htrim; [done|].
  cbn [length Nat.ltb Nat.leb]. by rewrite splitSpaces_words.
Qed.

Lemma count_words_zero text :
  count_words false text = 0 ↔ Forall (λ c, is_js_space c) text.
Proof.
  induction text as [|c text IH]; [done|]. cbn [count_words].
  rewrite Forall_cons.
  destruct (is_js_space c); [rewrite IH; split; [by split|by intros [_ ?]]|].
  split; [done|]. by intros [? _].
Qed.

Lemma count_words_app b a c rest :
  is_js_space c →
  count_words b (a ++ c :: rest) = count_words b a + count_words false rest.
Proof.
  intros Hc. revert b. induction a as [|x a IH]; intros b.
  - cbn [app count_words]. by destruct (is_js_space c).
  - cbn [app count_words]. rewrite !IH. destruct (is_js_space x); lia.
Qed.

Lemma count_words_one b text :
  Forall (λ c, ¬ is_js_space c) text →
  count_words b text = if b then 0 else if text is [] then 0 else 1.
Proof.
  intros Hall. revert b. induction Hall as [|c text Hc Hall IH]; intros b.
  - by destruct b.
  - cbn [count_words]. destruct (is_js_space c); [done|].
    rewrite IH. by destruct b.
Qed.

(** X11. The words that [calculateTextStats] counts are the maximal runs
    of units that are not white space: a text of white space only has no
    word, a non-empty text without white space is one word, and the words
    on the two sides of a unit of white space add up. *)
Theorem calculateTextStats_words (a b : jsstring) (c : N) :
  (wordCount (calculateTextStats a) = 0 ↔ Forall (λ x, is_js_space x) a)
  ∧ (a ≠ [] → Forall (λ x, ¬ is_js_space x) a →
     wordCount (calculateTextStats a) = 1)
  ∧ (is_js_space c →
     wordCount (calculateTextStats (a ++ c :: b))
     = wordCount (calculateTextStats a) + wordCount (calculateTextStats b)).
Proof.
  rewrite !wordCount_count_words. split_and!.
  - apply count_words_zero.
  - intros Hne Hall. rewrite count_words_one by done. by destruct a.
  - apply count_words_app.
Qed.

Lemma calculateTextStats_words_witness :
  js "two" ≠ [] ∧ Forall (λ x, ¬ is_js_space x) (js "two")
  ∧ is_js_space CHAR_LF
  ∧ wordCount (calculateTextStats (js "two")) = 1
  ∧ wordCount (calculateTextStats (js "two" ++ CHAR_LF :: js " words "))
    = wordCount (calculateTextStats (js "two"))
      + wordCount (calculateTextStats (js " words ")).
Proof.
  assert (js "two" ≠ []) as Hne by discriminate.
  assert (Forall (λ x, ¬ is_js_space x) (js "two")) as Hall.
  { repeat constructor; by vm_compute. }
  assert (is_js_space CHAR_LF) as Hlf by (by vm_compute).
  pose proof (calculateTextStats_words (js "two") (js " words ") CHAR_LF)
    as (_ & Hone & Hadd).
  split; [exact Hne|]. split; [exact Hall|]. split; [exact Hlf|].
  split; [exact (Hone Hne Hall)|exact (Hadd Hlf)].
Defined.

End Words.

(** ** Validation of a text *)

Section TextValidation.

Lemma validateTextContent_empty text :
  trim text = [] →
  validateTextContent text
  = {| tv_isValid := false; tv_errors := [MSG_EMPTY_TEXT];
       tv_warnings := [] |}.
Proof.
  intros Htrim. unfold validateTextContent. rewrite Htrim.
  by rewrite orb_true_r.
Qed.

Lemma validateTextContent_valid text :
  trim text ≠ [] →
  validateTextContent text
  = {| tv_isValid := true; tv_errors := [];
       tv_warnings :=
         (if 0 <? length (filter (λ c, is_control_char c) text)
          then [MSG_CONTROL_CHARS
                  (length (filter (λ c, is_control_char c) text))]
          else [])
         ++ (if (hasCRLF text && hasLF text) || (hasCRLF text && hasCR text)
                || (hasLF text && hasCR text)
             then [MSG_MIXED_LINE_BREAKS] else []) |}.
Proof.
  intros Htrim. unfold validateTextContent.
  assert (text ≠ []) as Htext by (by intros ->).
  destruct text as [|c text]; [done|].
  destruct (trim (c :: text)) as [|d rest]; [done|].
  cbn [length Nat.eqb orb]. f_equal.
  by destruct (0 <? _), (_ || _).
Qed.



(** X12. [validateTextContent] accepts a text exactly when some unit of it
    is not white space. A text that is rejected gets the one error and no
    warning; a text that is accepted gets no error and at most two
    warnings. *)
Theorem validateTextContent_verdict (text : jsstring) :
  (tv_isValid (validateTextContent text) = true
   ↔ ∃ c, c ∈ text ∧ ¬ is_js_space c)
  ∧ (tv_isValid (validateTextContent text) = false →
     tv_errors (validateTextContent text) = [MSG_EMPTY_TEXT]
     ∧ tv_warnings (validateTextContent text) = [])
  ∧ (tv_isValid (validateTextContent text) = true →
     tv_errors (validateTextContent text) = []
     ∧ length (tv_warnings (validateTextContent text)) ≤ 2).
Proof.
  destruct (decide (trim text = [])) as [Htrim|Htrim].
  - rewrite validateTextContent_empty by done. cbn.
    split_and!; [|done|done].
    split; [done|]. intros (c & Hc & Hspace).
    apply trim_nil in Htrim. rewrite Forall_forall in Htrim.
    exfalso. by apply Hspace, Htrim.
  - rewrite validateTextContent_valid by done. cbn.
    split_and!; [|done|].
    + split; [|done]. intros _.
      rewrite trim_nil in Htrim.
      apply not_Forall_Exists in Htrim; [|apply _].
      apply Exists_exists in Htrim as (c & Hc & Hspace). by exists c.
    + intros _. split; [done|].
      rewrite length_app. repeat case_match; simpl; lia.
Qed.

Lemma validateTextContent_verdict_witness :
  tv_isValid (validateTextContent (js "  ")) = false
  ∧ tv_errors (validateTextContent (js "  ")) = [MSG_EMPTY_TEXT]
  ∧ tv_warnings (validateTextContent (js "  ")) = [].
Proof.
  split; [reflexivity|].
  exact (proj1 (proj2 (validateTextContent_verdict (js "  "))) eq_refl).
Defined.



End TextValidation.

(** ** The edit distance as a metric *)

Section Metric.

Lemma one_edit_sym {A} (s u : list A) : one_edit s u → one_edit u s.
Proof. intros []; constructor. Qed.

Lemma edits_snoc {A} (s u t : list A) k :
  edits s u k → one_edit u t → edits s t (S k).
Proof.
  induction 1 as [s|s v u k Hstep Hrest IH]; intros Hlast.
  - econstructor; [done|constructor].
  - econstructor; [done|]. by apply IH.
Qed.

Lemma edits_sym {A} (s t : list A) k : edits s t k → edits t s k.
Proof.
  induction 1 as [s|s u t k Hstep Hrest IH]; [constructor|].
  eapply edits_snoc; [done|]. by apply one_edit_sym.
Qed.

Lemma edits_app {A} (s u t : list A) a b :
  edits s u a → edits u t b → edits s t (a + b).
Proof.
  induction 1 as [s|s v u a Hstep Hrest IH]; intros Hnext; [done|].
  cbn [Nat.add]. econstructor; [done|]. by apply IH.
Qed.

Lemma one_edit_length {A} (s u : list A) :
  one_edit s u → length s ≤ S (length u) ∧ length u ≤ S (length s).
Proof. intros []; rewrite !length_app; simpl; lia. Qed.

Lemma edits_length {A} (s t : list A) k :
  edits s t k → length s ≤ k + length t ∧ length t ≤ k + length s.
Proof.
  induction 1 as [s|s u t k Hstep%one_edit_length Hrest IH]; [lia|]. lia.
Qed.

Lemma edits_zero {A} (s t : list A) : edits s t 0 → s = t.
Proof. by inversion 1. Qed.

Lemma minimum_edits_unique {A} (s t : list A) d d' :
  minimum_edits s t d → minimum_edits s t d' → d = d'.
Proof.
  intros [H1 Hmin1] [H2 Hmin2]. apply Nat.le_antisymm; auto.
Qed.

Lemma lev_distance_minimum (s t : list jsstring) :
  minimum_edits s t (lev_cell s t (length s) (length t)).
Proof. apply lev_cell_minimum. Qed.

Lemma lev_distance_sym (s t : list jsstring) :
  lev_cell s t (length s) (length t) = lev_cell t s (length t) (length s).
Proof.
  destruct (lev_distance_minimum s t) as [Hst Hmin].
  destruct (lev_distance_minimum t s) as [Hts Hmin'].
  apply Nat.le_antisymm.
  - by apply Hmin, edits_sym.
  - by apply Hmin', edits_sym.
Qed.

Lemma lev_distance_zero (s t : list jsstring) :
  lev_cell s t (length s) (length t) = 0 ↔ s = t.
Proof.
  split.
  - intros Hzero. destruct (lev_distance_minimum s t) as [Hst _].
    rewrite Hzero in Hst. by apply edits_zero.
  - intros ->. apply lev_cell_same.
Qed.

Lemma lev_cell_upper (s t : list jsstring) i j :
  lev_cell s t i j ≤ i `max` j.
Proof.
  revert j. induction i as [|i IH]; intros j; [simpl; lia|].
  destruct j as [|j]; [rewrite lev_cell_0_r; lia|].
  pose proof (lev_cell_diag s t i j). specialize (IH j). lia.
Qed.

Lemma lev_distance_bounds (s t : list jsstring) :
  length s `max` length t - length s `min` length t
  ≤ lev_cell s t (length s) (length t) ≤ length s `max` length t.
Proof.
  split; [|apply lev_cell_upper].
  destruct (lev_distance_minimum s t) as [Hst%edits_length _]. lia.
Qed.

Lemma lev_distance_triangle (s u t : list jsstring) :
  lev_cell s t (length s) (length t)
  ≤ lev_cell s u (length s) (length u) + lev_cell u t (length u) (length t).
Proof.
  destruct (lev_distance_minimum s t) as [_ Hmin].
  destruct (lev_distance_minimum s u) as [Hsu _].
  destruct (lev_distance_minimum u t) as [Hut _].
  by apply Hmin, (edits_app _ u).
Qed.

Lemma calculateEditDistance_returns now str1 str2 options :
  within_budget now (effectiveTimeout options) (length str1) →
  calculateEditDistance now str1 str2 options
  = Returns (lev_cell str1 str2 (length str1) (length str2)).
Proof.
  intros Hbudget. unfold calculateEditDistance.
  destruct (calculateLevenshtein_returns now str1 str2 options Hbudget)
    as (raw & _ & -> & _). done.
Qed.

(** X14. The edit distance is symmetric: inside the time budget,
    [calculateEditDistance] returns the same distance for two sequences
    in either order. *)
Theorem calculateEditDistance_symmetric
    (now now' : nat → Z) (str1 str2 : list jsstring)
    (options : LevenshteinOptions) :
  within_budget now (effectiveTimeout options) (length str1) →
  within_budget now' (effectiveTimeout options) (length str2) →
  ∃ d, calculateEditDistance now str1 str2 options = Returns d
       ∧ calculateEditDistance now' str2 str1 options = Returns d.
Proof.
  intros H1 H2. rewrite !calculateEditDistance_returns by done.
  eexists. split; [done|]. by rewrite lev_distance_sym.
Qed.

Lemma calculateEditDistance_symmetric_witness :
  within_budget frozen_clock (effectiveTimeout {| lev_timeout := None |})
    (length (chars "kitten"))
  ∧ within_budget frozen_clock (effectiveTimeout {| lev_timeout := None |})
      (length (chars "sitting"))
  ∧ ∃ d, calculateEditDistance frozen_clock (chars "kitten")
           (chars "sitting") {| lev_timeout := None |} = Returns d
         ∧ calculateEditDistance frozen_clock (chars "sitting")
             (chars "kitten") {| lev_timeout := None |} = Returns d.
Proof.
  assert (∀ m, within_budget frozen_clock
                 (effectiveTimeout {| lev_timeout := None |}) m) as Hbudget.
  { intros m i _. vm_compute. discriminate. }
  split; [apply Hbudget|]. split; [apply Hbudget|].
  apply calculateEditDistance_symmetric; apply Hbudget.
Defined.

(** X15. Inside the time budget the edit distance is 0 exactly for equal
    sequences, it is at least the difference of the two lengths, and it is
    at most the longer length. *)
Theorem calculateEditDistance_bounds
    (now : nat → Z) (str1 str2 : list jsstring)
    (options : LevenshteinOptions) :
  within_budget now (effectiveTimeout options) (length str1) →
  ∃ d, calculateEditDistance now str1 str2 options = Returns d
       ∧ (d = 0 ↔ str1 = str2)
       ∧ length str1 `max` length str2 - length str1 `min` length str2 ≤ d
       ∧ d ≤ length str1 `max` length str2.
Proof.
  intros Hbudget. rewrite calculateEditDistance_returns by done.
  eexists. split; [done|]. split; [apply lev_distance_zero|].
  apply lev_distance_bounds.
Qed.

Lemma calculateEditDistance_bounds_witness :
  within_budget frozen_clock (effectiveTimeout {| lev_timeout := None |})
    (length (chars "kitten"))
  ∧ ∃ d, calculateEditDistance frozen_clock (chars "kitten")
           (chars "sitting") {| lev_timeout := None |} = Returns d
         ∧ (d = 0 ↔ chars "kitten" = chars "sitting")
         ∧ length (chars "kitten") `max` length (chars "sitting")
           - length (chars "kitten") `min` length (chars "sitting") ≤ d
         ∧ d ≤ length (chars "kitten") `max` length (chars "sitting").
Proof.
  assert (within_budget frozen_clock
            (effectiveTimeout {| lev_timeout := None |})
            (length (chars "kitten"))) as Hbudget.
  { intros i _. vm_compute. discriminate. }
  split; [exact Hbudget|].
  exact (calculateEditDistance_bounds frozen_clock (chars "kitten")
           (chars "sitting") {| lev_timeout := None |} Hbudget).
Defined.

(** X16. The edit distance obeys the triangle inequality: going through a
    third sequence never takes fewer edits. *)
Theorem calculateEditDistance_triangle
    (now now' now'' : nat → Z) (str1 str2 str3 : list jsstring)
    (options : LevenshteinOptions) :
  within_budget now (effectiveTimeout options) (length str1) →
  within_budget now' (effectiveTimeout options) (length str1) →
  within_budget now'' (effectiveTimeout options) (length str2) →
  ∃ d13 d12 d23,
    calculateEditDistance now str1 str3 options = Returns d13
    ∧ calculateEditDistance now' str1 str2 options = Returns d12
    ∧ calculateEditDistance now'' str2 str3 options = Returns d23
    ∧ d13 ≤ d12 + d23.
Proof.
  intros H1 H2 H3. rewrite !calculateEditDistance_returns by done.
  do 3 eexists. split_and!; [done..|]. apply lev_distance_triangle.
Qed.

Lemma calculateEditDistance_triangle_witness :
  within_budget frozen_clock (effectiveTimeout {| lev_timeout := None |})
    (length (chars "kitten"))
  ∧ within_budget frozen_clock (effectiveTimeout {| lev_timeout := None |})
      (length (chars "sitten"))
  ∧ ∃ d13 d12 d23,
      calculateEditDistance frozen_clock (chars "kitten") (chars "sitting")
        {| lev_timeout := None |} = Returns d13
      ∧ calculateEditDistance frozen_clock (chars "kitten") (chars "sitten")
          {| lev_timeout := None |} = Returns d12
      ∧ calculateEditDistance frozen_clock (chars "sitten")
          (chars "sitting") {| lev_timeout := None |} = Returns d23
      ∧ d13 ≤ d12 + d23.
Proof.
  assert (∀ m, within_budget frozen_clock
                 (effectiveTimeout {| lev_timeout := None |}) m) as Hbudget.
  { intros m i _. vm_compute. discriminate. }
  split; [apply Hbudget|]. split; [apply Hbudget|].
  apply calculateEditDistance_triangle; apply Hbudget.
Defined.

End Metric.

(** ** The time budget *)

Section Budget.

Lemma fillRows_throws now timeout str1 str2 n rows dp e :
  fillRows now timeout str1 str2 n rows dp = Throws e →
  e = LevenshteinTimeout
  ∧ ∃ i, i ∈ rows ∧ (timeout < now i - now 0%nat)%Z.
Proof.
  revert dp. induction rows as [|i rows IH]; intros dp; [done|].
  cbn [fillRows]. destruct (Z.ltb_spec timeout (now i - now 0%nat)).
  - intros [= <-]. split; [done|]. exists i. split; [left|done].
  - intros (-> & k & Hk & Hlate)%IH. split; [done|].
    exists k. split; [by right|done].
Qed.

Lemma fillRows_returns now timeout str1 str2 n rows dp dp' :
  fillRows now timeout str1 str2 n rows dp = Returns dp' →
  ∀ i, i ∈ rows → (now i - now 0%nat ≤ timeout)%Z.
Proof.
  revert dp. induction rows as [|k rows IH]; intros dp Hret i Hi.
  - by apply elem_of_nil in Hi.
  - cbn [fillRows] in Hret.
    destruct (Z.ltb_spec timeout (now k - now 0%nat)); [done|].
    apply elem_of_cons in Hi as [->|Hi]; [done|]. by eapply IH.
Qed.

Lemma fillMatrix_returns now timeout str1 str2 dp :
  fillMatrix now timeout str1 str2 = Returns dp →
  within_budget now timeout (length str1).
Proof.
  intros Hret i Hi. eapply fillRows_returns; [done|].
  apply elem_of_seq. lia.
Qed.

Lemma fillMatrix_throws now timeout str1 str2 e :
  fillMatrix now timeout str1 str2 = Throws e →
  e = LevenshteinTimeout
  ∧ ∃ i, 1 ≤ i ≤ length str1 ∧ (timeout < now i - now 0%nat)%Z.
Proof.
  intros (-> & i & Hi%elem_of_seq & Hlate)%fillRows_throws.
  split; [done|]. exists i. split; [lia|done].
Qed.

Lemma calculateLevenshtein_returns_inv now str1 str2 options r :
  Levenshtein.calculateLevenshtein now str1 str2 options = Returns r →
  within_budget now (effectiveTimeout options) (length str1).
Proof.
  unfold Levenshtein.calculateLevenshtein.
  destruct (fillMatrix _ _ _ _) as [dp| |] eqn:Hfill; [|done..].
  intros _. by eapply fillMatrix_returns.
Qed.

Lemma calculateLevenshtein_throws_inv now str1 str2 options e :
  Levenshtein.calculateLevenshtein now str1 str2 options = Throws e →
  e = LevenshteinTimeout
  ∧ ∃ i, 1 ≤ i ≤ length str1
         ∧ (effectiveTimeout options < now i - now 0%nat)%Z.
Proof.
  unfold Levenshtein.calculateLevenshtein.
  destruct (fillMatrix _ _ _ _) as [dp|e'|] eqn:Hfill.
  - by destruct (backtraceOperations _ _ _).
  - intros [= <-]. by eapply fillMatrix_throws.
  - done.
Qed.

(** X17. [calculateLevenshtein] returns exactly when the clock is inside
    the budget at the head of every row, and throws the timeout error
    exactly when it is beyond the budget at the head of some row; it
    throws nothing else and it never runs forever. *)
Theorem calculateLevenshtein_checks_every_row
    (now : nat → Z) (str1 str2 : list jsstring)
    (options : LevenshteinOptions) :
  ((∃ r, Levenshtein.calculateLevenshtein now str1 str2 options = Returns r)
   ↔ within_budget now (effectiveTimeout options) (length str1))
  ∧ (Levenshtein.calculateLevenshtein now str1 str2 options
     = Throws LevenshteinTimeout
     ↔ ∃ i, 1 ≤ i ≤ length str1
            ∧ (effectiveTimeout options < now i - now 0%nat)%Z)
  ∧ (∀ e, Levenshtein.calculateLevenshtein now str1 str2 options = Throws e
          → e = LevenshteinTimeout)
  ∧ Levenshtein.calculateLevenshtein now str1 str2 options ≠ Diverges.
Proof.
  split_and!.
  - split.
    + intros [r Hr]. by eapply calculateLevenshtein_returns_inv.
    + intros Hbudget.
      destruct (calculateLevenshtein_returns now str1 str2 options Hbudget)
        as (raw & _ & -> & _). by eexists.
  - split.
    + by intros [_ ?]%calculateLevenshtein_throws_inv.
    + intros (i & Hi & Hlate).
      destruct (calculateLevenshtein_outcome now str1 str2 options)
        as [[r Hr]|Hthrows]; [|done].
      apply calculateLevenshtein_returns_inv in Hr.
      specialize (Hr i Hi). lia.
  - by intros e [? _]%calculateLevenshtein_throws_inv.
  - by destruct (calculateLevenshtein_outcome now str1 str2 options)
      as [[r ->]| ->].
Qed.

Lemma calculateLevenshtein_checks_every_row_witness :
  (∃ i, 1 ≤ i ≤ length (chars "kitten")
        ∧ (effectiveTimeout {| lev_timeout := Some 3%Z |}
           < ticking_clock i - ticking_clock 0)%Z)
  ∧ Levenshtein.calculateLevenshtein ticking_clock (chars "kitten")
      (chars "sitting") {| lev_timeout := Some 3%Z |}
    = Throws LevenshteinTimeout.
Proof.
  assert (∃ i, 1 ≤ i ≤ length (chars "kitten")
               ∧ (effectiveTimeout {| lev_timeout := Some 3%Z |}
                  < ticking_clock i - ticking_clock 0)%Z) as Hlate.
  { exists 4. split; [simpl; lia|reflexivity]. }
  split; [exact Hlate|].
  exact (proj2 (proj1 (proj2 (calculateLevenshtein_checks_every_row
                                ticking_clock (chars "kitten")
                                (chars "sitting")
                                {| lev_timeout := Some 3%Z |}))) Hlate).
Defined.

Section OfDiff.
Variable toLowerCase : jsstring → jsstring.

Lemma calculateDiff_unfold now text1 text2 options :
  calculateDiff toLowerCase now text1 text2 options
  = match
      Levenshtein.calculateLevenshtein now
        (diffUnits toLowerCase options text1)
        (diffUnits toLowerCase options text2)
        {| lev_timeout := Some (default DEFAULT_TIMEOUT (timeout options)) |}
    with
    | Returns r =>
        Returns {| res_editDistance := editDistance r;
                   diffs := convertOperationsToDiffRecords (operations r);
                   similarity :=
                     calculateSimilarity (preprocessText text1)
                       (preprocessText text2) (editDistance r);
                   text1 := preprocessText text1;
                   text2 := preprocessText text2 |}
    | Throws e => Throws (DiffFailed e)
    | Diverges => Diverges
    end.
Proof. reflexivity. Qed.

(** X18. The promise of [calculateDiff] is fulfilled exactly when the
    clock stays inside the budget at the head of every row of the matrix
    of the units compared; it is rejected only with the wrapped timeout
    error, and it is always settled. *)
Theorem calculateDiff_settles
    (now : nat → Z) (text1 text2 : jsstring) (options : DiffOptions) :
  ((∃ r, calculateDiff toLowerCase now text1 text2 options = Returns r)
   ↔ within_budget now (diffBudget options)
       (length (diffUnits toLowerCase options text1)))
  ∧ (∀ e, calculateDiff toLowerCase now text1 text2 options = Throws e →
          e = DiffFailed LevenshteinTimeout)
  ∧ calculateDiff toLowerCase now text1 text2 options ≠ Diverges.
Proof.
  rewrite calculateDiff_unfold.
  set (units1 := diffUnits toLowerCase options text1).
  set (units2 := diffUnits toLowerCase options text2).
  set (opts := {| lev_timeout := _ |}).
  change (diffBudget options) with (effectiveTimeout opts).
  pose proof (calculateLevenshtein_outcome now units1 units2 opts) as Hout.
  split_and!.
  - split.
    + intros [r Hr].
      destruct (Levenshtein.calculateLevenshtein _ _ _ _) as [r'| |] eqn:Hlev;
        [|done..].
      by eapply calculateLevenshtein_returns_inv.
    + intros Hbudget.
      destruct (calculateLevenshtein_returns now units1 units2 opts Hbudget)
        as (raw & _ & -> & _). by eexists.
  - intros e He.
    destruct (Levenshtein.calculateLevenshtein _ _ _ _) as [r'|e'|] eqn:Hlev;
      [done| |done].
    apply calculateLevenshtein_throws_inv in Hlev as [-> _]. by injection He.
  - by destruct Hout as [[r ->]| ->].
Qed.

End OfDiff.

Lemma calculateDiff_settles_witness :
  ¬ within_budget ticking_clock
      (diffBudget (with_timeout 3 no_options))
      (length (diffUnits id (with_timeout 3 no_options) (js "kitten")))
  ∧ calculateDiff id ticking_clock (js "kitten") (js "sitting")
      (with_timeout 3 no_options)
    = Throws (DiffFailed LevenshteinTimeout).
Proof.
  split.
  - intros Hbudget. specialize (Hbudget 4 ltac:(simpl; lia)).
    vm_compute in Hbudget. by apply Hbudget.
  - destruct (calculateDiff id ticking_clock (js "kitten") (js "sitting")
                (with_timeout 3 no_options)) as [r|e|] eqn:Hdiff.
    + discriminate Hdiff.
    + f_equal.
      exact (proj1 (proj2 (calculateDiff_settles id ticking_clock
                             (js "kitten") (js "sitting")
                             (with_timeout 3 no_options))) e Hdiff).
    + discriminate Hdiff.
Defined.

End Budget.

(** ** Empty texts and the shape of the operations *)

Section EmptyTexts.

Lemma backtrace_first_row dp str1 str2 fuel j acc :
  (∀ k, k ≤ j → get dp 0 k = k) → j ≤ fuel → j ≤ length str2 →
  backtrace dp str1 str2 fuel 0 j acc
  = Some (acc ++ reverse (insert_op 0 <$> take j str2)).
Proof.
  revert j acc. induction fuel as [|fuel IH]; intros j acc Hget Hfuel Hj.
  { replace j with 0 by lia. simpl. by rewrite app_nil_r. }
  destruct j as [|j0]; [simpl; by rewrite app_nil_r|].
  destruct (lookup_lt_is_Some_2 str2 j0) as [y Hy]; [lia|].
  cbn [backtrace]. change ((0 <? 0) || (0 <? S j0)) with true. cbv iota.
  unfold backtraceStep. change (0 <? 0) with false.
  change (0 <? S j0) with true. cbn [andb].
  replace (S j0 - 1) with j0 by lia.
  rewrite (Hget (S j0)), (Hget j0) by lia.
  rewrite (proj2 (Nat.eqb_eq _ _)) by lia.
  rewrite IH by (try lia; intros k Hk; apply Hget; lia).
  rewrite (take_S_r _ _ _ Hy), fmap_app, reverse_app, Hy. simpl.
  by rewrite <-(assoc_L (++)).
Qed.

Lemma backtrace_first_column dp str1 str2 fuel i acc :
  (∀ k, k ≤ i → get dp k 0 = k) → i ≤ fuel → i ≤ length str1 →
  backtrace dp str1 str2 fuel i 0 acc
  = Some (acc ++ reverse (imap delete_op (take i str1))).
Proof.
  revert i acc. induction fuel as [|fuel IH]; intros i acc Hget Hfuel Hi.
  { replace i with 0 by lia. simpl. by rewrite app_nil_r. }
  destruct i as [|i0]; [simpl; by rewrite app_nil_r|].
  destruct (lookup_lt_is_Some_2 str1 i0) as [x Hx]; [lia|].
  cbn [backtrace]. change ((0 <? S i0) || (0 <? 0)) with true. cbv iota.
  unfold backtraceStep. change (0 <? 0) with false.
  change (0 <? S i0) with true. cbn [andb].
  replace (S i0 - 1) with i0 by lia.
  rewrite (Hget (S i0)), (Hget i0) by lia.
  rewrite (proj2 (Nat.eqb_eq _ _)) by lia.
  rewrite IH by (try lia; intros k Hk; apply Hget; lia).
  rewrite (take_S_r _ _ _ Hx), imap_app, reverse_app, Hx. simpl.
  rewrite length_take, Nat.min_l, Nat.add_0_r by lia.
  by rewrite <-(assoc_L (++)).
Qed.

Lemma rawOperations_nil_l str2 :
  rawOperations [] str2 = Some (insert_op 0 <$> str2).
Proof.
  unfold rawOperations, backtraceOperations.
  rewrite backtrace_first_row; [|intros k Hk|simpl; lia|done].
  - simpl. by rewrite reverse_involutive, firstn_all.
  - by rewrite filledMatrix_get by (simpl; lia).
Qed.

Lemma rawOperations_nil_r str1 :
  rawOperations str1 [] = Some (imap delete_op str1).
Proof.
  unfold rawOperations, backtraceOperations.
  rewrite backtrace_first_column; [|intros k Hk|simpl; lia|done].
  - simpl. by rewrite reverse_involutive, firstn_all.
  - rewrite filledMatrix_get by (simpl; lia). apply lev_cell_0_r.
Qed.

Lemma lev_cell_nil_r str1 i : lev_cell str1 [] i 0 = i.
Proof. apply lev_cell_0_r. Qed.

Lemma mergeInserts_all pos (l : list jsstring) c :
  mergeInserts (insert_op pos <$> l) pos c = (c ++ concat l, []).
Proof.
  revert c. induction l as [|u l IH]; intros c; simpl.
  { by rewrite app_nil_r. }
  rewrite Nat.eqb_refl. simpl. by rewrite IH, <-(assoc_L (++)).
Qed.

Lemma optimizeFrom_nil fuel prev : optimizeFrom fuel [] prev = [].
Proof. by destruct fuel. Qed.

Lemma optimizeOperations_inserts pos u (l : list jsstring) :
  optimizeOperations (insert_op pos <$> u :: l)
  = [insert_op pos (concat (u :: l))].
Proof.
  rewrite optimizeOperations_from. simpl.
  by rewrite mergeInserts_all, optimizeFrom_nil.
Qed.

Lemma optimizeOperations_no_insert ops :
  Forall (λ op, is_insert op = false) ops → optimizeOperations ops = ops.
Proof.
  intros Hops. rewrite optimizeOperations_from.
  apply optimizeFrom_settled; [done| | |done].
  - eapply Forall_impl; [exact Hops|]. intros op Hop. unfold normalized.
    by rewrite Hop.
  - induction Hops as [|a l Ha _ IH]; [done|].
    destruct l as [|b l]; [done|]. split; [|done].
    intros [Hins _]. by rewrite Ha in Hins.
Qed.

Lemma imap_delete_op_no_insert (str1 : list jsstring) k :
  Forall (λ op, is_insert op = false)
    (imap (λ i, delete_op (k + i)) str1).
Proof.
  revert k. induction str1 as [|x l IH]; intros k; [constructor|].
  rewrite imap_cons. constructor; [done|].
  eapply Forall_impl with (P := λ op, is_insert op = false); [|done].
  erewrite imap_ext; [apply (IH (S k))|].
  intros i y _. simpl. f_equal. lia.
Qed.

Lemma calculateLevenshtein_nil_l now str2 options :
  Levenshtein.calculateLevenshtein now [] str2 options
  = Returns {| editDistance := length str2;
               operations := match str2 with
                             | [] => []
                             | _ :: _ => [insert_op 0 (join str2)]
                             end |}
  ∧ TextProcessor.calculateLevenshtein now [] str2 options
    = Returns {| editDistance := length str2;
                 operations := insert_op 0 <$> str2 |}.
Proof.
  assert (within_budget now (effectiveTimeout options) 0) as Hbudget.
  { intros i Hi. lia. }
  destruct (calculateLevenshtein_returns now [] str2 options Hbudget)
    as (raw & Hraw & -> & ->).
  rewrite rawOperations_nil_l in Hraw. injection Hraw as <-.
  simpl length at 1 3.
  change (lev_cell [] str2 0 (length str2)) with (length str2).
  split; [|done]. f_equal. f_equal.
  destruct str2 as [|u l]; [done|]. apply optimizeOperations_inserts.
Qed.

(** X19. When the first sequence is empty the clock is never consulted:
    whatever the budget and the clock, the engine returns the length of
    the second sequence as the distance and one insert at position 0 that
    carries the whole second text (no operation when that is empty too);
    the engine of textProcessor.ts returns one insert per unit. So
    [calculateLevenshteinForText] on an empty first text returns the
    number of code points of the second text and the text itself in one
    insert. *)
Theorem calculateLevenshtein_empty_source
    (now : nat → Z) (str2 : list jsstring) (text2 : jsstring)
    (options : LevenshteinOptions) :
  Levenshtein.calculateLevenshtein now [] str2 options
  = Returns {| editDistance := length str2;
               operations := match str2 with
                             | [] => []
                             | _ :: _ => [insert_op 0 (join str2)]
                             end |}
  ∧ TextProcessor.calculateLevenshtein now [] str2 options
    = Returns {| editDistance := length str2;
                 operations := insert_op 0 <$> str2 |}
  ∧ calculateLevenshteinForText now [] text2 options
    = Returns {| editDistance := length (splitIntoChars text2);
                 operations := match text2 with
                               | [] => []
                               | _ :: _ => [insert_op 0 text2]
                               end |}.
Proof.
  destruct (calculateLevenshtein_nil_l now str2 options) as [-> ->].
  split_and!; [done..|].
  unfold calculateLevenshteinForText.
  change (splitIntoChars []) with (@nil jsstring).
  rewrite (proj1 (calculateLevenshtein_nil_l now _ options)).
  f_equal. f_equal. rewrite join_splitIntoChars.
  destruct text2 as [|c [|d rest]]; [done..|].
  simpl. by destruct (_ && _).
Qed.

(** X20. When the second sequence is empty, the engine, inside the time
    budget, returns the length of the first sequence as the distance and
    one delete per unit, at the index of the unit, in order: deletes are
    never merged. The engine of textProcessor.ts returns the same. *)
Theorem calculateLevenshtein_empty_target
    (now : nat → Z) (str1 : list jsstring) (options : LevenshteinOptions) :
  within_budget now (effectiveTimeout options) (length str1) →
  Levenshtein.calculateLevenshtein now str1 [] options
  = Returns {| editDistance := length str1;
               operations := imap delete_op str1 |}
  ∧ TextProcessor.calculateLevenshtein now str1 [] options
    = Returns {| editDistance := length str1;
                 operations := imap delete_op str1 |}.
Proof.
  intros Hbudget.
  destruct (calculateLevenshtein_returns now str1 [] options Hbudget)
    as (raw & Hraw & -> & ->).
  rewrite rawOperations_nil_r in Hraw. injection Hraw as <-.
  change (length []) with 0. rewrite lev_cell_nil_r.
  split; [|done]. f_equal. f_equal.
  apply optimizeOperations_no_insert, (imap_delete_op_no_insert str1 0).
Qed.

Lemma calculateLevenshtein_empty_target_witness :
  within_budget frozen_clock (effectiveTimeout {| lev_timeout := None |})
    (length (chars "abc"))
  ∧ Levenshtein.calculateLevenshtein frozen_clock (chars "abc") []
      {| lev_timeout := None |}
    = Returns {| editDistance := 3;
                 operations := [delete_op 0 (js "a"); delete_op 1 (js "b");
                                delete_op 2 (js "c")] |}.
Proof.
  assert (within_budget frozen_clock
            (effectiveTimeout {| lev_timeout := None |})
            (length (chars "abc"))) as Hbudget.
  { intros i _. vm_compute. discriminate. }
  split; [exact Hbudget|].
  exact (proj1 (calculateLevenshtein_empty_target frozen_clock (chars "abc")
                  {| lev_timeout := None |} Hbudget)).
Defined.

(** X21. A negative budget is not refused: with a clock that does not run
    backwards, every call whose first sequence is not empty throws the
    timeout error at the head of the first row. *)
Theorem calculateLevenshtein_negative_timeout
    (now : nat → Z) (str1 str2 : list jsstring) (t : Z) :
  (t < 0)%Z → str1 ≠ [] → (now 0%nat ≤ now 1%nat)%Z →
  Levenshtein.calculateLevenshtein now str1 str2 {| lev_timeout := Some t |}
  = Throws LevenshteinTimeout.
Proof.
  intros Ht Hstr1 Hclock.
  destruct (calculateLevenshtein_outcome now str1 str2
              {| lev_timeout := Some t |}) as [[r Hr]|Hthrows]; [|done].
  apply calculateLevenshtein_returns_inv in Hr.
  destruct str1 as [|x s]; [done|].
  specialize (Hr 1 ltac:(simpl; lia)). unfold effectiveTimeout in Hr.
  simpl in Hr. destruct (Z.eqb_spec t 0); lia.
Qed.

Lemma calculateLevenshtein_negative_timeout_witness :
  Levenshtein.calculateLevenshtein frozen_clock (chars "a") (chars "a")
    {| lev_timeout := Some (-1)%Z |}
  = Throws LevenshteinTimeout.
Proof.
  apply (calculateLevenshtein_negative_timeout frozen_clock (chars "a")
           (chars "a") (-1)); [lia|discriminate|vm_compute; discriminate].
Defined.

End EmptyTexts.

Section Quoting.

Lemma backtrace_quotes dp str1 str2 fuel ops :
  backtrace dp str1 str2 fuel (length str1) (length str2) [] = Some ops →
  Forall (quotes str1 str2) (reverse ops).
Proof.
  intros Hrun.
  pose (Q := λ (i j : nat) (F : list LevenshteinOperation),
          i ≤ length str1 ∧ j ≤ length str2 ∧ Forall (quotes str1 str2) F).
  enough (Q 0 0 (reverse ops)) as (_ & _ & HQ) by done.
  eapply (backtrace_invariant dp str1 str2 Q); [|shelve|exact Hrun].
  Unshelve. 2:{ unfold Q. split_and!; [done..|constructor]. }
  clear. intros i j F o i' j' (Hi & Hj & HQ) Hstep. unfold Q.
  apply backtraceStep_inv in Hstep
    as [(i0 & j0 & -> & -> & -> & -> & -> & Heq)
       |[(i0 & j0 & -> & -> & -> & -> & Hne & _ & ->)
        |[(i0 & -> & -> & -> & _ & ->)
         |(j0 & -> & -> & -> & _ & ->)]]]; simpl.
  - split_and!; [lia..|done].
  - split_and!; [lia..|]. constructor; [|done]. unfold quotes. simpl.
    split_and!; [apply lookup_lt_is_Some_2; lia|done| |done].
    exists j0. split; [apply lookup_lt_is_Some_2; lia|done].
  - split_and!; [lia..|]. constructor; [|done]. unfold quotes. simpl.
    split_and!; [apply lookup_lt_is_Some_2; lia|done..].
  - split_and!; [lia..|]. constructor; [|done]. unfold quotes. simpl.
    split_and!; [done..|apply lookup_lt_is_Some_2; lia].
Qed.

Lemma optimizeFrom_quotes str1 str2 fuel rest prev :
  Forall (quotes str1 str2) rest →
  Forall (quotes str1 str2) (optimizeFrom fuel rest prev).
Proof.
  revert rest prev. induction fuel as [|fuel IH]; intros rest prev Hrest.
  { constructor. }
  destruct rest as [|cur rest1]; [constructor|].
  apply Forall_cons in Hrest as [Hcur Hrest1]. cbn [optimizeFrom].
  destruct (is_insert cur) eqn:Hins.
  - destruct (mergeInserts_spec rest1 (op_position cur)
                (or_empty (newChar cur))) as (run & Hsplit & _).
    destruct (mergeInserts _ _ _) as [mc rest2]. simpl in Hsplit.
    rewrite Hsplit in Hrest1. apply Forall_app in Hrest1 as [_ Hrest2].
    constructor; [|by apply IH].
    unfold quotes in Hcur |- *. simpl.
    apply bool_decide_eq_true in Hins. rewrite Hins in Hcur.
    destruct Hcur as (Hpos & _). split_and!; [done..|by eexists].
  - destruct (blocks prev cur); [by apply IH|].
    constructor; [done|by apply IH].
Qed.

Lemma optimizeFrom_length fuel rest prev :
  length (optimizeFrom fuel rest prev) ≤ length rest.
Proof.
  revert rest prev. induction fuel as [|fuel IH]; intros rest prev.
  { simpl. lia. }
  destruct rest as [|cur rest1]; [done|]. cbn [optimizeFrom].
  destruct (is_insert cur).
  - pose proof (mergeInserts_length rest1 (op_position cur)
                  (or_empty (newChar cur))) as Hlen.
    destruct (mergeInserts _ _ _) as [mc rest2]. simpl in Hlen |- *.
    specialize (IH rest2). 
    match goal with |- S (length (optimizeFrom _ _ ?p)) ≤ _ =>
      specialize (IH p) end. lia.
  - destruct (blocks prev cur); simpl.
    + specialize (IH rest1 prev). lia.
    + specialize (IH rest1 (Some cur)). lia.
Qed.

Lemma calculateLevenshtein_raw now str1 str2 options r :
  Levenshtein.calculateLevenshtein now str1 str2 options = Returns r →
  ∃ raw, rawOperations str1 str2 = Some raw
         ∧ length raw = editDistance r
         ∧ operations r = optimizeFrom (length raw) raw None.
Proof.
  intros Hr.
  pose proof (calculateLevenshtein_returns_inv _ _ _ _ _ Hr) as Hbudget.
  destruct (calculateLevenshtein_returns now str1 str2 options Hbudget)
    as (raw & Hraw & Hlev & _).
  rewrite Hlev in Hr. injection Hr as <-. simpl.
  destruct (rawOperations_spec str1 str2) as (raw' & Hraw' & Hlen & _).
  assert (raw' = raw) as -> by congruence.
  exists raw. by rewrite optimizeOperations_from.
Qed.

Lemma calculateLevenshtein_operations_length now str1 str2 options r :
  Levenshtein.calculateLevenshtein now str1 str2 options = Returns r →
  length (operations r) ≤ editDistance r.
Proof.
  intros (raw & _ & <- & ->)%calculateLevenshtein_raw.
  apply optimizeFrom_length.
Qed.

(** X22. Whatever the engine returns quotes its inputs: a delete and a
    replace carry the unit of the first sequence at their position, a
    replace carries a different unit of the second sequence as well, an
    insert carries new content only and stands at a position of the first
    sequence or right after its end; and there are never more operations
    than the edit distance. *)
Theorem calculateLevenshtein_operations_quote
    (now : nat → Z) (str1 str2 : list jsstring)
    (options : LevenshteinOptions) (r : LevenshteinResult) :
  Levenshtein.calculateLevenshtein now str1 str2 options = Returns r →
  Forall (quotes str1 str2) (operations r)
  ∧ length (operations r) ≤ editDistance r.
Proof.
  intros Hr. split; [|by eapply calculateLevenshtein_operations_length].
  apply calculateLevenshtein_raw in Hr as (raw & Hraw & _ & ->).
  apply optimizeFrom_quotes.
  unfold rawOperations, backtraceOperations in Hraw.
  destruct (backtrace _ _ _ _ _ _ _) as [ops|] eqn:Hrun; [|done].
  injection Hraw as <-. by eapply backtrace_quotes.
Qed.

Lemma calculateLevenshtein_operations_quote_witness :
  Levenshtein.calculateLevenshtein frozen_clock (chars "kitten")
    (chars "sitting") {| lev_timeout := None |}
  = Returns {| editDistance := 3;
               operations := [sample_replace 0 "k" "s";
                              sample_replace 4 "e" "i";
                              sample_insert 6 "g"] |}
  ∧ Forall (quotes (chars "kitten") (chars "sitting"))
      [sample_replace 0 "k" "s"; sample_replace 4 "e" "i";
       sample_insert 6 "g"]
  ∧ 3 ≤ 3.
Proof.
  assert (Levenshtein.calculateLevenshtein frozen_clock (chars "kitten")
            (chars "sitting") {| lev_timeout := None |}
          = Returns {| editDistance := 3;
                       operations := [sample_replace 0 "k" "s";
                                      sample_replace 4 "e" "i";
                                      sample_insert 6 "g"] |}) as Hr.
  { vm_compute. reflexivity. }
  split; [exact Hr|].
  exact (calculateLevenshtein_operations_quote frozen_clock
           (chars "kitten") (chars "sitting") {| lev_timeout := None |}
           _ Hr).
Defined.

End Quoting.

(** ** Statistics of a diff *)

Section Stats.

Lemma calculateDiffStats_fold (l : list DiffRecord) a d m :
  foldl (λ '(additions, deletions, modifications) diff,
           match type diff with
           | Diff.add => (additions + 1, deletions, modifications)
           | Diff.delete => (additions, deletions + 1, modifications)
           | Diff.modify => (additions, deletions, modifications + 1)
           end) (a, d, m) l
  = (a + length (filter (λ r, type r = Diff.add) l),
     d + length (filter (λ r, type r = Diff.delete) l),
     m + length (filter (λ r, type r = Diff.modify) l)).
Proof.
  revert a d m. induction l as [|r l IH]; intros a d m; simpl.
  { by rewrite !Nat.add_0_r. }
  rewrite !filter_cons. destruct (type r); rewrite IH;
    repeat case_decide; try done; simpl;
    (apply pair_equal_spec; split; [apply pair_equal_spec; split|]); lia.
Qed.

Lemma filter_type_length (l : list DiffRecord) :
  length (filter (λ r, type r = Diff.add) l)
  + length (filter (λ r, type r = Diff.delete) l)
  + length (filter (λ r, type r = Diff.modify) l) = length l.
Proof.
  induction l as [|r l IH]; [done|].
  rewrite !filter_cons. destruct (type r); repeat case_decide; try done;
    simpl; lia.
Qed.

Lemma convertOperationsToDiffRecords_length ops :
  length (convertOperationsToDiffRecords ops) = length ops.
Proof. apply length_fmap. Qed.

(** X23. [calculateDiffStats] counts the records of each type, so its three
    counts add up to the number of records, and it passes the similarity
    on; for a result of [calculateDiff] the three counts add up to at most
    the edit distance. *)
Theorem calculateDiffStats_counts
    (toLowerCase : jsstring → jsstring) (now : nat → Z)
    (text1 text2 : jsstring) (options : DiffOptions) (r : DiffResult) :
  (additions (calculateDiffStats r)
   = length (filter (λ d, type d = Diff.add) (diffs r))
   ∧ deletions (calculateDiffStats r)
     = length (filter (λ d, type d = Diff.delete) (diffs r))
   ∧ modifications (calculateDiffStats r)
     = length (filter (λ d, type d = Diff.modify) (diffs r))
   ∧ additions (calculateDiffStats r) + deletions (calculateDiffStats r)
     + modifications (calculateDiffStats r) = length (diffs r)
   ∧ stats_similarity (calculateDiffStats r) = similarity r)
  ∧ (calculateDiff toLowerCase now text1 text2 options = Returns r →
     additions (calculateDiffStats r) + deletions (calculateDiffStats r)
     + modifications (calculateDiffStats r) ≤ res_editDistance r).
Proof.
  unfold calculateDiffStats. rewrite calculateDiffStats_fold. simpl.
  pose proof (filter_type_length (diffs r)) as Hsum.
  split; [split_and!; done || lia|].
  rewrite Hsum, calculateDiff_unfold.
  destruct (Levenshtein.calculateLevenshtein _ _ _ _) as [lr| |] eqn:Hlev;
    [|done..].
  intros [= <-]. simpl. rewrite convertOperationsToDiffRecords_length.
  by eapply calculateLevenshtein_operations_length.
Qed.

Lemma calculateDiffStats_counts_witness :
  ∃ r, calculateDiff id frozen_clock (js "kitten") (js "sitting") no_options
       = Returns r
       ∧ additions (calculateDiffStats r) = 1
       ∧ deletions (calculateDiffStats r) = 0
       ∧ modifications (calculateDiffStats r) = 2
       ∧ additions (calculateDiffStats r) + deletions (calculateDiffStats r)
         + modifications (calculateDiffStats r) ≤ res_editDistance r.
Proof.
  eexists. split; [vm_compute; reflexivity|].
  split_and!; [reflexivity..|].
  apply (proj2 (calculateDiffStats_counts id frozen_clock (js "kitten")
                  (js "sitting") no_options _)).
  vm_compute. reflexivity.
Defined.

End Stats.

(** ** The units of a text *)

Section Units.

Lemma even_S_S k : Nat.even (S (S k)) = Nat.even k.
Proof. done. Qed.

Lemma splitLines_pieces tok text k piece :
  CHAR_LF ∉ tok → splitLines tok text !! k = Some piece →
  if Nat.even k then CHAR_LF ∉ piece else piece = [CHAR_LF].
Proof.
  revert tok k. induction text as [|c rest IH]; intros tok k Htok Hk.
  - simpl in Hk. apply list_lookup_singleton_Some in Hk as [-> <-]. done.
  - simpl in Hk. destruct (N.eqb_spec c CHAR_LF) as [->|Hc].
    + destruct k as [|[|k]]; simpl in Hk.
      * by injection Hk as <-.
      * by injection Hk as <-.
      * rewrite even_S_S. apply (IH [] k); [|done]. apply not_elem_of_nil.
    + apply (IH (tok ++ [c]) k); [|done].
      apply not_elem_of_app. split; [done|].
      intros Heq%list_elem_of_singleton. by destruct Hc.
Qed.

Lemma splitLines_length tok text :
  length (splitLines tok text)
  = 2 * length (filter (λ c, c = CHAR_LF) text) + 1.
Proof.
  revert tok. induction text as [|c rest IH]; intros tok; [done|].
  simpl. rewrite filter_cons.
  destruct (N.eqb_spec c CHAR_LF) as [->|Hc].
  - rewrite decide_True by done. simpl. rewrite IH. lia.
  - rewrite decide_False by done. apply IH.
Qed.

Lemma splitWords_pieces text :
  (∀ tok, Forall no_space tok →
          words_from_piece tok (splitWords tok None text))
  ∧ (∀ tok r, r ≠ [] → Forall space r →
              words_from_run (splitWords tok (Some r) text)).
Proof.
  induction text as [|c rest [IHpiece IHrun]]; split.
  - intros tok Htok k piece Hk. simpl in Hk.
    apply list_lookup_singleton_Some in Hk as [-> <-]. simpl. by auto.
  - intros tok r Hr Hspace k piece Hk. simpl in Hk.
    destruct k as [|[|k]]; simpl in Hk; [| |done].
    + by injection Hk as <-.
    + injection Hk as <-. simpl. by split; [constructor|].
  - intros tok Htok k piece Hk. simpl in Hk |- *.
    destruct (is_js_space c) eqn:Hc.
    + destruct k as [|k]; simpl in Hk.
      { injection Hk as <-. simpl. by auto. }
      assert ([c] ≠ []) as Hne by done.
      pose proof (IHrun [] [c] Hne ltac:(by constructor) k piece Hk) as H.
      rewrite Nat.even_succ, <-Nat.negb_even.
      destruct (Nat.even k); simpl; [done|].
      destruct H as [Hpiece Hlast]. split; [done|].
      intros Hnil. right. simpl. f_equal. by apply Hlast.
    + assert (Forall no_space (tok ++ [c])) as Htok'.
      { apply Forall_app. split; [done|]. by constructor. }
      pose proof (IHpiece (tok ++ [c]) Htok' k piece Hk) as H.
      destruct (Nat.even k); [|done].
      destruct H as [Hpiece Hlast]. split; [done|].
      intros Hnil. destruct (Hlast Hnil) as [[_ Habs]|Hk']; [|by right].
      by destruct tok.
  - intros tok r Hr Hspace k piece Hk. simpl in Hk |- *.
    destruct (is_js_space c) eqn:Hc.
    + apply (IHrun [] (r ++ [c])); [by destruct r| |done].
      apply Forall_app. split; [done|]. by constructor.
    + destruct k as [|k]; simpl in Hk.
      { by injection Hk as <-. }
      pose proof (IHpiece [c] ltac:(by constructor) k piece Hk) as H.
      rewrite Nat.even_succ, <-Nat.negb_even.
      destruct (Nat.even k); simpl; [|done].
      destruct H as [Hpiece Hlast]. split; [done|].
      intros Hnil. simpl. f_equal.
      by destruct (Hlast Hnil) as [[_ Habs]|Hk'].
Qed.

Lemma splitWords_length text :
  (∀ tok, Nat.odd (length (splitWords tok None text)) = true)
  ∧ (∀ tok r, Nat.even (length (splitWords tok (Some r) text)) = true).
Proof.
  induction text as [|c rest [IHpiece IHrun]]; split; intros tok; try done.
  - simpl. destruct (is_js_space c); [|done].
    simpl length. rewrite Nat.odd_succ. apply IHrun.
  - intros r. simpl. destruct (is_js_space c); [done|].
    simpl length. rewrite Nat.even_succ. apply IHpiece.
Qed.

(** X24. Splitting loses nothing: whatever the precision string, joining
    the units that [getSplitFunction] produces gives the text back. *)
Theorem getSplitFunction_join (precision : string) (text : jsstring) :
  join (getSplitFunction precision text) = text.
Proof. apply join_getSplitFunction. Qed.

(** X25. At line precision the units alternate: the units at even indices
    are the lines, which hold no line feed, and every unit at an odd index
    is one line feed; a text with k line feeds gives 2k + 1 units. *)
Theorem splitLines_alternate (text : jsstring) :
  length (getSplitFunction "line" text)
  = 2 * length (filter (λ c, c = CHAR_LF) text) + 1
  ∧ ∀ k piece, getSplitFunction "line" text !! k = Some piece →
      if Nat.even k then CHAR_LF ∉ piece else piece = [CHAR_LF].
Proof.
  change (getSplitFunction "line" text) with (splitLines [] text).
  split; [apply splitLines_length|].
  intros k piece. apply splitLines_pieces, not_elem_of_nil.
Qed.

Lemma splitLines_alternate_witness :
  getSplitFunction "line" (js "ab" ++ [CHAR_LF] ++ js "c") !! 1
  = Some [CHAR_LF].
Proof.
  assert (getSplitFunction "line" (js "ab" ++ [CHAR_LF] ++ js "c") !! 1
          = Some [CHAR_LF]) as Hk by reflexivity.
  pose proof (proj2 (splitLines_alternate (js "ab" ++ [CHAR_LF] ++ js "c"))
                1 [CHAR_LF] Hk) as _.
  exact Hk.
Defined.

(** X26. At word precision the units alternate between words and the
    white space between them: there is an odd number of units, a unit at
    an even index holds no white space and is empty only if it is the first
    or the last one, and a unit at an odd index is a non-empty run of white
    space. *)
Theorem splitWords_alternate (text : jsstring) :
  Nat.odd (length (getSplitFunction "word" text)) = true
  ∧ ∀ k piece, getSplitFunction "word" text !! k = Some piece →
      if Nat.even k
      then Forall (λ c, is_js_space c = false) piece
           ∧ (piece = [] →
              k = 0 ∨ S k = length (getSplitFunction "word" text))
      else piece ≠ [] ∧ Forall (λ c, is_js_space c = true) piece.
Proof.
  change (getSplitFunction "word" text) with (splitWords [] None text).
  split; [apply splitWords_length|].
  intros k piece Hk.
  pose proof (proj1 (splitWords_pieces text) [] ltac:(constructor)
                k piece Hk) as H.
  destruct (Nat.even k); [|done].
  destruct H as [Hpiece Hlast]. split; [done|].
  intros Hnil. destruct (Hlast Hnil) as [[-> _]|Hk']; by auto.
Qed.

Lemma splitWords_alternate_witness :
  getSplitFunction "word" (js "a  b ") !! 1 = Some (js "  ")
  ∧ js "  " ≠ [] ∧ Forall (λ c, is_js_space c = true) (js "  ").
Proof.
  assert (getSplitFunction "word" (js "a  b ") !! 1 = Some (js "  "))
    as Hk by reflexivity.
  split; [exact Hk|].
  exact (proj2 (splitWords_alternate (js "a  b ")) 1 (js "  ") Hk).
Defined.

End Units.

(** ** The variant on diff-match-patch *)

Section Variant.

Lemma in_position_order_above (r : DiffRecord) (l : list DiffRecord) :
  (∀ r', r' ∈ l → position r ≤ position r') →
  in_position_order l → in_position_order (r :: l).
Proof.
  intros Habove Hl. destruct l as [|b l]; [done|].
  rewrite in_position_order_cons. apply andb_True. split; [|done].
  apply Is_true_true, Nat.leb_le, Habove. left.
Qed.

Lemma convertDiffsFrom_rooted D I E prefix position2 diffs :
  Forall (Dmp.rooted (prefix ++ Dmp.sourceOf D E diffs))
    (Dmp.convertDiffsFrom D I E (length prefix) position2 diffs)
  ∧ (∀ r,
       r ∈ Dmp.convertDiffsFrom D I E (length prefix) position2 diffs →
       length prefix ≤ position r)
  ∧ in_position_order
      (Dmp.convertDiffsFrom D I E (length prefix) position2 diffs).
Proof.
  revert prefix position2.
  induction diffs as [|[operation text] rest IH]; intros prefix position2.
  { split_and!; [constructor| |done]. by intros r ?%elem_of_nil. }
  unfold Dmp.sourceOf. rewrite bind_cons.
  fold (Dmp.sourceOf D E rest).
  cbn [Dmp.convertDiffsFrom].
  assert (length prefix + length text = length (prefix ++ text)) as Hlen.
  { by rewrite length_app. }
  destruct (Z.eqb_spec operation E) as [->|HE]; simpl orb.
  { rewrite Hlen, (assoc_L (++)).
    destruct (IH (prefix ++ text) (position2 + length text))
      as (Hrooted & Habove & Horder).
    split_and!; [done| |done].
    intros r Hr%Habove. rewrite length_app in Hr. lia. }
  destruct (Z.eqb_spec operation D) as [->|HD].
  { rewrite Hlen, (assoc_L (++)).
    destruct (IH (prefix ++ text) position2) as (Hrooted & Habove & Horder).
    split_and!.
    - constructor; [|done]. split; [done|]. simpl.
      rewrite <-(assoc_L (++)), drop_app_length, take_app_length.
      split; [done|]. rewrite !length_app. lia.
    - intros r [->|Hr%Habove]%elem_of_cons; [done|].
      rewrite length_app in Hr. lia.
    - apply in_position_order_above; [|done].
      intros r' Hr'%Habove. rewrite length_app in Hr'. simpl. lia. }
  simpl app.
  destruct (IH prefix (position2 + length text))
    as (Hrooted & Habove & Horder).
  destruct (IH prefix position2) as (Hrooted' & Habove' & Horder').
  destruct (Z.eqb_spec operation I) as [->|HI]; [|done].
  split_and!.
  - constructor; [|done]. split; [done|]. simpl. rewrite length_app. lia.
  - by intros r [->|Hr%Habove]%elem_of_cons.
  - apply in_position_order_above; [|done].
    intros r' Hr'%Habove. done.
Qed.

Lemma calculateEditDistance_fold D I E position1 position2 diffs acc :
  Forall (λ d, d.1 ∈ [D; I; E]) diffs →
  foldl (λ distance '(operation, text),
           if negb (operation =? E)%Z then distance + length text
           else distance) acc diffs
  = acc + sum_list ((λ r, length (content r))
                    <$> Dmp.convertDiffsFrom D I E position1 position2 diffs).
Proof.
  intros Hdiffs. revert position1 position2 acc.
  induction Hdiffs as [|[operation text] rest Hop _ IH];
    intros position1 position2 acc; simpl.
  { lia. }
  simpl in Hop.
  destruct (Z.eqb_spec operation E) as [->|HE]; simpl; [apply IH|].
  destruct (Z.eqb_spec operation D) as [->|HD]; simpl.
  { rewrite (IH (position1 + length text) position2).
    exact (eq_sym (Nat.add_assoc _ _ _)). }
  destruct (Z.eqb_spec operation I) as [->|HI]; simpl.
  { rewrite (IH position1 (position2 + length text)).
    exact (eq_sym (Nat.add_assoc _ _ _)). }
  repeat (apply elem_of_cons in Hop as [Hop|Hop]; [done|]).
  by apply elem_of_nil in Hop.
Qed.

(** X27. The records of [convertDiffsToRecords] are rooted in the first
    text, which is the equal and the deleted pieces of the diff list in
    order: they come in position order, a delete carries the slice of that
    text at its position, an add stands at a position of it or right after
    its end, no record is a modify; and when every piece bears one of the
    three tags, [calculateEditDistance] is the total length of the contents
    of the records. *)
Theorem convertDiffsToRecords_rooted
    (DIFF_DELETE DIFF_INSERT DIFF_EQUAL : Z) (diffs : list (Z * jsstring)) :
  Forall (Dmp.rooted (Dmp.sourceOf DIFF_DELETE DIFF_EQUAL diffs))
    (Dmp.convertDiffsToRecords DIFF_DELETE DIFF_INSERT DIFF_EQUAL diffs)
  ∧ in_position_order
      (Dmp.convertDiffsToRecords DIFF_DELETE DIFF_INSERT DIFF_EQUAL diffs)
    = true
  ∧ (Forall (λ d, d.1 ∈ [DIFF_DELETE; DIFF_INSERT; DIFF_EQUAL]) diffs →
     Dmp.calculateEditDistance DIFF_EQUAL diffs
     = sum_list ((λ r, length (content r))
                 <$> Dmp.convertDiffsToRecords DIFF_DELETE DIFF_INSERT
                       DIFF_EQUAL diffs)).
Proof.
  destruct (convertDiffsFrom_rooted DIFF_DELETE DIFF_INSERT DIFF_EQUAL
              [] 0 diffs) as (Hrooted & _ & Horder).
  split_and!; [done|by apply Is_true_true|].
  intros Hdiffs.
  unfold Dmp.calculateEditDistance, Dmp.convertDiffsToRecords.
  by rewrite (calculateEditDistance_fold DIFF_DELETE DIFF_INSERT DIFF_EQUAL
                0 0 diffs 0 Hdiffs).
Qed.

Lemma convertDiffsToRecords_rooted_witness :
  Forall (λ d, d.1 ∈ [-1; 1; 0]%Z)
    [(0%Z, js "ab"); ((-1)%Z, js "c"); (1%Z, js "de")]
  ∧ Dmp.calculateEditDistance 0
      [(0%Z, js "ab"); ((-1)%Z, js "c"); (1%Z, js "de")] = 3.
Proof.
  assert (Forall (λ d : Z * jsstring, d.1 ∈ [-1; 1; 0]%Z)
            [(0%Z, js "ab"); ((-1)%Z, js "c"); (1%Z, js "de")]) as Htags.
  { repeat constructor. }
  split; [exact Htags|].
  exact (proj2 (proj2 (convertDiffsToRecords_rooted (-1) 1 0
                         [(0%Z, js "ab"); ((-1)%Z, js "c");
                          (1%Z, js "de")])) Htags).
Defined.

Lemma insertByPosition_perm r l : insertByPosition r l ≡ₚ r :: l.
Proof.
  induction l as [|s l IH]; [done|]. simpl.
  destruct (position r <=? position s); [done|].
  by rewrite IH, Permutation_swap.
Qed.

Lemma sortByPosition_perm diffs : sortByPosition diffs ≡ₚ diffs.
Proof.
  induction diffs as [|r l IH]; [done|]. simpl.
  by rewrite insertByPosition_perm, IH.
Qed.

Lemma pending_ext P P' j rest :
  (∀ k r, rest !! k = Some r → type r = Diff.delete →
          j + k ∈ P ↔ j + k ∈ P') →
  Dmp.pending P j rest = Dmp.pending P' j rest.
Proof.
  revert j. induction rest as [|r rest IH]; intros j Hsame; [done|].
  simpl. f_equal.
  - destruct (decide (type r = Diff.delete)) as [Hr|Hr].
    + pose proof (Hsame 0 r eq_refl Hr) as H0. rewrite Nat.add_0_r in H0.
      destruct (decide (j ∈ P)).
      * by rewrite !bool_decide_false by tauto.
      * by rewrite !bool_decide_true by tauto.
    + by rewrite !bool_decide_false by tauto.
  - apply IH. intros k r' Hk Hr'.
    replace (S j + k) with (j + S k) by lia. by apply (Hsame (S k) r').
Qed.

Lemma elem_of_insert_ne (P : gset nat) x k :
  k ≠ x → k ∈ {[x]} ∪ P ↔ k ∈ P.
Proof. intros Hne. rewrite elem_of_union, elem_of_singleton. tauto. Qed.

Lemma pending_insert_skip P x j rest :
  (∀ r, j ≤ x → rest !! (x - j) = Some r → type r ≠ Diff.delete) →
  Dmp.pending ({[x]} ∪ P) j rest = Dmp.pending P j rest.
Proof.
  intros Hx. apply pending_ext. intros k r Hk Hr.
  destruct (decide (j + k = x)) as [<-|Hne]; [|by apply elem_of_insert_ne].
  destruct (Hx r); [lia| |done]. by replace (j + k - j) with k by lia.
Qed.

Lemma pending_insert_delete P x j rest r :
  j ≤ x → rest !! (x - j) = Some r → type r = Diff.delete → x ∉ P →
  Dmp.pending P j rest = S (Dmp.pending ({[x]} ∪ P) j rest).
Proof.
  revert j. induction rest as [|r0 rest IH]; intros j Hj Hx Hr HP; [done|].
  simpl. destruct (decide (x = j)) as [->|Hne].
  - rewrite Nat.sub_diag in Hx. injection Hx as ->.
    rewrite bool_decide_true by done.
    rewrite bool_decide_false.
    2:{ intros [Hj' _]. apply Hj', elem_of_union. left.
        by apply elem_of_singleton. }
    simpl. f_equal.
    symmetry. apply pending_insert_skip. intros r' Hle. lia.
  - replace (x - j) with (S (x - S j)) in Hx by lia. simpl in Hx.
    rewrite (IH (S j)) by (done || lia).
    rewrite Nat.add_succ_r. f_equal. f_equal.
    erewrite bool_decide_ext; [done|].
    by rewrite (elem_of_insert_ne P x j).
Qed.

Lemma pending_zero P j rest :
  (∀ k r, rest !! k = Some r → type r = Diff.delete → j + k ∈ P) →
  Dmp.pending P j rest = 0.
Proof.
  revert j. induction rest as [|r rest IH]; intros j Hall; [done|].
  simpl. rewrite IH.
  - rewrite bool_decide_false; [done|]. intros [Hj Hr].
    apply Hj. specialize (Hall 0 r eq_refl Hr). by rewrite Nat.add_0_r in Hall.
  - intros k r' Hk Hr'. replace (S j + k) with (j + S k) by lia.
    by apply (Hall (S k) r').
Qed.

Lemma pending_empty j rest :
  Dmp.pending ∅ j rest
  = length (filter (λ r, type r = Diff.delete) rest).
Proof.
  revert j. induction rest as [|r rest IH]; intros j; [done|].
  simpl. rewrite filter_cons, IH.
  destruct (decide (type r = Diff.delete)) as [Hr|Hr].
  - by rewrite bool_decide_true by set_solver.
  - by rewrite bool_decide_false by tauto.
Qed.

Lemma findAdjacentDelete_Some P i diff j rest x :
  Dmp.findAdjacentDelete P i diff j rest = Some x →
  j ≤ x ∧ x ≠ i ∧ (x ∉ P)
  ∧ ∃ r, rest !! (x - j) = Some r ∧ type r = Diff.delete.
Proof.
  revert j. induction rest as [|candidate rest IH]; intros j; [done|].
  simpl. destruct (_ && _) eqn:Htest.
  - intros [= <-].
    apply andb_prop in Htest as [Htest _].
    apply andb_prop in Htest as [Htest Hdel%bool_decide_eq_true].
    apply andb_prop in Htest
      as [Hi%bool_decide_eq_true HP%bool_decide_eq_true].
    split_and!; [done|done|done|]. exists candidate.
    by rewrite Nat.sub_diag.
  - intros (Hj & Hi & HP & r & Hr & Hdel)%IH.
    split_and!; [lia|done|done|]. exists r. split; [|done].
    by replace (x - j) with (S (x - S j)) by lia.
Qed.

Lemma tallyStep_tallied visited diff rest t :
  Dmp.tallied (visited ++ diff :: rest) visited t →
  Dmp.tallied (visited ++ diff :: rest) (visited ++ [diff])
    (Dmp.tallyStep (visited ++ diff :: rest) t (length visited) diff).
Proof.
  set (sorted := visited ++ diff :: rest).
  assert (sorted !! length visited = Some diff) as Hdiff.
  { unfold sorted. by rewrite list_lookup_middle. }
  intros (Hdel & Hadd & Hadds & Hdels).
  assert (∀ (P' : gset nat),
            Dmp.processedIndices t ⊆ P' →
            (type diff = Diff.delete → length visited ∈ P') →
            ∀ k r, (visited ++ [diff]) !! k = Some r →
                   type r = Diff.delete → k ∈ P')
    as Hdel'.
  { intros P' Hsub Hhere k r Hk Hr.
    apply lookup_snoc_Some in Hk as [[Hlt Hk]|[-> ->]].
    - apply Hsub. by eapply Hdel.
    - by apply Hhere. }
  unfold Dmp.tallyStep, Dmp.tallied.
  rewrite !filter_app, !length_app, filter_cons.
  simpl length. case_bool_decide as Hin.
  { assert (type diff ≠ Diff.add) as Hnot.
    { intros Hty. specialize (Hadd _ _ Hin Hdiff Hty). lia. }
    rewrite decide_False by done. simpl.
    split_and!; [by apply Hdel'|intros k r Hk Hr Hty|lia|done].
    specialize (Hadd _ _ Hk Hr Hty). lia. }
  destruct (type diff) eqn:Hty.
  - rewrite decide_True by done.
    destruct (Dmp.findAdjacentDelete _ _ _ _ _) as [j|] eqn:Hfind; simpl.
    + apply findAdjacentDelete_Some in Hfind
        as (_ & Hji & HjP & rj & Hrj & Hrjdel).
      rewrite Nat.sub_0_r in Hrj. fold sorted in Hrj.
      split_and!.
      * apply Hdel'; [set_solver|done].
      * intros k r Hk Hr Hradd.
        apply elem_of_union in Hk as [->%elem_of_singleton|Hk].
        { congruence. }
        apply elem_of_union in Hk as [->%elem_of_singleton|Hk]; [lia|].
        specialize (Hadd _ _ Hk Hr Hradd). lia.
      * lia.
      * rewrite (pending_insert_delete (Dmp.processedIndices t) j 0 sorted
                   rj) in Hdels; [|lia|by rewrite Nat.sub_0_r|done|done].
        rewrite <-Hdels.
        rewrite (pending_ext ({[j]} ∪ ({[length visited]}
                                       ∪ Dmp.processedIndices t))
                   ({[j]} ∪ Dmp.processedIndices t)); [lia|].
        intros k r Hk Hr. simpl.
        destruct (decide (k = length visited)) as [->|Hne]; [congruence|].
        rewrite !elem_of_union, !elem_of_singleton. tauto.
    + split_and!; [by apply Hdel'| |lia|done].
      intros k r Hk Hr Hradd. specialize (Hadd _ _ Hk Hr Hradd). lia.
  - rewrite decide_False by done. simpl.
    split_and!.
    + apply Hdel'; simpl; set_solver.
    + intros k r Hk Hr Hradd.
      apply elem_of_union in Hk as [->%elem_of_singleton|Hk]; [lia|].
      specialize (Hadd _ _ Hk Hr Hradd). lia.
    + lia.
    + rewrite (pending_insert_delete (Dmp.processedIndices t) (length visited)
                 0 sorted diff) in Hdels;
        [|lia|by rewrite Nat.sub_0_r|done|done].
      lia.
  - rewrite decide_False by done. simpl.
    split_and!; [by apply Hdel'| |lia|done].
    intros k r Hk Hr Hradd. specialize (Hadd _ _ Hk Hr Hradd). lia.
Qed.

Lemma tallyLoop_tallied visited rest t :
  Dmp.tallied (visited ++ rest) visited t →
  Dmp.tallied (visited ++ rest) (visited ++ rest)
    (Dmp.tallyLoop (visited ++ rest) (length visited) rest t).
Proof.
  revert visited t. induction rest as [|diff rest IH]; intros visited t Ht.
  { by rewrite app_nil_r in *. }
  cbn [Dmp.tallyLoop]. apply tallyStep_tallied in Ht.
  rewrite (cons_middle diff), (assoc_L (++)) in Ht |- *.
  specialize (IH (visited ++ [diff]) _ Ht).
  by rewrite length_app, Nat.add_1_r in IH.
Qed.

(** X28. In the variant that pairs records, every add is counted once, as
    an addition or as a modification, and every delete once, as a deletion
    or as a modification; modify records are not counted at all, and the
    similarity is passed on. *)
Theorem calculateDiffStats_pairs (diffResult : DiffResult) :
  additions (Dmp.calculateDiffStats diffResult)
  + modifications (Dmp.calculateDiffStats diffResult)
  = length (filter (λ r, type r = Diff.add) (diffs diffResult))
  ∧ deletions (Dmp.calculateDiffStats diffResult)
    + modifications (Dmp.calculateDiffStats diffResult)
    = length (filter (λ r, type r = Diff.delete) (diffs diffResult))
  ∧ stats_similarity (Dmp.calculateDiffStats diffResult)
    = similarity diffResult.
Proof.
  unfold Dmp.calculateDiffStats. simpl.
  set (sorted := sortByPosition (diffs diffResult)).
  set (t0 := {| Dmp.tally_additions := 0; Dmp.tally_deletions := 0;
                Dmp.tally_modifications := 0;
                Dmp.processedIndices := ∅ |}).
  assert (Dmp.tallied ([] ++ sorted) [] t0) as Ht0.
  { split_and!; [done|set_solver|done|]. simpl. apply pending_empty. }
  apply tallyLoop_tallied in Ht0. simpl in Ht0.
  destruct Ht0 as (Hdel & _ & Hadds & Hdels).
  rewrite pending_zero in Hdels.
  2:{ intros k r Hk Hr. by eapply Hdel. }
  rewrite <-(sortByPosition_perm (diffs diffResult)). fold sorted.
  split_and!; [lia|lia|done].
Qed.

End Variant.

(** ** The viewer and the export *)

Section Viewer.

Lemma replace_unit_cons c s x text :
  replace_unit c s (x :: text)
  = (if (x =? c)%N then s else [x]) ++ replace_unit c s text.
Proof. done. Qed.

Lemma replace_unit_app c s text1 text2 :
  replace_unit c s (text1 ++ text2)
  = replace_unit c s text1 ++ replace_unit c s text2.
Proof. apply bind_app. Qed.

Lemma escape_unit_cases c :
  (c = CHAR_AMP ∧ escape_unit c = js "&amp;")
  ∨ (c = CHAR_LT ∧ escape_unit c = js "&lt;")
  ∨ (c = CHAR_GT ∧ escape_unit c = js "&gt;")
  ∨ (c = CHAR_QUOT ∧ escape_unit c = js "&quot;")
  ∨ (c = CHAR_APOS ∧ escape_unit c = js "&#39;")
  ∨ ((c ∉ [CHAR_AMP; CHAR_LT; CHAR_GT; CHAR_QUOT; CHAR_APOS])
     ∧ escape_unit c = [c]).
Proof.
  unfold escape_unit.
  destruct (N.eqb_spec c CHAR_AMP); [by auto|].
  destruct (N.eqb_spec c CHAR_LT); [by auto 10|].
  destruct (N.eqb_spec c CHAR_GT); [by auto 10|].
  destruct (N.eqb_spec c CHAR_QUOT); [by auto 10|].
  destruct (N.eqb_spec c CHAR_APOS); [by auto 10|].
  do 5 right. split; [|done]. intros Hin.
  repeat (apply elem_of_cons in Hin as [Hin|Hin]; [done|]).
  by apply elem_of_nil in Hin.
Qed.

Lemma escapeHtml_cons c text :
  escapeHtml (c :: text) = escape_unit c ++ escapeHtml text.
Proof.
  unfold escapeHtml. rewrite (replace_unit_cons CHAR_AMP).
  rewrite !replace_unit_app. f_equal.
  destruct (escape_unit_cases c)
    as [[-> ->]|[[-> ->]|[[-> ->]|[[-> ->]|[[-> ->]|[Hc ->]]]]]];
    [reflexivity..|].
  repeat (apply not_elem_of_cons in Hc as [? Hc]).
  rewrite (proj2 (N.eqb_neq c CHAR_AMP)) by done.
  rewrite !replace_unit_cons.
  rewrite (proj2 (N.eqb_neq c CHAR_LT)) by done. simpl app.
  rewrite !replace_unit_cons.
  rewrite (proj2 (N.eqb_neq c CHAR_GT)) by done. simpl app.
  rewrite !replace_unit_cons.
  rewrite (proj2 (N.eqb_neq c CHAR_QUOT)) by done. simpl app.
  rewrite !replace_unit_cons.
  by rewrite (proj2 (N.eqb_neq c CHAR_APOS)) by done.
Qed.

Lemma escapeHtml_bind text : escapeHtml text = text ≫= escape_unit.
Proof.
  induction text as [|c text IH]; [done|].
  by rewrite escapeHtml_cons, bind_cons, IH.
Qed.

Lemma escape_unit_safe c x :
  x ∈ escape_unit c → x ∉ [CHAR_LT; CHAR_GT; CHAR_QUOT; CHAR_APOS].
Proof.
  destruct (escape_unit_cases c)
    as [[-> ->]|[[-> ->]|[[-> ->]|[[-> ->]|[[-> ->]|[Hc ->]]]]]].
  1-5: intros Hx Hbad;
    repeat (apply elem_of_cons in Hx as [->|Hx];
            [repeat (apply elem_of_cons in Hbad as [Hbad|Hbad];
                     [discriminate|]);
             by apply elem_of_nil in Hbad|]);
    by apply elem_of_nil in Hx.
  intros ->%list_elem_of_singleton Hbad. apply Hc. by right.
Qed.

Lemma escapeHtml_inj text1 text2 :
  escapeHtml text1 = escapeHtml text2 → text1 = text2.
Proof.
  revert text2. induction text1 as [|c text1 IH]; intros [|d text2].
  - done.
  - rewrite escapeHtml_cons.
    by destruct (escape_unit_cases d)
      as [[-> ->]|[[-> ->]|[[-> ->]|[[-> ->]|[[-> ->]|[_ ->]]]]]].
  - rewrite escapeHtml_cons.
    by destruct (escape_unit_cases c)
      as [[-> ->]|[[-> ->]|[[-> ->]|[[-> ->]|[[-> ->]|[_ ->]]]]]].
  - rewrite !escapeHtml_cons. intros Heq.
    enough (c = d ∧ escapeHtml text1 = escapeHtml text2) as [-> ?%IH].
    { by f_equal. }
    destruct (escape_unit_cases c)
      as [[-> Hc]|[[-> Hc]|[[-> Hc]|[[-> Hc]|[[-> Hc]|[Hc' Hc]]]]]];
      destruct (escape_unit_cases d)
        as [[-> Hd]|[[-> Hd]|[[-> Hd]|[[-> Hd]|[[-> Hd]|[Hd' Hd]]]]]];
      rewrite ?Hc, ?Hd in Heq; simpl in Heq;
      try (split; [reflexivity|]; congruence);
      try discriminate Heq.
    all: injection Heq as Heq Hrest.
    all: try (exfalso; apply Hd'; rewrite <-Heq; by left).
    all: try (exfalso; apply Hc'; rewrite Heq; by left).
    done.
Qed.

(** X29. [escapeHtml] behaves as one pass that writes each of the five
    special characters as its entity: the order of its five replacements
    escapes nothing twice. Its result holds none of the characters less
    than, greater than, double quote and apostrophe, and it is unambiguous:
    different texts have different results. *)
Theorem escapeHtml_entities (text : jsstring) :
  escapeHtml text = text ≫= escape_unit
  ∧ (∀ x, x ∈ escapeHtml text →
          x ∉ [CHAR_LT; CHAR_GT; CHAR_QUOT; CHAR_APOS])
  ∧ (∀ text', escapeHtml text = escapeHtml text' → text = text').
Proof.
  split_and!.
  - apply escapeHtml_bind.
  - intros x. rewrite escapeHtml_bind.
    intros (c & Hx & _)%list_elem_of_bind. by eapply escape_unit_safe.
  - apply escapeHtml_inj.
Qed.

Lemma escapeHtml_entities_witness :
  CHAR_AMP ∈ escapeHtml (js "<b>")
  ∧ (CHAR_AMP ∉ [CHAR_LT; CHAR_GT; CHAR_QUOT; CHAR_APOS]).
Proof.
  assert (CHAR_AMP ∈ escapeHtml (js "<b>")) as Hin.
  { vm_compute. left. }
  split; [exact Hin|].
  exact (proj1 (proj2 (escapeHtml_entities (js "<b>"))) CHAR_AMP Hin).
Defined.

Lemma shown_snoc segments seg :
  shown (segments ++ [seg]) = shown segments ++ seg_content seg.
Proof.
  unfold shown. rewrite fmap_app, concat_app. simpl.
  by rewrite app_nil_r.
Qed.

Lemma shown_pushNormal normalText segments :
  shown (pushNormal normalText segments) = shown segments ++ normalText.
Proof.
  unfold pushNormal. case_bool_decide as Hne; [apply shown_snoc|].
  by rewrite Hne, app_nil_r.
Qed.

Lemma deletedOf_snoc segments seg :
  deletedOf (segments ++ [seg])
  = deletedOf segments
    ++ (if decide (seg_type seg = Segment.deleted) then [seg_content seg]
        else []).
Proof.
  unfold deletedOf. rewrite filter_app, fmap_app. f_equal.
  rewrite filter_cons. by case_decide.
Qed.

Lemma deletedOf_pushNormal normalText segments :
  deletedOf (pushNormal normalText segments) = deletedOf segments.
Proof.
  unfold pushNormal. case_bool_decide; [|done].
  by rewrite deletedOf_snoc, app_nil_r.
Qed.

Lemma processStep_original text segments cur r :
  processStep text Mode.original (segments, cur) r
  = let before := if cur <? position r
                  then pushNormal (slice text cur (position r)) segments
                  else segments in
    match type r with
    | Diff.add => (before, position r + 0)
    | Diff.delete =>
        (before ++ [{| seg_content := content r;
                       seg_type := Segment.deleted |}],
         position r + length (content r))
    | Diff.modify =>
        (before ++ [{| seg_content := or_empty (originalContent r);
                       seg_type := Segment.modified |}],
         position r + 0)
    end.
Proof. unfold processStep. by destruct (type r). Qed.

Lemma processStep_laid_over text records segments cur :
  laid_over text cur records → shown segments = take cur text →
  ∃ segments' cur',
    foldl (processStep text Mode.original) (segments, cur) records
    = (segments', cur')
    ∧ shown segments' = take cur' text
    ∧ deletedOf segments'
      = deletedOf segments
        ++ (content <$> filter (λ r, type r = Diff.delete) records).
Proof.
  revert segments cur.
  induction records as [|r records IH]; intros segments cur Hlaid Hshown.
  { exists segments, cur. by rewrite app_nil_r. }
  destruct Hlaid as [Hcur Hlaid]. cbn [foldl].
  rewrite processStep_original. cbv zeta.
  set (before := if cur <? position r
                 then pushNormal (slice text cur (position r)) segments
                 else segments).
  assert (shown before = take (position r) text) as Hbefore.
  { unfold before. destruct (Nat.ltb_spec cur (position r)).
    - rewrite shown_pushNormal, Hshown. unfold slice.
      rewrite take_take_drop. f_equal. lia.
    - rewrite Hshown. f_equal. lia. }
  assert (deletedOf before = deletedOf segments) as Hdeleted.
  { unfold before. destruct (cur <? position r); [|done].
    apply deletedOf_pushNormal. }
  fold before. rewrite filter_cons.
  destruct (type r) eqn:Hty; [| |done]; simpl.
  - destruct (IH before (position r + 0)) as (segs' & cur' & -> & ? & Hdel).
    { by rewrite Nat.add_0_r. }
    { by rewrite Nat.add_0_r. }
    exists segs', cur'. by rewrite Hdel, Hdeleted.
  - destruct Hlaid as [Hquote Hlaid].
    destruct (IH (before ++ [{| seg_content := content r;
                                seg_type := Segment.deleted |}])
                (position r + length (content r)))
      as (segs' & cur' & -> & ? & Hdel); [done| |].
    { rewrite shown_snoc, Hbefore. simpl. rewrite <-Hquote at 1.
      unfold slice. rewrite take_take_drop. f_equal. lia. }
    exists segs', cur'. split_and!; [done..|].
    rewrite Hdel, deletedOf_snoc, Hdeleted. simpl.
    by rewrite <-(assoc_L (++)).
Qed.

(** X30. In the original mode [processTextWithDiffs] shows the text it is
    given, once and in order, when the records, read in position order, do
    not overlap, hold no modify, and every delete carries the slice of the
    text at its position; the segments it marks as deleted are then the
    contents of the deletes, in position order. *)
Theorem processTextWithDiffs_shows_text
    (text : jsstring) (diffs : list DiffRecord) :
  laid_over text 0 (sortByPosition diffs) →
  shown (processTextWithDiffs text diffs Mode.original) = text
  ∧ seg_content
      <$> filter (λ s, seg_type s = Segment.deleted)
            (processTextWithDiffs text diffs Mode.original)
    = content
        <$> filter (λ r, type r = Diff.delete) (sortByPosition diffs).
Proof.
  intros Hlaid. unfold processTextWithDiffs.
  destruct (processStep_laid_over text (sortByPosition diffs) [] 0 Hlaid)
    as (segs & cur & -> & Hshown & Hdeleted); [done|].
  fold (deletedOf (if cur <? length text
                   then pushNormal (drop cur text) segs else segs)).
  destruct (Nat.ltb_spec cur (length text)).
  - rewrite shown_pushNormal, deletedOf_pushNormal, Hshown.
    by rewrite take_drop.
  - split; [|done]. rewrite Hshown. by apply take_ge.
Qed.

Lemma processTextWithDiffs_shows_text_witness :
  laid_over (js "abcd") 0
    (sortByPosition [delete_record 2 "c"; delete_record 0 "a"])
  ∧ shown (processTextWithDiffs (js "abcd")
             [delete_record 2 "c"; delete_record 0 "a"] Mode.original)
    = js "abcd".
Proof.
  assert (laid_over (js "abcd") 0
            (sortByPosition [delete_record 2 "c"; delete_record 0 "a"]))
    as Hlaid.
  { simpl. split_and!; done || lia. }
  split; [exact Hlaid|].
  exact (proj1 (processTextWithDiffs_shows_text (js "abcd")
                  [delete_record 2 "c"; delete_record 0 "a"] Hlaid)).
Defined.

End Viewer.
